(** * Solana chain commands of the chainlink CLI

    A shallow embedding of [core/cmd/solana_chains_commands.go] together
    with the parts of the Go standard library the file leans on
    ([strings], [strconv], [unicode/utf8], [encoding/json]) and of
    [go.uber.org/multierr].

    Go strings are byte sequences; they are modelled by [string], whose
    characters are the 256 byte values.  A rune is a number in [N]. *)

From Stdlib Require Import ZArith NArith Ascii String List Lia Bool.
From Stdlib Require Import Floats.SpecFloat Numbers.DecimalString.
From Stdlib Require Import Sorting.Permutation.
From stdpp Require Import base option list gmap strings sorting fin_maps.

Set Warnings "-register-all,-abstract-large-number".

Local Open Scope N_scope.

(** ** Bytes *)

Definition byte_val (c : ascii) : N := N_of_ascii c.

Definition byte_of (n : N) : ascii := ascii_of_N n.

(** The string made of the given byte values. *)
Definition bytes (l : list N) : string :=
  foldr (fun n s => String (byte_of n) s) EmptyString l.

Definition in_range (lo hi x : N) : bool := (lo <=? x) && (x <=? hi).

(** ** [unicode/utf8] *)

Module utf8.

Definition RuneError : N := 0xFFFD.
Definition RuneSelf : N := 0x80.
Definition MaxRune : N := 0x10FFFF.

(** Number of bytes of the well-formed UTF-8 sequence at the head of
    the four given byte values, [0%nat] when the head is not the start
    of one.  Absent bytes are passed as [0], which is never a
    continuation byte.  The ranges are those of the table
    [acceptRanges] of the Go library: no overlong forms, no
    surrogates, nothing above [MaxRune]. *)
Definition seq_len (b0 b1 b2 b3 : N) : nat :=
  if b0 <? 0x80 then 1%nat
  else if in_range 0xC2 0xDF b0 then
    if in_range 0x80 0xBF b1 then 2%nat else 0%nat
  else if in_range 0xE0 0xEF b0 then
    let lo := if b0 =? 0xE0 then 0xA0 else 0x80 in
    let hi := if b0 =? 0xED then 0x9F else 0xBF in
    if in_range lo hi b1 && in_range 0x80 0xBF b2 then 3%nat else 0%nat
  else if in_range 0xF0 0xF4 b0 then
    let lo := if b0 =? 0xF0 then 0x90 else 0x80 in
    let hi := if b0 =? 0xF4 then 0x8F else 0xBF in
    if in_range lo hi b1 && in_range 0x80 0xBF b2 && in_range 0x80 0xBF b3
    then 4%nat else 0%nat
  else 0%nat.

(** The rune a well-formed sequence of the given length denotes. *)
Definition seq_rune (n : nat) (b0 b1 b2 b3 : N) : N :=
  match n with
  | 1%nat => b0
  | 2%nat => (b0 - 0xC0) * 64 + (b1 - 0x80)
  | 3%nat => (b0 - 0xE0) * 4096 + (b1 - 0x80) * 64 + (b2 - 0x80)
  | 4%nat => (b0 - 0xF0) * 262144 + (b1 - 0x80) * 4096
             + (b2 - 0x80) * 64 + (b3 - 0x80)
  | _ => RuneError
  end.

Definition nth_byte (s : string) (i : nat) : N :=
  match String.get i s with
  | Some c => byte_val c
  | None => 0
  end.

(** [utf8.DecodeRuneInString]: the rune at the head of [s] and its
    width in bytes; [(RuneError, 0)] on the empty string and
    [(RuneError, 1)] on an ill-formed head. *)
Definition DecodeRune (s : string) : N * nat :=
  match s with
  | EmptyString => (RuneError, 0%nat)
  | String c _ =>
    let b0 := byte_val c in
    let b1 := nth_byte s 1 in
    let b2 := nth_byte s 2 in
    let b3 := nth_byte s 3 in
    match seq_len b0 b1 b2 b3 with
    | O => (RuneError, 1%nat)
    | n => (seq_rune n b0 b1 b2 b3, n)
    end
  end.

Definition is_surrogate (r : N) : bool := in_range 0xD800 0xDFFF r.

(** [utf8.EncodeRune] (as [utf8.AppendRune]): runes out of range and
    surrogates are written as [RuneError]. *)
Definition EncodeRune (r : N) : string :=
  if r <? 0x80 then bytes [r]
  else if r <? 0x800 then bytes [0xC0 + r / 64; 0x80 + r mod 64]
  else if (MaxRune <? r) || is_surrogate r then bytes [0xEF; 0xBF; 0xBD]
  else if r <? 0x10000 then
    bytes [0xE0 + r / 4096; 0x80 + (r / 64) mod 64; 0x80 + r mod 64]
  else
    bytes [0xF0 + r / 262144; 0x80 + (r / 4096) mod 64;
           0x80 + (r / 64) mod 64; 0x80 + r mod 64].

(** [utf8.ValidString]. *)
Fixpoint Valid_go (skip : nat) (s : string) : bool :=
  match s with
  | EmptyString => true
  | String _ t =>
    match skip with
    | S k => Valid_go k t
    | O =>
      match snd (DecodeRune s), fst (DecodeRune s) =? RuneError with
      | 1%nat, true => false
      | n, _ => Valid_go (n - 1) t
      end
    end
  end.

Definition ValidString (s : string) : bool := Valid_go 0 s.

End utf8.


(** ** [strconv] and [strings] *)

Module strconv.

Definition FormatBool (b : bool) : string :=
  if b then "true" else "false".

End strconv.

Module strings.

(** [strings.Index] for a one-byte separator, as a split of [s] around
    its first occurrence. *)
Fixpoint Cut (s : string) (sep : ascii) : option (string * string) :=
  match s with
  | EmptyString => None
  | String c t =>
    if Ascii.eqb c sep then Some (EmptyString, t)
    else match Cut t sep with
         | Some (before, after) => Some (String c before, after)
         | None => None
         end
  end.

(** [strings.SplitN(s, sep, 2)] for a one-byte separator: [s] alone
    when the separator does not occur, otherwise the text before its
    first occurrence and all the text after it. *)
Definition SplitN2 (s : string) (sep : ascii) : list string :=
  match Cut s sep with
  | Some (before, after) => [before; after]
  | None => [s]
  end.

End strings.

(** ** [encoding/json]: text level *)

Module jsontext.

Definition hex : string := "0123456789abcdef".

Definition hex_digit (n : N) : string :=
  String.substring (N.to_nat n) 1 hex.

(** The table [htmlSafeSet] of the encoder: printable ASCII except the
    quote, the backslash and the three HTML characters. *)
Definition htmlSafe (b : N) : bool :=
  (0x20 <=? b) && (b <? 0x80)
  && negb (b =? 0x22) && negb (b =? 0x26) && negb (b =? 0x3C)
  && negb (b =? 0x3E) && negb (b =? 0x5C).

(** The escape the encoder writes for an ASCII byte outside
    [htmlSafeSet]. *)
Definition escape_byte (c : ascii) : string :=
  match c with
  | "\"%char => "\\"
  | "034"%char => String "\" (String "034" EmptyString)
  | "010"%char => "\n"
  | "013"%char => "\r"
  | "009"%char => "\t"
  | _ => "\u00" +:+ hex_digit (byte_val c / 16) +:+ hex_digit (byte_val c mod 16)
  end.

(** The loop of [encodeState.string] with HTML escaping on, without
    the surrounding quotes.  [skip] counts the bytes of a multi-byte
    sequence already written. *)
Fixpoint encode_chars (skip : nat) (s : string) : string :=
  match s with
  | EmptyString => EmptyString
  | String c t =>
    match skip with
    | S k => encode_chars k t
    | O =>
      if byte_val c <? utf8.RuneSelf then
        (if htmlSafe (byte_val c) then String c EmptyString
         else escape_byte c) +:+ encode_chars 0 t
      else
        let '(r, size) := utf8.DecodeRune s in
        if (r =? utf8.RuneError) && Nat.eqb size 1 then
          ("\uff" +:+ "fd") +:+ encode_chars 0 t
        else if (r =? 0x2028) || (r =? 0x2029) then
          "\u202" +:+ hex_digit (r mod 16) +:+ encode_chars (size - 1) t
        else
          String.substring 0 size s +:+ encode_chars (size - 1) t
    end
  end.

Definition quote (s : string) : string :=
  String "034" (encode_chars 0 s +:+ String "034" EmptyString).

(** Value of a hexadecimal digit, in either case. *)
Definition hex_val (c : ascii) : option N :=
  let b := byte_val c in
  if in_range 0x30 0x39 b then Some (b - 0x30)
  else if in_range 0x61 0x66 b then Some (b - 0x61 + 10)
  else if in_range 0x41 0x46 b then Some (b - 0x41 + 10)
  else None.

(** [getu4] past the two bytes of the escape marker: the number
    written by the next four hexadecimal digits. *)
Definition hex4 (s : string) : option N :=
  match s with
  | String h1 (String h2 (String h3 (String h4 _))) =>
    match hex_val h1, hex_val h2, hex_val h3, hex_val h4 with
    | Some a, Some b, Some c, Some d => Some (a * 4096 + b * 256 + c * 16 + d)
    | _, _, _, _ => None
    end
  | _ => None
  end.

(** [getu4]: the number of a [\uXXXX] escape at the head of [s]. *)
Definition getu4 (s : string) : option N :=
  match s with
  | String "\"%char (String "u"%char t) => hex4 t
  | _ => None
  end.

(** [utf16.DecodeRune]. *)
Definition utf16_DecodeRune (r1 r2 : N) : N :=
  if in_range 0xD800 0xDBFF r1 && in_range 0xDC00 0xDFFF r2
  then (r1 - 0xD800) * 1024 + (r2 - 0xDC00) + 0x10000
  else utf8.RuneError.

Definition simple_escape (c : ascii) : option ascii :=
  match c with
  | "034"%char => Some "034"%char
  | "\"%char => Some "\"%char
  | "/"%char => Some "/"%char
  | "b"%char => Some "008"%char
  | "f"%char => Some "012"%char
  | "n"%char => Some "010"%char
  | "r"%char => Some "013"%char
  | "t"%char => Some "009"%char
  | _ => None
  end.

Definition prepend (pre : string) (r : option (string * string))
  : option (string * string) :=
  match r with
  | Some (x, rest) => Some (pre +:+ x, rest)
  | None => None
  end.

(** A string literal past its opening quote: the scanner's
    [stateInString] and the decoder's [unquote] in one pass.  Returns
    the decoded text and the input after the closing quote.  Control
    bytes and unknown escapes are syntax errors; ill-formed UTF-8 and
    unpaired surrogates are replaced by U+FFFD. *)
Fixpoint unquote_chars (skip : nat) (s : string) : option (string * string) :=
  match s with
  | EmptyString => None
  | String c t =>
    match skip with
    | S k => unquote_chars k t
    | O =>
      if Ascii.eqb c "034" then Some (EmptyString, t)
      else if Ascii.eqb c "\" then
        match t with
        | EmptyString => None
        | String e t' =>
          match simple_escape e with
          | Some x => prepend (String x EmptyString) (unquote_chars 1 t)
          | None =>
            if Ascii.eqb e "u" then
              match hex4 t' with
              | None => None
              | Some rr =>
                if utf8.is_surrogate rr then
                  match getu4 (String.substring 4 (String.length t') t') with
                  | Some rr1 =>
                    let dec := utf16_DecodeRune rr rr1 in
                    if dec =? utf8.RuneError
                    then prepend (utf8.EncodeRune utf8.RuneError)
                                 (unquote_chars 5 t)
                    else prepend (utf8.EncodeRune dec) (unquote_chars 11 t)
                  | None => prepend (utf8.EncodeRune utf8.RuneError)
                                    (unquote_chars 5 t)
                  end
                else prepend (utf8.EncodeRune rr) (unquote_chars 5 t)
              end
            else None
          end
        end
      else if byte_val c <? 0x20 then None
      else if byte_val c <? utf8.RuneSelf then
        prepend (String c EmptyString) (unquote_chars 0 t)
      else
        let '(r, size) := utf8.DecodeRune s in
        prepend (utf8.EncodeRune r) (unquote_chars (size - 1) t)
    end
  end.

Definition is_digit (c : ascii) : bool := in_range 0x30 0x39 (byte_val c).

(** The longest run of decimal digits at the head of [s]. *)
Fixpoint span_digits (s : string) : string * string :=
  match s with
  | String c t =>
    if is_digit c then
      let '(ds, rest) := span_digits t in (String c ds, rest)
    else (EmptyString, s)
  | EmptyString => (EmptyString, EmptyString)
  end.

(** A non-empty run of digits. *)
Definition digits1 (s : string) : option (string * string) :=
  match span_digits s with
  | (EmptyString, _) => None
  | r => Some r
  end.

Definition scan_int (s : string) : option (string * string) :=
  match s with
  | String "0"%char t => Some ("0", t)
  | _ => digits1 s
  end.

Definition scan_frac (s : string) : option (string * string) :=
  match s with
  | String "."%char t => prepend "." (digits1 t)
  | _ => Some (EmptyString, s)
  end.

Definition scan_exp (s : string) : option (string * string) :=
  match s with
  | String c t =>
    if Ascii.eqb c "e" || Ascii.eqb c "E" then
      match t with
      | String sg t' =>
        if Ascii.eqb sg "+" || Ascii.eqb sg "-"
        then prepend (String c (String sg EmptyString)) (digits1 t')
        else prepend (String c EmptyString) (digits1 t)
      | EmptyString => None
      end
    else Some (EmptyString, s)
  | EmptyString => Some (EmptyString, s)
  end.

(** The number states of the scanner ([stateNeg], [state0], [state1],
    [stateDot], [stateE], ...): the number literal at the head of [s]
    and the input after it, or a syntax error. *)
Definition scan_number (s : string) : option (string * string) :=
  let '(sign, s0) :=
    match s with
    | String "-"%char t => ("-", t)
    | _ => (EmptyString, s)
    end in
  match scan_int s0 with
  | None => None
  | Some (i, s1) =>
    match scan_frac s1 with
    | None => None
    | Some (f, s2) =>
      match scan_exp s2 with
      | None => None
      | Some (e, s3) => Some (sign +:+ i +:+ f +:+ e, s3)
      end
    end
  end.

(** [t] is, as a whole, one JSON number literal. *)
Definition number_literal (t : string) : bool :=
  match scan_number t with
  | Some (_, EmptyString) => true
  | _ => false
  end.

Definition is_space (c : ascii) : bool :=
  match c with
  | " "%char | "009"%char | "010"%char | "013"%char => true
  | _ => false
  end.

Fixpoint skip_space (s : string) : string :=
  match s with
  | String c t => if is_space c then skip_space t else s
  | EmptyString => EmptyString
  end.

End jsontext.

(** ** [strconv] on floating-point numbers

  The conversions between [float64] and decimal text are taken as an
  interface; an instance that computes them on IEEE 754 binary64 is
  given further down. *)

Class Float64 := {
float64 : Type;
(** [strconv.ParseFloat(s, 64)] on a JSON number literal; [None] is
    the range error. *)
ParseFloat : string -> option float64;
(** The text [encoding/json] writes for a number; [None] for NaN and
    the infinities, which it refuses. *)
FormatFloat : float64 -> option string;
}.

(** ** [encoding/json]: values *)

Module json.
Section with_float.
Context `{F : Float64}.

(** What [json.Unmarshal] stores into an [interface{}]: [nil], [bool],
    [float64], [string], [[]interface{}] and [map[string]interface{}]. *)
Inductive value : Type :=
| Null
| Bool (b : bool)
| Number (f : float64)
| Str (s : string)
| Array (vs : list value)
| Object (m : gmap string value).

Definition maxNestingDepth : nat := 10000.

(** A Go map filled by assignments in sequence: a later assignment to
    a key replaces the earlier one. *)
Definition assign_all (m : gmap string value) (kvs : list (string * value))
  : gmap string value :=
  foldl (fun acc kv => <[kv.1 := kv.2]> acc) m kvs.

Definition literal (lit : string) (v : value) (s : string)
  : option (value * string) :=
  if String.prefix lit s
  then Some (v, String.substring (String.length lit)
                  (String.length s - String.length lit) s)
  else None.

(** The input after the byte [c], when it starts with [c]. *)
Definition expect (c : ascii) (s : string) : option string :=
  match s with
  | String c' r => if Ascii.eqb c' c then Some r else None
  | EmptyString => None
  end.

(** The decoder for [interface{}] targets, after the input passed the
    scanner: [d] is the number of arrays and objects currently open. *)
Fixpoint parse_value (fuel d : nat) (s : string) : option (value * string) :=
  match fuel with
  | O => None
  | S n =>
    match s with
    | EmptyString => None
    | String c t =>
      if Ascii.eqb c "{" then
        if (d <? maxNestingDepth)%nat then
          match expect "}" (jsontext.skip_space t) with
          | Some r => Some (Object ∅, r)
          | None =>
            match parse_members n (S d) (jsontext.skip_space t) with
            | Some (kvs, r') => Some (Object (assign_all ∅ kvs), r')
            | None => None
            end
          end
        else None
      else if Ascii.eqb c "[" then
        if (d <? maxNestingDepth)%nat then
          match expect "]" (jsontext.skip_space t) with
          | Some r => Some (Array [], r)
          | None =>
            match parse_elements n (S d) (jsontext.skip_space t) with
            | Some (vs, r') => Some (Array vs, r')
            | None => None
            end
          end
        else None
      else if Ascii.eqb c "034" then
        match jsontext.unquote_chars 0 t with
        | Some (x, r) => Some (Str x, r)
        | None => None
        end
      else if Ascii.eqb c "t" then literal "true" (Bool true) s
      else if Ascii.eqb c "f" then literal "false" (Bool false) s
      else if Ascii.eqb c "n" then literal "null" Null s
      else
        match jsontext.scan_number s with
        | Some (lit, r) =>
          match ParseFloat lit with
          | Some f => Some (Number f, r)
          | None => None
          end
        | None => None
        end
    end
  end
with parse_elements (fuel d : nat) (s : string)
  : option (list value * string) :=
  match fuel with
  | O => None
  | S n =>
    match parse_value n d s with
    | Some (v, r) =>
      match expect "," (jsontext.skip_space r) with
      | Some r1 =>
        match parse_elements n d (jsontext.skip_space r1) with
        | Some (vs, r2) => Some (v :: vs, r2)
        | None => None
        end
      | None =>
        match expect "]" (jsontext.skip_space r) with
        | Some r1 => Some ([v], r1)
        | None => None
        end
      end
    | None => None
    end
  end
with parse_members (fuel d : nat) (s : string)
  : option (list (string * value) * string) :=
  match fuel with
  | O => None
  | S n =>
    match expect "034" s with
    | Some t =>
      match jsontext.unquote_chars 0 t with
      | Some (k, r) =>
        match expect ":" (jsontext.skip_space r) with
        | Some r1 =>
          match parse_value n d (jsontext.skip_space r1) with
          | Some (v, r2) =>
            match expect "," (jsontext.skip_space r2) with
            | Some r3 =>
              match parse_members n d (jsontext.skip_space r3) with
              | Some (kvs, r4) => Some ((k, v) :: kvs, r4)
              | None => None
              end
            | None =>
              match expect "}" (jsontext.skip_space r2) with
              | Some r3 => Some ([(k, v)], r3)
              | None => None
              end
            end
          | None => None
          end
        | None => None
        end
      | None => None
      end
    | None => None
    end
  end.

Definition fuel_for (data : string) : nat := 2 * String.length data + 2.

(** One JSON text, surrounded by optional white space. *)
Definition parse_text (data : string) : option value :=
  match parse_value (fuel_for data) 0 (jsontext.skip_space data) with
  | Some (v, r) =>
    match jsontext.skip_space r with
    | EmptyString => Some v
    | _ => None
    end
  | None => None
  end.

(** [json.Unmarshal(data, &v)] with [v] an [interface{}]: [None] stands
    for a returned error (a syntax error, nesting deeper than
    [maxNestingDepth], or a number out of the [float64] range). *)
Definition Unmarshal (data : string) : option value := parse_text data.

(** [json.Unmarshal(data, &m)] with [m] a [map[string]interface{}]: the
    entries of the JSON object are assigned into the existing map, whose
    other entries stay; [null] sets the map to [nil], rendered here by the
    empty map; any other JSON value is a type error. *)
Definition Unmarshal_map (data : string) (m : gmap string value)
  : option (gmap string value) :=
  match parse_text data with
  | Some (Object o) => Some (assign_all m (map_to_list o))
  | Some Null => Some ∅
  | _ => None
  end.

Definition join (sep : string) (items : list string) : string :=
  String.concat sep items.

Definition key_le (a b : string * string) : Prop := String.le a.1 b.1.

#[local] Instance key_le_dec : RelDecision key_le.
Proof. intros a b. unfold key_le. apply _. Defined.

(** The members of an object in the order the encoder writes them:
    sorted by key, bytewise. *)
Definition sort_members (items : list (string * string))
  : list (string * string) :=
  merge_sort key_le items.

Definition collect {A} (x : option A) (acc : option (list A))
  : option (list A) :=
  match x, acc with
  | Some a, Some l => Some (a :: l)
  | _, _ => None
  end.

(** [json.Marshal]: [None] stands for the [UnsupportedValueError] of a
    number that is NaN or infinite. *)
Fixpoint Marshal (v : value) : option string :=
  match v with
  | Null => Some "null"
  | Bool b => Some (strconv.FormatBool b)
  | Number f => FormatFloat f
  | Str s => Some (jsontext.quote s)
  | Array vs =>
    match foldr (fun x acc => collect (Marshal x) acc) (Some []) vs with
    | Some items => Some ("[" +:+ join "," items +:+ "]")
    | None => None
    end
  | Object m =>
    match map_fold (fun k x acc =>
                      collect (pair k <$> Marshal x) acc) (Some []) m with
    | Some items =>
      Some ("{" +:+ join "," ((fun kv => jsontext.quote kv.1 +:+ ":" +:+ kv.2)
                                <$> sort_members items) +:+ "}")
    | None => None
    end
  end.

(** Number of arrays and objects open at the deepest point of [v]. *)
Fixpoint nesting (v : value) : nat :=
  match v with
  | Array vs => S (foldr (fun x acc => Nat.max (nesting x) acc) O vs)
  | Object m => S (map_fold (fun _ x acc => Nat.max (nesting x) acc) O m)
  | _ => O
  end.

Fixpoint repeat_string (n : nat) (s : string) : string :=
  match n with
  | O => EmptyString
  | S k => s +:+ repeat_string k s
  end.

(** [newline] of [json.Indent]. *)
Definition newline (pfx indent : string) (depth : nat) : string :=
  String "010" EmptyString +:+ pfx +:+ repeat_string depth indent.

(** The layout [json.Indent] gives to the encoder's output: empty
    arrays and objects stay closed up, every element and member starts
    a line one level deeper, a space follows each colon. *)
Fixpoint encode_indent (pfx indent : string) (depth : nat) (v : value)
  : option string :=
  match v with
  | Array [] => Some "[]"
  | Array vs =>
    match foldr (fun x acc =>
                   collect (encode_indent pfx indent (S depth) x) acc)
                (Some []) vs with
    | Some items =>
      Some ("[" +:+ newline pfx indent (S depth)
            +:+ join ("," +:+ newline pfx indent (S depth)) items
            +:+ newline pfx indent depth +:+ "]")
    | None => None
    end
  | Object m =>
    match map_fold (fun k x acc =>
                      collect (pair k <$> encode_indent pfx indent (S depth) x)
                              acc) (Some []) m with
    | Some [] => Some "{}"
    | Some items =>
      Some ("{" +:+ newline pfx indent (S depth)
            +:+ join ("," +:+ newline pfx indent (S depth))
                  ((fun kv => jsontext.quote kv.1 +:+ ": " +:+ kv.2)
                     <$> sort_members items)
            +:+ newline pfx indent depth +:+ "}")
    | None => None
    end
  | _ => Marshal v
  end.

(** [json.MarshalIndent]: [json.Marshal] followed by [json.Indent],
    which scans the text again and so fails on nesting deeper than
    [maxNestingDepth]. *)
Definition MarshalIndent (v : value) (pfx indent : string) : option string :=
  match Marshal v with
  | Some _ =>
    if (nesting v <=? maxNestingDepth)%nat
    then encode_indent pfx indent 0 v
    else None
  | None => None
  end.

End with_float.
Arguments value F : clear implicits.
End json.

(** ** IEEE 754 binary64 and its decimal conversions

    A [float64] is a [spec_float] in canonical form: mantissa below
    [2^53], exponent between [-1074] and [971], the mantissa at least
    [2^52] unless the exponent is [-1074]. *)

Module binary64.
Local Open Scope Z_scope.

Definition emin : Z := -1074.
Definition emax : Z := 971.

(** The integer nearest to [a / b], ties to even ([0 <= a], [0 < b]). *)
Definition div_nearest_even (a b : Z) : Z :=
  let q := a / b in
  match 2 * (a mod b) ?= b with
  | Lt => q
  | Gt => q + 1
  | Eq => if Z.even q then q else q + 1
  end.

(** [num / den < 2 ^ k]. *)
Definition below_pow2 (num den k : Z) : bool :=
  if 0 <=? k then num <? den * 2 ^ k else num * 2 ^ (- k) <? den.

Definition floor_log2 (num den : Z) : Z :=
  let l := Z.log2 num - Z.log2 den in
  if below_pow2 num den l then l - 1 else l.

(** [num / den / 2 ^ e], rounded to the nearest integer, ties to even. *)
Definition scaled (num den e : Z) : Z :=
  if 0 <=? e then div_nearest_even num (den * 2 ^ e)
  else div_nearest_even (num * 2 ^ (- e)) den.

(** The binary64 number nearest to [num / den], ties to even; [None]
    when it is beyond the largest finite one. *)
Definition round (neg : bool) (num den : Z) : option spec_float :=
  if num =? 0 then Some (S754_zero neg)
  else
    let e := Z.max (floor_log2 num den - 52) emin in
    let m := scaled num den e in
    let '(m, e) := if m =? 2 ^ 53 then (2 ^ 52, e + 1) else (m, e) in
    if m =? 0 then Some (S754_zero neg)
    else if emax <? e then None
    else Some (S754_finite neg (Z.to_pos m) e).

Fixpoint digits_val (acc : Z) (s : string) : Z :=
  match s with
  | String c t => digits_val (10 * acc + (Z.of_N (byte_val c) - 48)) t
  | EmptyString => acc
  end.

(** The decimal exponent written after [e] or [E], [0] when absent. *)
Definition exponent_val (s : string) : Z :=
  match s with
  | String _ (String "-"%char t) => - digits_val 0 t
  | String _ (String "+"%char t) => digits_val 0 t
  | String _ t => digits_val 0 t
  | EmptyString => 0
  end.

(** [strconv.ParseFloat(s, 64)] on a JSON number literal: the nearest
    binary64 number; [None] on text that is no such literal and on
    overflow (Go's [ErrRange], returned with an infinity).  Underflow
    gives a zero and no error. *)
Definition parse (s : string) : option spec_float :=
  let '(neg, s0) :=
    match s with
    | String "-"%char t => (true, t)
    | _ => (false, s)
    end in
  match jsontext.scan_int s0 with
  | None => None
  | Some (ip, s1) =>
    match jsontext.scan_frac s1 with
    | None => None
    | Some (fp, s2) =>
      match jsontext.scan_exp s2 with
      | Some (ex, EmptyString) =>
        let frac := String.substring 1 (String.length fp) fp in
        let d := digits_val 0 (ip +:+ frac) in
        let nd := Z.of_nat (String.length (ip +:+ frac)) in
        let e10 := exponent_val ex - Z.of_nat (String.length frac) in
        if d =? 0 then Some (S754_zero neg)
        else if 400 <? e10 then None
        else if e10 + nd <? -400 then Some (S754_zero neg)
        else round neg (d * 10 ^ Z.max e10 0) (10 ^ Z.max (- e10) 0)
      | _ => None
      end
    end
  end.

(** [10 ^ p <= num / den]. *)
Definition pow10_le (num den p : Z) : bool :=
  if 0 <=? p then den * 10 ^ p <=? num else den <=? num * 10 ^ (- p).

Definition floor_log10 (num den : Z) : Z :=
  let p := floor_log2 num den * 30103 / 100000 in
  if pow10_le num den (p + 1) then p + 1
  else if pow10_le num den p then p
  else p - 1.

(** Whether [c * 10 ^ k] rounds to the number [m * 2 ^ e]. *)
Definition rounds_to (m : positive) (e c k : Z) : bool :=
  match round false (c * 10 ^ Z.max k 0) (10 ^ Z.max (- k) 0) with
  | Some (S754_finite _ m' e') => Pos.eqb m m' && (e =? e')
  | _ => false
  end.

(** The shortest decimal [c * 10 ^ k] that rounds to [m * 2 ^ e], the
    nearest one among those of that length: [digits] runs over the
    candidate lengths. *)
Fixpoint shortest (digits : list Z) (m : positive) (e : Z) : option (Z * Z) :=
  match digits with
  | [] => None
  | n :: rest =>
    let num := if 0 <=? e then Z.pos m * 2 ^ e else Z.pos m in
    let den := if 0 <=? e then 1 else 2 ^ (- e) in
    let k := floor_log10 num den - n + 1 in
    let lo := if 0 <=? k then num / (den * 10 ^ k)
              else (num * 10 ^ (- k)) / den in
    let hi := lo + 1 in
    let lo_first :=
      if 0 <=? k then 2 * num <=? (lo + hi) * 10 ^ k * den
      else 2 * num * 10 ^ (- k) <=? (lo + hi) * den in
    match rounds_to m e lo k, rounds_to m e hi k with
    | true, true => Some (if lo_first then lo else hi, k)
    | true, false => Some (lo, k)
    | false, true => Some (hi, k)
    | false, false => shortest rest m e
    end
  end.

Fixpoint strip_zeros (fuel : nat) (c k : Z) : Z * Z :=
  match fuel with
  | S n => if (c mod 10 =? 0) && negb (c =? 0)
           then strip_zeros n (c / 10) (k + 1) else (c, k)
  | O => (c, k)
  end.

Definition decimal (z : Z) : string :=
  DecimalString.NilZero.string_of_uint (N.to_uint (Z.to_N z)).

(** [%e] with the shortest digits, and the exponent as [encoding/json]
    leaves it: at least two digits after a [+], no padding after a [-]. *)
Definition format_e (digs : string) (dp : Z) : string :=
  let ex := dp - 1 in
  let mant :=
    match digs with
    | String c EmptyString => digs
    | String c t => String c ("." +:+ t)
    | EmptyString => "0"
    end in
  mant +:+ "e" +:+
  (if ex <? 0 then
     "-" +:+ decimal (- ex)
   else "+" +:+ (if ex <? 10 then "0" +:+ decimal ex else decimal ex)).

(** [%f] with the shortest digits. *)
Definition format_f (digs : string) (dp : Z) : string :=
  let nd := Z.of_nat (String.length digs) in
  if dp <=? 0 then "0." +:+ json.repeat_string (Z.to_nat (- dp)) "0" +:+ digs
  else if nd <=? dp then digs +:+ json.repeat_string (Z.to_nat (dp - nd)) "0"
  else String.substring 0 (Z.to_nat dp) digs +:+ "." +:+
       String.substring (Z.to_nat dp) (Z.to_nat (nd - dp)) digs.

(** The [floatEncoder] of [encoding/json] at 64 bits: [%f] unless the
    magnitude is below [1e-6] or at least [1e21], then [%e]; the digits
    are the shortest that parse back to the same number. *)
Definition format (f : spec_float) : option string :=
  match f with
  | S754_zero neg => Some (if neg then "-0" else "0")
  | S754_finite neg m e =>
    match shortest [1;2;3;4;5;6;7;8;9;10;11;12;13;14;15;16;17] m e with
    | Some (c, k) =>
      let '(c, k) := strip_zeros 20 c k in
      let digs := decimal c in
      let dp := Z.of_nat (String.length digs) + k in
      Some ((if neg then "-" else "") +:+
            (if (dp - 1 <? -6) || (21 <=? dp - 1)
             then format_e digs dp else format_f digs dp))
    | None => None
    end
  | _ => None
  end.

#[global] Instance spec_float_eq_dec : EqDecision spec_float.
Proof. solve_decision. Defined.

(** A number is accepted from the parser when the encoder's text for it
    is a JSON number that parses back to it.  Go's [strconv] guarantees
    this of every finite [float64]; here it is checked on each number
    instead of being proved of the algorithm. *)
Definition round_trips (f : spec_float) : bool :=
  match format f with
  | Some t => jsontext.number_literal t && bool_decide (parse t = Some f)
  | None => false
  end.

Definition ParseFloat (s : string) : option spec_float :=
  match parse s with
  | Some f => if round_trips f then Some f else None
  | None => None
  end.

End binary64.

#[global] Instance go_float64 : Float64 :=
  {| float64 := spec_float;
     ParseFloat := binary64.ParseFloat;
     FormatFloat := binary64.format |}.

(** ** Errors: [errors], [go.uber.org/multierr] *)

Module errors.

(** A Go [error] value; [nil] is [None] of [option error].  A
    [multiError] holds the errors it combines. *)
Inductive error : Type :=
| New (msg : string)
| multiError (errs : list error).

(** The method [Error()]; a [multiError] joins its parts with ["; "]. *)
Fixpoint Error (e : error) : string :=
  match e with
  | New msg => msg
  | multiError errs => String.concat "; " (map Error errs)
  end.

(** [errors.Errorf] with a format that ends in one [%v] verb, applied to
    a string. *)
Definition Errorf (fmt_prefix : string) (arg : string) : error :=
  New (fmt_prefix +:+ arg).

End errors.

Module multierr.
Import errors.

Definition flatten (e : error) : list error :=
  match e with
  | multiError errs => errs
  | _ => [e]
  end.

(** [multierr.Append]: a [nil] side gives the other side; otherwise one
    flat [multiError] with the errors of the left, then of the right. *)
Definition Append (left right : option error) : option error :=
  match left, right with
  | None, _ => right
  | _, None => left
  | Some l, Some r => Some (multiError (flatten l ++ flatten r))
  end.

End multierr.

(** ** [encoding/json]: raw messages *)

(** Numbers kept as the literal that was read: the decoder instantiated
    this way accepts exactly the texts the scanner accepts. *)
Definition literal_float64 : Float64 :=
  {| float64 := string;
     ParseFloat := fun s => Some s;
     FormatFloat := fun s => Some s |}.

Module jsonraw.

(** [checkValid]: the scanner accepts the whole of [data]. *)
Definition checkValid (data : string) : bool :=
  match @json.parse_text literal_float64 data with
  | Some _ => true
  | None => false
  end.

(** The bytes [compact] writes for a valid text with escaping on: white
    space between tokens is dropped; inside string literals the three
    HTML characters and U+2028, U+2029 are written as escapes. *)
Fixpoint compact_chars (in_string escaped : bool) (skip : nat) (s : string)
  : string :=
  match s with
  | EmptyString => EmptyString
  | String c t =>
    match skip with
    | S k => compact_chars in_string escaped k t
    | O =>
      if in_string then
        if escaped then String c (compact_chars true false 0 t)
        else if Ascii.eqb c "\" then String c (compact_chars true true 0 t)
        else if Ascii.eqb c "034" then String c (compact_chars false false 0 t)
        else if Ascii.eqb c "<" || Ascii.eqb c ">" || Ascii.eqb c "&" then
          jsontext.escape_byte c +:+ compact_chars true false 0 t
        else if String.prefix (bytes [0xE2; 0x80; 0xA8]%N) s then
          ("\u202" +:+ "8") +:+ compact_chars true false 2 t
        else if String.prefix (bytes [0xE2; 0x80; 0xA9]%N) s then
          ("\u202" +:+ "9") +:+ compact_chars true false 2 t
        else String c (compact_chars true false 0 t)
      else if jsontext.is_space c then compact_chars false false 0 t
      else if Ascii.eqb c "034" then String c (compact_chars true false 0 t)
      else String c (compact_chars false false 0 t)
    end
  end.

(** What the encoder writes for a [json.RawMessage]: its compacted text,
    or an error when it is not valid JSON. *)
Definition Marshal_RawMessage (m : string) : option string :=
  if checkValid m then Some (compact_chars false false 0 m) else None.

End jsonraw.

(** ** [time] *)

(** A [time.Time] is only ever printed here. *)
Class TimeOps := {
  Time : Type;
  Time_String : Time -> string;
}.

(** ** The commands *)

Module cmd.
Import errors.

(** How a call ends: it returns its [error] result, or it panics. *)
Inductive outcome : Type :=
| Returned (err : option error)
| Panicked.

(** The result of a step that may fail or panic. *)
Inductive step (A : Type) : Type :=
| Val (a : A)
| Err (e : error)
| Crash.
Arguments Val {A} a.
Arguments Err {A} e.
Arguments Crash {A}.

(** An [*http.Response], known by the body it holds; [nil] is [None] of
    [option Response]. *)
Record Response : Type := { Body : nat }.

(** An [io.Writer] for tables: the rows it took so far, and how many
    more writes succeed ([None]: all of them). *)
Record Writer : Type := {
  rows_written : list (list string);
  writes_left : option nat;
}.

Definition Write (w : Writer) (row : list string) : Writer * option error :=
  match writes_left w with
  | Some O => (w, Some (New "write failed"))
  | Some (S n) =>
    ({| rows_written := rows_written w ++ [row]; writes_left := Some n |}, None)
  | None =>
    ({| rows_written := rows_written w ++ [row]; writes_left := None |}, None)
  end.

Record RendererTable : Type := { rt_Writer : Writer }.

(** The [*cli.Context] of a command: its [id] and [page] flags and its
    positional arguments. *)
Record Context : Type := {
  String_id : string;
  Int_page : Z;
  Args : list string;
}.

Definition Present (args : list string) : bool :=
  match args with
  | [] => false
  | _ => true
  end.

Definition First (args : list string) : string :=
  match args with
  | a :: _ => a
  | [] => EmptyString
  end.

(** What the commands observe of the world. *)
Inductive event : Type :=
| Request (verb path : string) (body : option string)
| BodyClose (r : Response) (cerr : option error)
| Decode (r : option Response)
| ReadConfig (arg : string)
| Print (text : string).

Definition is_request (ev : event) : bool :=
  match ev with
  | Request _ _ _ => true
  | _ => false
  end.

Section with_library.
Context `{F : Float64} `{T : TimeOps}.

(** Modelled from the spec: the type [presenters.SolanaChainResource],
    declared outside this file, is the ChainResource of the data model:
    an identifier, the enabled flag, the configuration document as a
    map from top-level keys to structured values, and two timestamps. *)
Record SolanaChainResource : Type := {
  ID : string;
  Enabled : bool;
  Config : gmap string (json.value F);
  CreatedAt : Time;
  UpdatedAt : Time;
}.

Definition GetID (r : SolanaChainResource) : string := ID r.

(** [SolanaChainPresenter] embeds the resource. *)
Record SolanaChainPresenter : Type := {
  resource :> SolanaChainResource;
}.

Definition SolanaChainPresenters : Type := list SolanaChainPresenter.

(** [ToRow]: [None] is the panic on a failed [json.MarshalIndent]. *)
Definition ToRow (p : SolanaChainPresenter) : option (list string) :=
  match json.MarshalIndent (json.Object (Config p)) "" "    " with
  | None => None
  | Some config =>
    Some [GetID p;
          strconv.FormatBool (Enabled p);
          config;
          Time_String (CreatedAt p);
          Time_String (UpdatedAt p)]
  end.

(** Modelled from the spec: [renderList], declared outside this file,
    formats the headers once and then each row, in order, to the sink;
    it has no result, so a failed write is not reported. *)
Definition renderList (fields : list string) (items : list (list string))
  (writer : Writer) : Writer :=
  foldl (fun w row => fst (Write w row)) writer (fields :: items).

Definition headers : list string :=
  ["ID"; "Enabled"; "Config"; "Created"; "Updated"].

(** [SolanaChainPresenter.RenderTable]. *)
Definition RenderTable (p : SolanaChainPresenter) (rt : RendererTable)
  : outcome * Writer :=
  let rows : list (list string) := [] in
  match ToRow p with
  | None => (Panicked, rt_Writer rt)
  | Some row =>
    let rows := rows ++ [row] in
    (Returned None, renderList headers rows (rt_Writer rt))
  end.

(** The loop of [SolanaChainPresenters.RenderTable]: the rows of the
    presenters, appended in order; [None] when a [ToRow] panics. *)
Fixpoint collect_rows (rows : list (list string)) (ps : SolanaChainPresenters)
  : option (list (list string)) :=
  match ps with
  | [] => Some rows
  | p :: rest =>
    match ToRow p with
    | None => None
    | Some row => collect_rows (rows ++ [row]) rest
    end
  end.

(** [SolanaChainPresenters.RenderTable]. *)
Definition RenderTables (ps : SolanaChainPresenters) (rt : RendererTable)
  : outcome * Writer :=
  match collect_rows [] ps with
  | None => (Panicked, rt_Writer rt)
  | Some rows => (Returned None, renderList headers rows (rt_Writer rt))
  end.

(** *** The client *)

(** The collaborators of the commands, as transitions of a world [W]:
    the HTTP client, the bodies of its responses, the JSON:API decoder
    and the reader of the configuration argument.  A request gives
    Go's pair of a response and an error. *)
Record Client (W : Type) : Type := {
  HTTP_Get : string -> W -> (option Response * option error) * W;
  HTTP_Post : string -> string -> W -> (option Response * option error) * W;
  HTTP_Patch : string -> string -> W -> (option Response * option error) * W;
  HTTP_Delete : string -> W -> (option Response * option error) * W;
  Body_Close : Response -> W -> option error * W;
  decode_resource : option Response -> W -> step SolanaChainResource * W;
  decode_page : option Response -> W -> step (list SolanaChainResource) * W;
  decode_any : option Response -> W -> step unit * W;
  read_config : string -> W -> (string + error) * W;
}.
Arguments HTTP_Get {W} _ _ _.
Arguments HTTP_Post {W} _ _ _ _.
Arguments HTTP_Patch {W} _ _ _ _.
Arguments HTTP_Delete {W} _ _ _.
Arguments Body_Close {W} _ _ _.
Arguments decode_resource {W} _ _ _.
Arguments decode_page {W} _ _ _.
Arguments decode_any {W} _ _ _.
Arguments read_config {W} _ _ _.

Section with_client.
Context {W : Type} (cl : Client W).

(** The state a command runs in: the world, the calls made so far
    (oldest first) and the sink of the renderer. *)
Record state : Type := {
  world : W;
  trace : list event;
  sink : Writer;
}.

Definition IO (A : Type) : Type := state -> A * state.

Definition ret {A} (a : A) : IO A := fun st => (a, st).

Definition bind {A B} (m : IO A) (k : A -> IO B) : IO B :=
  fun st => let '(a, st') := m st in k a st'.

Definition log (ev : event) (st : state) : state :=
  {| world := world st; trace := trace st ++ [ev]; sink := sink st |}.

(** A call to a collaborator, recorded in the trace. *)
Definition call {A} (f : W -> A * W) (ev : A -> event) : IO A :=
  fun st =>
    let '(a, w) := f (world st) in
    (a, log (ev a) {| world := w; trace := trace st; sink := sink st |}).

Definition Get (path : string) : IO (option Response * option error) :=
  call (HTTP_Get cl path) (fun _ => Request "GET" path None).

Definition Post (path body : string) : IO (option Response * option error) :=
  call (HTTP_Post cl path body) (fun _ => Request "POST" path (Some body)).

Definition Patch (path body : string) : IO (option Response * option error) :=
  call (HTTP_Patch cl path body) (fun _ => Request "PATCH" path (Some body)).

Definition Delete (path : string) : IO (option Response * option error) :=
  call (HTTP_Delete cl path) (fun _ => Request "DELETE" path None).

Definition Close (r : Response) : IO (option error) :=
  call (Body_Close cl r) (fun cerr => BodyClose r cerr).

Definition printf (text : string) : IO unit :=
  fun st => (tt, log (Print text) st).

(** Modelled from the spec: [errorOut], declared outside this file,
    turns an error into the terminal failure of the command, keeping
    its message; [nil] stays [nil]. *)
Definition errorOut (err : option error) : option error :=
  match err with
  | Some e => Some (New (Error e))
  | None => None
  end.

(** Modelled from the spec: [deserializeAPIResponse], declared outside
    this file, decodes a response into the typed resource, or fails
    with a decode error. *)
Definition deserializeAPIResponse (resp : option Response)
  : IO (step SolanaChainResource) :=
  call (decode_resource cl resp) (fun _ => Decode resp).

(** Rendering through the client's renderer, to the sink. *)
Definition Render (p : SolanaChainPresenter) : IO outcome :=
  fun st =>
    let '(o, w) := RenderTable p {| rt_Writer := sink st |} in
    (o, {| world := world st; trace := trace st; sink := w |}).

Definition RenderAll (ps : SolanaChainPresenters) : IO outcome :=
  fun st =>
    let '(o, w) := RenderTables ps {| rt_Writer := sink st |} in
    (o, {| world := world st; trace := trace st; sink := w |}).

Definition errorOut_outcome (o : outcome) : outcome :=
  match o with
  | Returned err => Returned (errorOut err)
  | Panicked => Panicked
  end.

(** Modelled from the spec: [renderAPIResponse], declared outside this
    file, decodes the response into the single resource and renders it
    through the table renderer. *)
Definition renderAPIResponse (resp : option Response) : IO outcome :=
  bind (deserializeAPIResponse resp) (fun d =>
  match d with
  | Crash => ret Panicked
  | Err e => ret (Returned (errorOut (Some e)))
  | Val chain =>
    bind (Render {| resource := chain |}) (fun o => ret (errorOut_outcome o))
  end).

(** *** Deferred calls

    The commands name their result [err] and keep the response in the
    variable [resp]; the deferred closures read and write these
    variables when they run, after the [return] statement has set
    [err]. *)
Record locals : Type := {
  resp : option Response;
  err : option error;
}.

(** The closure deferred after each request: close the body of whatever
    [resp] holds now and append a failure of that to [err].  [None] is
    the panic of reading [resp.Body] through a [nil] pointer. *)
Definition deferred_close (l : locals) : IO (option locals) :=
  match resp l with
  | None => ret None
  | Some r =>
    bind (Close r) (fun cerr =>
    match cerr with
    | Some _ =>
      ret (Some {| resp := resp l; err := multierr.Append (err l) cerr |})
    | None => ret (Some l)
    end)
  end.

(** How the body of a function ends: whether it panicked, the variables
    at that point, and how many closures it had deferred. *)
Record frame : Type := {
  panicking : bool;
  vars : locals;
  deferred : nat;
}.

Definition returning (r : option Response) (e : option error) (n : nat)
  : frame :=
  {| panicking := false; vars := {| resp := r; err := e |}; deferred := n |}.

Definition crashing (r : option Response) (e : option error) (n : nat)
  : frame :=
  {| panicking := true; vars := {| resp := r; err := e |}; deferred := n |}.

(** The deferred closures run one after the other, also when the body
    or an earlier closure panicked. *)
Fixpoint run_deferred (n : nat) (l : locals) (p : bool) : IO outcome :=
  match n with
  | O => ret (if p then Panicked else Returned (err l))
  | S k =>
    bind (deferred_close l) (fun r =>
    match r with
    | Some l' => run_deferred k l' p
    | None => run_deferred k l true
    end)
  end.

Definition finish (fr : frame) : IO outcome :=
  run_deferred (deferred fr) (vars fr) (panicking fr).

Notation "'let*' x ':=' m 'in' k" := (bind m (fun x => k))
  (at level 10, x pattern, m at level 200, k at level 200, only parsing).

Definition itoa (z : Z) : string :=
  DecimalString.NilZero.string_of_int (Z.to_int z).

(** Modelled from the spec: [getPage], declared outside this file,
    issues the paginated GET, decodes the page of resources and renders
    it through the table renderer; the response is released on every
    path, and a failure to release it is appended to the error. *)
Definition getPage_body (requestURI : string) (page : Z) : IO frame :=
  let* (resp, err) := Get (requestURI +:+ "?page=" +:+ itoa page) in
  match err with
  | Some _ => ret (returning resp (errorOut err) 0)
  | None =>
    let* d := call (decode_page cl resp) (fun _ => Decode resp) in
    match d with
    | Crash => ret (crashing resp None 1)
    | Err e => ret (returning resp (errorOut (Some e)) 1)
    | Val chains =>
      let* o := RenderAll ((fun r => {| resource := r |}) <$> chains) in
      match o with
      | Returned e => ret (returning resp (errorOut e) 1)
      | Panicked => ret (crashing resp None 1)
      end
    end
  end.

Definition getPage (requestURI : string) (page : Z) : IO outcome :=
  let* fr := getPage_body requestURI page in finish fr.

(** [IndexSolanaChains]. *)
Definition IndexSolanaChains (c : Context) : IO outcome :=
  getPage "/v2/chains/solana" (Int_page c).

(** The error of a failed [json.Marshal] or [json.Unmarshal]; its
    message is not modelled. *)
Definition json_error : error := New "json: error".

(** [json.Marshal] of the parameters of a creation, a map with the keys
    [chainID] (a string) and [config] (a [json.RawMessage]). *)
Definition Marshal_create (chainID buf : string) : option string :=
  match jsonraw.Marshal_RawMessage buf with
  | Some raw =>
    Some ("{" +:+ jsontext.quote "chainID" +:+ ":" +:+ jsontext.quote chainID
          +:+ "," +:+ jsontext.quote "config" +:+ ":" +:+ raw +:+ "}")
  | None => None
  end.

(** The body of [CreateSolanaChain], up to its [return] statement. *)
Definition CreateSolanaChain_body (c : Context) : IO frame :=
  if negb (Present (Args c)) then
    ret (returning None (errorOut (Some (New
      "must pass in the chain's parameters [-id string] [JSON blob | JSON filepath]"))) 0)
  else
  let chainID := String_id c in
  if String.eqb chainID "" then
    ret (returning None (errorOut (Some (New "missing chain ID [-id string]"))) 0)
  else
  let* buf := call (read_config cl (First (Args c)))
                   (fun _ => ReadConfig (First (Args c))) in
  match buf with
  | inr e => ret (returning None (errorOut (Some e)) 0)
  | inl buf =>
    match Marshal_create chainID buf with
    | None => ret (returning None (errorOut (Some json_error)) 0)
    | Some body =>
      let* (resp, err) := Post "/v2/chains/solana" body in
      match err with
      | Some _ => ret (returning resp (errorOut err) 0)
      | None =>
        (* defer: close the body of [resp] *)
        let* o := renderAPIResponse resp in
        match o with
        | Returned e => ret (returning resp e 1)
        | Panicked => ret (crashing resp None 1)
        end
      end
    end
  end.

(** [CreateSolanaChain]. *)
Definition CreateSolanaChain (c : Context) : IO outcome :=
  let* fr := CreateSolanaChain_body c in finish fr.

(** [RemoveSolanaChain]; it defers nothing. *)
Definition RemoveSolanaChain (c : Context) : IO outcome :=
  if negb (Present (Args c)) then
    ret (Returned (errorOut (Some (New
      "must pass the id of the chain to be removed"))))
  else
  let chainID := First (Args c) in
  let* (resp, err) := Delete ("/v2/chains/solana/" +:+ chainID) in
  match err with
  | Some _ => ret (Returned (errorOut err))
  | None =>
    let* d := call (decode_any cl resp) (fun _ => Decode resp) in
    match d with
    | Crash => ret Panicked
    | Err e => ret (Returned (errorOut (Some e)))
    | Val _ =>
      let* _ := printf ("Chain " +:+ First (Args c) +:+ " deleted"
                        +:+ String "010" EmptyString) in
      ret (Returned None)
    end
  end.

(** One turn of the loop over the arguments of [ConfigureSolanaChain]:
    the key and the value of [arg], [None] when [arg] does not split in
    two at its first [=].  The value is the decoded JSON when the text
    after the [=] is JSON, and that text as a string otherwise. *)
Definition parse_override (arg : string) : option (string * json.value F) :=
  match strings.SplitN2 arg "=" with
  | [key; raw] =>
    let value :=
      match json.Unmarshal raw with
      | Some v => v
      | None => json.Str raw
      end in
    Some (key, value)
  | _ => None
  end.

(** The loop: [inl arg] is the return on the first argument that does
    not split, [inr params] the map after the last assignment. *)
Fixpoint parse_overrides (args : list string)
  (params : gmap string (json.value F))
  : string + gmap string (json.value F) :=
  match args with
  | [] => inr params
  | arg :: rest =>
    match parse_override arg with
    | None => inl arg
    | Some (key, value) => parse_overrides rest (<[key := value]> params)
    end
  end.

(** "Combine new values with the existing config": the updates are
    serialized to a JSON object, which is deserialized onto the old
    configuration. *)
Definition merge_config (config params : gmap string (json.value F))
  : option (gmap string (json.value F)) :=
  match json.Marshal (json.Object params) with
  | None => None
  | Some rawUpdates => json.Unmarshal_map rawUpdates config
  end.

(** The body sent with the PATCH. *)
Definition patch_params (enabled : bool) (config : gmap string (json.value F))
  : gmap string (json.value F) :=
  <["enabled" := json.Bool enabled]> (<["config" := json.Object config]> ∅).

Definition usage : string :=
  "(usage: chainlink solana chains configure [-id string] [key1=value1 key2=value2 ...])".

(** The body of [ConfigureSolanaChain], up to its [return] statement. *)
Definition ConfigureSolanaChain_body (c : Context) : IO frame :=
  let chainID := String_id c in
  if String.eqb chainID "" then
    ret (returning None (errorOut (Some (New ("missing chain ID " +:+ usage)))) 0)
  else
  if negb (Present (Args c)) then
    ret (returning None (errorOut (Some (New
      ("must pass in at least one chain configuration parameters " +:+ usage)))) 0)
  else
  (* Fetch existing config *)
  let* (resp, err) := Get ("/v2/chains/solana/" +:+ chainID) in
  match err with
  | Some _ => ret (returning resp (errorOut err) 0)
  | None =>
    (* defer: close the body of [resp] *)
    let* d := deserializeAPIResponse resp in
    match d with
    | Crash => ret (crashing resp None 1)
    | Err e => ret (returning resp (errorOut (Some e)) 1)
    | Val chain =>
      let config := Config chain in
      (* Parse new key-value pairs *)
      match parse_overrides (Args c) ∅ with
      | inl arg =>
        ret (returning resp
               (errorOut (Some (Errorf "invalid parameter: " arg))) 1)
      | inr params =>
        (* Combine new values with the existing config *)
        match json.Marshal (json.Object params) with
        | None => ret (returning resp (errorOut (Some json_error)) 1)
        | Some rawUpdates =>
          match json.Unmarshal_map rawUpdates config with
          | None => ret (returning resp (errorOut (Some json_error)) 1)
          | Some config =>
            (* Send the new config *)
            let params := patch_params (Enabled chain) config in
            match json.Marshal (json.Object params) with
            | None => ret (returning resp (errorOut (Some json_error)) 1)
            | Some body =>
              let* (resp, err) :=
                Patch ("/v2/chains/solana/" +:+ chainID) body in
              match err with
              | Some _ => ret (returning resp (errorOut err) 1)
              | None =>
                (* defer: close the body of [resp] *)
                let* o := renderAPIResponse resp in
                match o with
                | Returned e => ret (returning resp e 2)
                | Panicked => ret (crashing resp None 2)
                end
              end
            end
          end
        end
      end
    end
  end.

(** [ConfigureSolanaChain]. *)
Definition ConfigureSolanaChain (c : Context) : IO outcome :=
  let* fr := ConfigureSolanaChain_body c in finish fr.

End with_client.
End with_library.

Arguments HTTP_Get {F T W} _ _ _.
Arguments HTTP_Post {F T W} _ _ _ _.
Arguments HTTP_Patch {F T W} _ _ _ _.
Arguments HTTP_Delete {F T W} _ _ _.
Arguments Body_Close {F T W} _ _ _.
Arguments decode_resource {F T W} _ _ _.
Arguments decode_page {F T W} _ _ _.
Arguments decode_any {F T W} _ _ _.
Arguments read_config {F T W} _ _ _.

End cmd.

(** ** A backend to run the commands against

    Timestamps are held as the text they print as.  The backend keeps
    one chain; a PATCH replaces its configuration and its enabled flag
    by those of the request body.  Chosen requests and closings can be
    made to fail. *)

#[global] Instance text_time : TimeOps :=
  {| Time := string; Time_String := fun t => t |}.

Module backend.
Import errors cmd.

Record server : Type := {
  chain : SolanaChainResource;
  page : list SolanaChainResource;
  get_fails : bool;
  patch_fails : bool;
  post_fails : bool;
  decode_fails : bool;
  close_fails : nat -> bool;
  handles : nat;
}.

Definition transport_error : error := New "connection refused".
Definition decode_error : error := New "unexpected response shape".
Definition close_error (n : nat) : error :=
  New ("close of body " +:+ cmd.itoa (Z.of_nat n) +:+ " failed").

(** A request that succeeds hands out a fresh response. *)
Definition respond (fails : bool) (s : server)
  : (option Response * option error) * server :=
  if fails then ((None, Some transport_error), s)
  else
    ((Some {| Body := handles s |}, None),
     {| chain := chain s; page := page s; get_fails := get_fails s;
        patch_fails := patch_fails s; post_fails := post_fails s;
        decode_fails := decode_fails s; close_fails := close_fails s;
        handles := S (handles s) |}).

Definition apply_patch (body : string) (s : server) : server :=
  match @json.Unmarshal go_float64 body with
  | Some (json.Object m) =>
    match m !! "config", m !! "enabled" with
    | Some (json.Object cfg), Some (json.Bool en) =>
      {| chain := {| ID := ID (chain s); Enabled := en; Config := cfg;
                     CreatedAt := CreatedAt (chain s);
                     UpdatedAt := UpdatedAt (chain s) |};
         page := page s; get_fails := get_fails s;
         patch_fails := patch_fails s; post_fails := post_fails s;
         decode_fails := decode_fails s; close_fails := close_fails s;
         handles := handles s |}
    | _, _ => s
    end
  | _ => s
  end.

Definition client : Client server :=
  {| HTTP_Get := fun _ s => respond (get_fails s) s;
     HTTP_Post := fun _ _ s => respond (post_fails s) s;
     HTTP_Patch := fun _ body s =>
       if patch_fails s then respond true s
       else respond false (apply_patch body s);
     HTTP_Delete := fun _ s => respond false s;
     Body_Close := fun r s =>
       (if close_fails s (Body r) then Some (close_error (Body r)) else None, s);
     decode_resource := fun r s =>
       (match r with
        | None => Crash
        | Some _ => if decode_fails s then Err decode_error else Val (chain s)
        end, s);
     decode_page := fun r s =>
       (match r with
        | None => Crash
        | Some _ => if decode_fails s then Err decode_error else Val (page s)
        end, s);
     decode_any := fun r s =>
       (match r with
        | None => Crash
        | Some _ => if decode_fails s then Err decode_error else Val tt
        end, s);
     read_config := fun arg s => (inl arg, s) |}.

Definition empty_sink : Writer :=
  {| rows_written := []; writes_left := None |}.

Definition start (s : server) : state (W := server) :=
  {| world := s; trace := []; sink := empty_sink |}.

(** JSON text written with single quotes in place of the double ones. *)
Fixpoint json_text (s : string) : string :=
  match s with
  | String c t => String (if Ascii.eqb c "'" then "034"%char else c) (json_text t)
  | EmptyString => EmptyString
  end.

(** The configuration of a chain from its JSON text. *)
Definition config_of (text : string) : gmap string (json.value go_float64) :=
  match json.Unmarshal text with
  | Some (json.Object m) => m
  | _ => ∅
  end.

Definition devnet : SolanaChainResource :=
  {| ID := "devnet"; Enabled := true;
     Config := config_of (json_text "{'url':'http://a','timeout':5}");
     CreatedAt := "2022-03-01 10:00:00 +0000 UTC";
     UpdatedAt := "2022-03-02 11:30:00 +0000 UTC" |}.

Definition testnet : SolanaChainResource :=
  {| ID := "testnet"; Enabled := false;
     Config := config_of "{}";
     CreatedAt := "2022-03-05 08:00:00 +0000 UTC";
     UpdatedAt := "2022-03-05 08:00:00 +0000 UTC" |}.

Definition healthy (r : SolanaChainResource) : server :=
  {| chain := r; page := [r]; get_fails := false; patch_fails := false;
     post_fails := false; decode_fails := false;
     close_fails := fun _ => false; handles := 1 |}.

(** A server that lists the two chains. *)
Definition two_chains : server :=
  {| chain := devnet; page := [devnet; testnet]; get_fails := false;
     patch_fails := false; post_fails := false; decode_fails := false;
     close_fails := fun _ => false; handles := 1 |}.

(** A server on which requests succeed, decoding fails and no body
    closes. *)
Definition failing : server :=
  {| chain := devnet; page := []; get_fails := false;
     patch_fails := false; post_fails := false; decode_fails := true;
     close_fails := fun _ => true; handles := 1 |}.

(** A server whose PATCH fails in transport. *)
Definition patch_refused : server :=
  {| chain := devnet; page := []; get_fails := false;
     patch_fails := true; post_fails := false; decode_fails := false;
     close_fails := fun _ => false; handles := 1 |}.

(** A resource whose configuration holds a number the encoder refuses. *)
Definition unencodable : SolanaChainResource :=
  {| ID := "broken"; Enabled := false;
     Config := {[ "rate" := json.Number (F:=go_float64) S754_nan ]};
     CreatedAt := "2022-03-07 09:00:00 +0000 UTC";
     UpdatedAt := "2022-03-07 09:00:00 +0000 UTC" |}.

(** A resource whose configuration nests an object and an array. *)
Definition localnet : SolanaChainResource :=
  {| ID := "localnet"; Enabled := false;
     Config := config_of (json_text
       "{'ws': null, 'rpc': {'urls': ['a', 'b'], 'retries': 3}}");
     CreatedAt := "2022-03-09 12:00:00 +0000 UTC";
     UpdatedAt := "2022-03-09 12:00:00 +0000 UTC" |}.

End backend.

(** * Properties

    The notions the theorems are stated with. *)

(** What the development assumes of [strconv]: a number that was parsed
    is written by the encoder as a JSON number literal that parses back
    to it. *)
Class Float64Laws (F : Float64) : Prop := {
  format_parsed : forall s f,
    ParseFloat s = Some f ->
    exists t, FormatFloat f = Some t
              /\ jsontext.number_literal t = true
              /\ ParseFloat t = Some f;
}.

Module props.
Section with_float.
Context `{F : Float64}.

Fixpoint size (v : json.value F) : nat :=
  match v with
  | json.Array vs => S (foldr (fun x acc => size x + acc)%nat O vs)
  | json.Object m => S (map_fold (fun _ x acc => size x + acc)%nat O m)
  | _ => 1%nat
  end.

(** [P] holds of every number of [v], [Q] of every string and key. *)
Fixpoint all_values (P : float64 -> Prop) (Q : string -> Prop)
  (v : json.value F) : Prop :=
  match v with
  | json.Number f => P f
  | json.Str s => Q s
  | json.Array vs => foldr (fun x acc => all_values P Q x /\ acc) True vs
  | json.Object m =>
    map_fold (fun k x acc => (Q k /\ all_values P Q x) /\ acc) True m
  | _ => True
  end.

(** No number of [v] is refused by the encoder. *)
Definition encodable (v : json.value F) : Prop :=
  all_values (fun f => is_Some (FormatFloat f)) (fun _ => True) v.

(** Every number of [v] came from the parser, every string and key of
    [v] is well-formed UTF-8. *)
Definition clean (v : json.value F) : Prop :=
  all_values (fun f => exists s, ParseFloat s = Some f)
             (fun s => utf8.ValidString s = true) v.

(** What the parser builds: numbers that [ParseFloat] returned, strings
    that [unquote_chars] returned, nesting within the limit when [d]
    arrays and objects are open around the value. *)
Definition parsed_number (f : float64) : Prop :=
  exists s, ParseFloat s = Some f.

Definition unquoted (x : string) : Prop :=
  exists s r, jsontext.unquote_chars 0 s = Some (x, r).

Definition built (d : nat) (v : json.value F) : Prop :=
  all_values parsed_number unquoted v
  /\ (json.nesting v + d <= json.maxNestingDepth)%nat.

(** The encoder's text for [v], [""] when it refuses [v]. *)
Definition text_of (v : json.value F) : string :=
  default EmptyString (json.Marshal v).

Definition member_text (g : json.value F -> string)
  (kv : string * json.value F) : string * string :=
  (kv.1, g kv.2).

Definition indent_of (pfx ind : string) (d : nat) (v : json.value F)
  : string :=
  default EmptyString (json.encode_indent pfx ind d v).

(** The updates as the merge sees them: encoded to JSON and decoded
    again. *)
Definition decoded_updates (params : gmap string (json.value F))
  : option (gmap string (json.value F)) :=
  match json.Marshal (json.Object params) with
  | Some rawUpdates =>
    match json.Unmarshal rawUpdates with
    | Some (json.Object o) => Some o
    | _ => None
    end
  | None => None
  end.
(** A configuration document that was decoded from JSON text. *)
Definition decoded (cfg : gmap string (json.value F)) : Prop :=
  exists data, json.Unmarshal data = Some (json.Object cfg).

(** The first argument without a [=]. *)
Fixpoint first_unsplit (args : list string) : option string :=
  match args with
  | [] => None
  | a :: rest =>
    match strings.Cut a "=" with
    | None => Some a
    | Some _ => first_unsplit rest
    end
  end.

(** [sub] occurs in [s]. *)
Definition contains (s sub : string) : Prop :=
  exists pre post, s = pre +:+ sub +:+ post.

(** The value [ConfigureSolanaChain] stores for the text after the [=]. *)
Definition stored (raw : string) : json.value F :=
  match json.Unmarshal raw with
  | Some v => v
  | None => json.Str raw
  end.

End with_float.

(** The events a run added to the trace of [st]. *)
Definition new_events {W} (st st' : cmd.state (W:=W)) : list cmd.event :=
  drop (length (cmd.trace st)) (cmd.trace st').

(** The requests among some events. *)
Definition requests (evs : list cmd.event) : list cmd.event :=
  filter (fun ev => cmd.is_request ev = true) evs.

Definition is_close (ev : cmd.event) : bool :=
  match ev with
  | cmd.BodyClose _ _ => true
  | _ => false
  end.

(** The closings among some events. *)
Definition closings (evs : list cmd.event) : list cmd.event :=
  filter (fun ev => is_close ev = true) evs.

(** The state after the configuration argument was read and the POST
    was sent. *)
Definition after_post {W} (st : cmd.state (W:=W)) (arg body : string) (w2 : W)
  : cmd.state (W:=W) :=
  {| cmd.world := w2;
     cmd.trace := (cmd.trace st ++ [cmd.ReadConfig arg])
                  ++ [cmd.Request "POST" "/v2/chains/solana" (Some body)];
     cmd.sink := cmd.sink st |}.

(** The state after the GET of the chain and the decoding of its
    response. *)
Definition after_get {W} (st : cmd.state (W:=W)) (path : string)
  (r : option cmd.Response) (w : W) : cmd.state (W:=W) :=
  {| cmd.world := w;
     cmd.trace := (cmd.trace st ++ [cmd.Request "GET" path None])
                  ++ [cmd.Decode r];
     cmd.sink := cmd.sink st |}.

(** The state after the PATCH that follows. *)
Definition after_patch {W} (st : cmd.state (W:=W)) (path : string)
  (r : option cmd.Response) (body : string) (w : W) : cmd.state (W:=W) :=
  {| cmd.world := w;
     cmd.trace := cmd.trace (after_get st path r w)
                  ++ [cmd.Request "PATCH" path (Some body)];
     cmd.sink := cmd.sink st |}.
(** The path of the chain a command configures. *)
Definition get_path (c : cmd.Context) : string :=
  "/v2/chains/solana/" +:+ cmd.String_id c.

(** [s] without its first [n] bytes. *)
Fixpoint sdrop (n : nat) (s : string) : string :=
  match n, s with
  | O, _ => s
  | S k, String _ t => sdrop k t
  | S _, EmptyString => EmptyString
  end.

(** The three shapes of a well-formed sequence of more than one byte,
    on byte values. *)
Definition wf2 (b0 b1 : N) : Prop :=
  0xC2 <= b0 <= 0xDF /\ 0x80 <= b1 <= 0xBF.

Definition wf3 (b0 b1 b2 : N) : Prop :=
  0xE0 <= b0 <= 0xEF /\ 0x80 <= b1 <= 0xBF /\ 0x80 <= b2 <= 0xBF
  /\ (b0 = 0xE0 -> 0xA0 <= b1) /\ (b0 = 0xED -> b1 <= 0x9F).

Definition wf4 (b0 b1 b2 b3 : N) : Prop :=
  0xF0 <= b0 <= 0xF4 /\ 0x80 <= b1 <= 0xBF /\ 0x80 <= b2 <= 0xBF
  /\ 0x80 <= b3 <= 0xBF
  /\ (b0 = 0xF0 -> 0x90 <= b1) /\ (b0 = 0xF4 -> b1 <= 0x8F).

(** [rest] does not go on with a digit. *)
Definition ends_digits (rest : string) : Prop :=
  match rest with
  | String c _ => jsontext.is_digit c = false
  | EmptyString => True
  end.

(** [rest] cannot continue a number literal. *)
Definition ends_number (rest : string) : Prop :=
  match rest with
  | String c _ =>
    jsontext.is_digit c = false /\ c <> "."%char /\ c <> "e"%char /\ c <> "E"%char
  | EmptyString => True
  end.

(** White space only. *)
Fixpoint blank (s : string) : bool :=
  match s with
  | String c t => jsontext.is_space c && blank t
  | EmptyString => true
  end.

(** The text starts a value: a first byte that is no white space and
    closes nothing. *)
Definition opens_value (s : string) : Prop :=
  exists c t, s = String c t /\ jsontext.is_space c = false
              /\ c <> "]"%char /\ c <> "}"%char.

(** The fuel the reading of the texts [ts] takes, one after the other. *)
Definition weight (ts : list string) : nat :=
  sum_list_with (fun t => 2 * String.length t + 1)%nat ts.

(** A member as the encoder writes it, [cws] being the white space
    after the colon. *)
Definition member (cws : string) (it : string * string) : string :=
  jsontext.quote it.1 +:+ String ":" cws +:+ it.2.

Section reading.
Context `{F : Float64}.

(** [v] is read back from its text [t], whatever follows. *)
Definition reads_back (d : nat) (v : json.value F) (t : string) : Prop :=
  opens_value t
  /\ forall fuel rest,
       (2 * String.length t <= fuel)%nat -> ends_number rest ->
       json.parse_value fuel d (t +:+ rest) = Some (v, rest).

(** A key and its text stand for the member [kv]. *)
Definition member_reads_back (d : nat) (kv : string * json.value F)
  (it : string * string) : Prop :=
  it.1 = kv.1 /\ utf8.ValidString kv.1 = true /\ reads_back d kv.2 it.2.

(** The line break of the layout, followed by [n] levels of four
    spaces. *)
Definition line (n : nat) : string :=
  String "010" (json.repeat_string n "    ").

(** The text of [v] when it is pretty-printed [d] levels deep, with no
    prefix and four spaces of indentation. *)
Definition pretty (d : nat) (v : json.value F) : string :=
  indent_of "" "    " d v.

(** The layout of an object [d] levels deep: [{}] when it has no
    member; otherwise an opening brace, the members in the order of
    their keys, each on a line of its own that starts with [d + 1]
    times four spaces and holds the quoted key, a colon, a space and
    the value laid out one level deeper, a comma after every member but
    the last, and the closing brace on a line of its own, [d] levels
    in. *)
Definition object_layout (d : nat) (m : gmap string (json.value F))
  (text : string) : Prop :=
  exists kvs,
    kvs ≡ₚ map_to_list m
    /\ Sorted (fun a b => String.le a.1 b.1) kvs
    /\ text
       = match kvs with
         | [] => "{}"
         | _ =>
           "{" +:+ line (S d)
           +:+ json.join ("," +:+ line (S d))
                 ((fun kv => jsontext.quote kv.1 +:+ ": "
                             +:+ pretty (S d) kv.2) <$> kvs)
           +:+ line d +:+ "}"
         end.

(** The layout of an array [d] levels deep: [[]] when it is empty;
    otherwise every element on a line of its own, one level deeper. *)
Definition array_layout (d : nat) (vs : list (json.value F))
  (text : string) : Prop :=
  text
  = match vs with
    | [] => "[]"
    | _ =>
      "[" +:+ line (S d)
      +:+ json.join ("," +:+ line (S d)) (pretty (S d) <$> vs)
      +:+ line d +:+ "]"
    end.

(** The layout at every depth: objects and arrays as above, and every
    other value as the encoder writes it on one line. *)
Definition pretty_layout : Prop :=
  (forall d m, encodable (json.Object m) ->
               object_layout d m (pretty d (json.Object m)))
  /\ (forall d vs, encodable (json.Array vs) ->
                   array_layout d vs (pretty d (json.Array vs)))
  /\ (forall d, pretty d json.Null = "null")
  /\ (forall d b, pretty d (json.Bool b) = strconv.FormatBool b)
  /\ (forall d s, pretty d (json.Str s) = jsontext.quote s)
  /\ (forall d f t, FormatFloat f = Some t -> pretty d (json.Number f) = t).

End reading.

End props.

(** * Proofs *)

(** ** Values *)

Section value_facts.
Context `{F : Float64}.
Import props.

Lemma size_pos (v : json.value F) : (0 < size v)%nat.
Proof. destruct v; simpl; lia. Qed.

Lemma size_elem (vs : list (json.value F)) x :
  x ∈ vs -> (size x <= foldr (fun x acc => size x + acc) O vs)%nat.
Proof.
  induction 1 as [|? ? ? _ IH]; simpl; [lia|]. lia.
Qed.

Lemma size_member (m : gmap string (json.value F)) k x :
  m !! k = Some x ->
  (size x <= map_fold (fun _ x acc => size x + acc) O m)%nat.
Proof.
  intros Hk. rewrite map_fold_foldr.
  apply elem_of_map_to_list in Hk.
  induction (map_to_list m) as [|[k' x'] l IH]; simpl.
  - by apply elem_of_nil in Hk.
  - apply elem_of_cons in Hk as [Hk|Hk]; [simplify_eq; lia|].
    specialize (IH Hk). lia.
Qed.

(** Induction on values, through arrays and objects. *)
Lemma value_ind' (P : json.value F -> Prop) :
  P json.Null ->
  (forall b, P (json.Bool b)) ->
  (forall f, P (json.Number f)) ->
  (forall s, P (json.Str s)) ->
  (forall vs, Forall P vs -> P (json.Array vs)) ->
  (forall m, map_Forall (fun _ x => P x) m -> P (json.Object m)) ->
  forall v, P v.
Proof.
  intros HN HB HF HS HA HO v.
  remember (size v) as n eqn:Hn. revert v Hn.
  induction n as [n IH] using lt_wf_ind. intros v ->.
  destruct v as [| | | |vs|m]; auto.
  - apply HA, Forall_forall. intros x Hx.
    apply (IH (size x)); [|done]. simpl.
    pose proof (size_elem _ _ Hx). lia.
  - apply HO. intros k x Hk.
    apply (IH (size x)); [|done]. simpl.
    pose proof (size_member _ _ _ Hk). lia.
Qed.

Lemma all_values_Array P Q (vs : list (json.value F)) :
  all_values P Q (json.Array vs) <-> Forall (all_values P Q) vs.
Proof.
  simpl. induction vs as [|x vs IH]; simpl.
  - split; auto.
  - rewrite Forall_cons. tauto.
Qed.

Lemma all_values_Object P Q (m : gmap string (json.value F)) :
  all_values P Q (json.Object m)
  <-> map_Forall (fun k x => Q k /\ all_values P Q x) m.
Proof.
  simpl. rewrite map_fold_foldr, map_Forall_to_list.
  induction (map_to_list m) as [|[k x] l IH]; simpl.
  - split; auto.
  - rewrite Forall_cons. simpl. tauto.
Qed.

Lemma nesting_Array (vs : list (json.value F)) n :
  (json.nesting (json.Array vs) <= S n)%nat
  <-> Forall (fun x => (json.nesting x <= n)%nat) vs.
Proof.
  simpl. induction vs as [|x vs IH]; simpl.
  - split; [constructor|lia].
  - rewrite Forall_cons.
    split.
    + intros H. split; [lia|]. apply IH. lia.
    + intros [H1 H2]. apply IH in H2. lia.
Qed.

Lemma nesting_Object (m : gmap string (json.value F)) n :
  (json.nesting (json.Object m) <= S n)%nat
  <-> map_Forall (fun _ x => (json.nesting x <= n)%nat) m.
Proof.
  simpl. rewrite map_fold_foldr, map_Forall_to_list.
  induction (map_to_list m) as [|[k x] l IH]; simpl.
  - split; [constructor|lia].
  - rewrite Forall_cons. simpl.
    split.
    + intros H. split; [lia|]. apply IH. lia.
    + intros [H1 H2]. apply IH in H2. lia.
Qed.

Lemma assign_all_Forall (P : string -> json.value F -> Prop) kvs m :
  map_Forall P m -> Forall (uncurry P) kvs ->
  map_Forall P (json.assign_all m kvs).
Proof.
  revert m. induction kvs as [|[k v] kvs IH]; intros m Hm Hk; simpl; [done|].
  apply Forall_cons in Hk as [Hkv Hk].
  apply IH; [|done]. by apply map_Forall_insert_2.
Qed.

End value_facts.

(** ** What the parser builds *)

Section parse_facts.
Context `{F : Float64}.
Import props.

Lemma all_values_impl (P P' : float64 -> Prop) (Q Q' : string -> Prop) :
  (forall f, P f -> P' f) -> (forall s, Q s -> Q' s) ->
  forall v : json.value F, all_values P Q v -> all_values P' Q' v.
Proof.
  intros HP HQ v. induction v as [| | | |vs IH|m IH] using value_ind'; simpl; auto.
  - change (all_values P Q (json.Array vs) -> all_values P' Q' (json.Array vs)).
    rewrite !all_values_Array. intros H.
    rewrite Forall_forall in *. intros x Hx. apply IH; auto.
  - change (all_values P Q (json.Object m) -> all_values P' Q' (json.Object m)).
    rewrite !all_values_Object. intros H k x Hk.
    specialize (H k x Hk) as [H1 H2]. split; [auto|]. by apply (IH k x Hk).
Qed.

Lemma literal_inv lit (v v' : json.value F) s r :
  json.literal lit v s = Some (v', r) -> v' = v.
Proof. unfold json.literal. case_match; naive_solver. Qed.

Lemma maxNestingDepth_ge : (2 <= json.maxNestingDepth)%nat.
Proof. apply Nat.leb_le. vm_compute. reflexivity. Qed.

Opaque json.maxNestingDepth.

Lemma built_Object d (m : gmap string (json.value F)) :
  (d < json.maxNestingDepth)%nat ->
  map_Forall (fun k x => unquoted k /\ built (S d) x) m ->
  built d (json.Object m).
Proof.
  intros Hd Hm. split.
  - apply all_values_Object. intros k x Hk. destruct (Hm k x Hk) as [? [? _]]. done.
  - assert (json.nesting (json.Object m) <= S (json.maxNestingDepth - S d))%nat; [|lia].
    apply nesting_Object. intros k x Hk. destruct (Hm k x Hk) as [_ [_ ?]]. lia.
Qed.

Lemma built_Array d (vs : list (json.value F)) :
  (d < json.maxNestingDepth)%nat ->
  Forall (built (S d)) vs -> built d (json.Array vs).
Proof.
  intros Hd Hvs. split.
  - apply all_values_Array. eapply Forall_impl; [done|]. by intros ? [? _].
  - assert (json.nesting (json.Array vs) <= S (json.maxNestingDepth - S d))%nat; [|lia].
    apply nesting_Array. eapply Forall_impl; [done|]. intros ? [_ ?]. simpl in *. lia.
Qed.

Lemma parse_built fuel :
  (forall d s v r, json.parse_value fuel d s = Some (v, r) ->
     (d <= json.maxNestingDepth)%nat -> built d v)
  /\ (forall d s vs r, json.parse_elements fuel d s = Some (vs, r) ->
     (d <= json.maxNestingDepth)%nat -> Forall (built d) vs)
  /\ (forall d s kvs r, json.parse_members fuel d s = Some (kvs, r) ->
     (d <= json.maxNestingDepth)%nat ->
     Forall (fun kv => unquoted kv.1 /\ built d kv.2) kvs).
Proof.
  induction fuel as [|n (IHv & IHe & IHm)]; [by repeat split|].
  split; [|split].
  - intros d s v r H Hd. simpl in H.
    destruct s as [|c t]; [done|].
    repeat case_match; simplify_eq;
      try (match goal with
           | H : json.literal _ _ _ = Some _ |- _ => apply literal_inv in H; subst
           end);
      try (split; [simpl; eauto|simpl; lia]).
    + apply built_Object; [by apply Nat.ltb_lt|]. apply map_Forall_empty.
    + match goal with H : (_ <? _)%nat = true |- _ => apply Nat.ltb_lt in H end.
      apply built_Object; [done|].
      apply assign_all_Forall; [apply map_Forall_empty|].
      eapply Forall_impl; [eapply IHm; [done|lia]|]. by intros [??].
    + apply built_Array; [by apply Nat.ltb_lt|]. constructor.
    + match goal with H : (_ <? _)%nat = true |- _ => apply Nat.ltb_lt in H end.
      apply built_Array; [done|]. eapply IHe; [done|lia].
    + unfold unquoted; eauto.
    + unfold parsed_number; eauto.
  - intros d s vs r H Hd. simpl in H.
    repeat case_match; simplify_eq.
    + constructor; eauto.
    + constructor; eauto.
  - intros d s kvs r H Hd. simpl in H.
    repeat case_match; simplify_eq.
    + constructor; [split; [unfold unquoted; simpl; eauto|simpl; eauto]|eauto].
    + constructor; [split; [unfold unquoted; simpl; eauto|simpl; eauto]|eauto].
Qed.
End parse_facts.

(** ** What the encoder accepts *)

Section encode_facts.
Context `{F : Float64}.
Import props.

Lemma foldr_collect {A B} (f : A -> option B) (g : A -> B) (l : list A) :
  Forall (fun x => f x = Some (g x)) l ->
  foldr (fun x acc => json.collect (f x) acc) (Some []) l = Some (g <$> l).
Proof.
  induction 1 as [|x l Hx _ IH]; simpl; [done|]. by rewrite Hx, IH.
Qed.

(** The encoder's text for [v], when there is one. *)
Lemma Marshal_Array (vs : list (json.value F)) (g : json.value F -> string) :
  Forall (fun x => json.Marshal x = Some (g x)) vs ->
  json.Marshal (json.Array vs)
  = Some ("[" +:+ json.join "," (g <$> vs) +:+ "]").
Proof. intros H. simpl. by rewrite (foldr_collect _ g). Qed.

Lemma map_fold_collect (f : json.value F -> option string) g
  (m : gmap string (json.value F)) :
  map_Forall (fun _ x => f x = Some (g x)) m ->
  map_fold (fun k x acc => json.collect (pair k <$> f x) acc) (Some []) m
  = Some (member_text g <$> map_to_list m).
Proof.
  intros H. rewrite map_fold_foldr.
  apply map_Forall_to_list in H.
  induction H as [|[k x] l Hx _ IH]; simpl; [done|].
  simpl in Hx. by rewrite Hx, IH.
Qed.

Lemma Marshal_Object (m : gmap string (json.value F)) g :
  map_Forall (fun _ x => json.Marshal x = Some (g x)) m ->
  json.Marshal (json.Object m)
  = Some ("{" +:+ json.join ","
            ((fun kv => jsontext.quote kv.1 +:+ ":" +:+ kv.2)
               <$> json.sort_members (member_text g <$> map_to_list m))
          +:+ "}").
Proof. intros H. simpl. by rewrite (map_fold_collect _ g). Qed.

Lemma Marshal_encodable (v : json.value F) :
  encodable v -> json.Marshal v = Some (text_of v).
Proof.
  unfold encodable, text_of.
  induction v as [| | | |vs IH|m IH] using value_ind'; try done.
  - simpl. by intros [t ->].
  - rewrite all_values_Array. intros H.
    rewrite (Marshal_Array vs text_of); [done|].
    rewrite Forall_forall in *. eauto.
  - rewrite all_values_Object. intros H.
    rewrite (Marshal_Object m text_of); [done|].
    intros k x Hk. apply (IH k x Hk). by destruct (H k x Hk).
Qed.

Lemma encode_indent_encodable pfx ind (v : json.value F) :
  encodable v -> forall d, is_Some (json.encode_indent pfx ind d v).
Proof.
  unfold encodable.
  induction v as [| | | |vs IH|m IH] using value_ind'; try (simpl; eauto; fail).
  - rewrite all_values_Array. intros H d.
    destruct vs as [|v vs]; [simpl; eauto|].
    cbn [json.encode_indent].
    rewrite (foldr_collect _ (indent_of pfx ind (S d))); [eauto|].
    rewrite Forall_forall in *. intros x Hx.
    destruct (IH x Hx (H x Hx) (S d)) as [t Ht]. unfold indent_of. by rewrite Ht.
  - rewrite all_values_Object. intros H d.
    cbn [json.encode_indent].
    rewrite (map_fold_collect _ (indent_of pfx ind (S d))).
    + case_match; eauto.
    + intros k x Hk. destruct (H k x Hk) as [_ Hx].
      destruct (IH k x Hk Hx (S d)) as [t Ht]. unfold indent_of. by rewrite Ht.
Qed.

Lemma MarshalIndent_encodable pfx ind (v : json.value F) :
  encodable v -> (json.nesting v <= json.maxNestingDepth)%nat ->
  is_Some (json.MarshalIndent v pfx ind).
Proof.
  intros He Hn. unfold json.MarshalIndent.
  rewrite (Marshal_encodable v He).
  apply Nat.leb_le in Hn. rewrite Hn. by apply encode_indent_encodable.
Qed.

End encode_facts.

(** ** The binary64 instance meets the assumption on [strconv] *)

Lemma go_float64_laws : Float64Laws go_float64.
Proof.
  split. intros s f H. simpl in *. unfold binary64.ParseFloat in *.
  destruct (binary64.parse s) as [f'|] eqn:Hs; [|done].
  destruct (binary64.round_trips f') eqn:Hr; [|done].
  simplify_eq. pose proof Hr as Hr'. unfold binary64.round_trips in Hr'.
  destruct (binary64.format f) as [t|] eqn:Hf; [|done].
  apply andb_true_iff in Hr' as [Hlit Hback].
  apply bool_decide_eq_true in Hback.
  exists t. by rewrite Hback, Hr.
Qed.

(** ** Rendering *)

Section rendering.
Context `{F : Float64} `{!Float64Laws F} `{T : TimeOps}.
Import props cmd.

Lemma built_encodable d (v : json.value F) : built d v -> encodable v.
Proof.
  intros [Hv _]. revert Hv. apply all_values_impl; [|done].
  intros f [s Hs]. destruct (format_parsed s f Hs) as (t & -> & _). eauto.
Qed.

Lemma Unmarshal_built data (v : json.value F) :
  json.Unmarshal data = Some v -> built 0 v.
Proof.
  unfold json.Unmarshal, json.parse_text. intros H.
  destruct (json.parse_value _ _ _) as [[v' r]|] eqn:Hp; [|done].
  destruct (jsontext.skip_space r); [|done]. simplify_eq.
  eapply (proj1 (parse_built _)); [done|lia].
Qed.

Lemma decoded_MarshalIndent (cfg : gmap string (json.value F)) pfx ind :
  decoded cfg -> is_Some (json.MarshalIndent (json.Object cfg) pfx ind).
Proof.
  intros [data Hd]. apply Unmarshal_built in Hd.
  apply MarshalIndent_encodable; [by eapply built_encodable|].
  destruct Hd as [_ Hn]. lia.
Qed.

(** C9: for a resource whose configuration document was decoded from
    JSON, the encoding in [ToRow] succeeds, so [ToRow] and both
    [RenderTable]s do not reach the panic. *)
Theorem C9_rendering_never_panics (p : SolanaChainPresenter)
  (ps : SolanaChainPresenters) (rt : RendererTable) :
  decoded (Config p) ->
  Forall (fun q : SolanaChainPresenter => decoded (Config q)) ps ->
  is_Some (json.MarshalIndent (json.Object (Config p)) "" "    ")
  /\ is_Some (ToRow p)
  /\ fst (RenderTable p rt) <> Panicked
  /\ fst (RenderTables ps rt) <> Panicked.
Proof.
  intros Hd Hps.
  assert (Hrow : forall q : SolanaChainPresenter,
             decoded (Config q) -> is_Some (ToRow q)).
  { intros q Hq.
    destruct (decoded_MarshalIndent (Config q) "" "    " Hq) as [c Hc].
    unfold ToRow. rewrite Hc. eauto. }
  split; [by apply decoded_MarshalIndent|].
  split; [by apply Hrow|]. split.
  - unfold RenderTable. destruct (Hrow p Hd) as [row ->]. done.
  - unfold RenderTables.
    assert (Hc : forall rows, is_Some (collect_rows rows ps)).
    { induction Hps as [|q qs Hq _ IH]; intros rows; simpl; [eauto|].
      destruct (Hrow q Hq) as [row ->]. apply IH. }
    destruct (Hc []) as [rows ->]. done.
Qed.

End rendering.

Section tables.
Context `{F : Float64} `{T : TimeOps}.
Import props cmd.

Lemma renderList_unlimited fields items (w : Writer) :
  writes_left w = None ->
  renderList fields items w
  = {| rows_written := rows_written w ++ fields :: items; writes_left := None |}.
Proof.
  unfold renderList. generalize (fields :: items). clear fields items.
  intros l. revert w. induction l as [|row l IH]; intros w Hw; simpl.
  - rewrite app_nil_r. destruct w; simpl in *. by subst.
  - unfold Write at 2. rewrite Hw. simpl. rewrite IH; [|done]. simpl.
    by rewrite <- app_assoc.
Qed.

Lemma renderList_exhausted fields items (w : Writer) :
  writes_left w = Some O -> renderList fields items w = w.
Proof.
  unfold renderList. generalize (fields :: items). clear fields items.
  intros l. induction l as [|row l IH]; intros Hw; simpl; [done|].
  unfold Write at 2. rewrite Hw. simpl. by apply IH.
Qed.

Lemma collect_rows_app (ps : SolanaChainPresenters) acc rows :
  Forall2 (fun p row => ToRow p = Some row) ps rows ->
  collect_rows acc ps = Some (acc ++ rows).
Proof.
  intros H. revert acc. induction H as [|p row ps rows Hp _ IH]; intros acc; simpl.
  - by rewrite app_nil_r.
  - rewrite Hp, IH. by rewrite <- app_assoc.
Qed.

Lemma collect_rows_total (ps : SolanaChainPresenters) acc :
  Forall (fun p => is_Some (ToRow p)) ps -> is_Some (collect_rows acc ps).
Proof.
  intros H. revert acc. induction H as [|p ps [row Hp] _ IH]; intros acc; simpl; [eauto|].
  rewrite Hp. apply IH.
Qed.

Lemma RenderTables_rows (ps : SolanaChainPresenters) rows (w : Writer) :
  Forall2 (fun p row => ToRow p = Some row) ps rows ->
  writes_left w = None ->
  RenderTables ps {| rt_Writer := w |}
  = (Returned None,
     {| rows_written := rows_written w ++ headers :: rows;
        writes_left := None |})
  /\ length rows = length ps.
Proof.
  intros H Hw. split; [|symmetry; by eapply Forall2_length].
  unfold RenderTables. rewrite (collect_rows_app ps [] rows H). simpl.
  by rewrite renderList_unlimited.
Qed.

Lemma RenderTable_result (p : SolanaChainPresenter) (rt : RendererTable) :
  fst (RenderTable p rt)
  = match ToRow p with Some _ => Returned None | None => Panicked end.
Proof. unfold RenderTable. by destruct (ToRow p). Qed.

Lemma RenderTables_result (ps : SolanaChainPresenters) (rt : RendererTable) :
  fst (RenderTables ps rt)
  = match collect_rows [] ps with Some _ => Returned None | None => Panicked end.
Proof. unfold RenderTables. by destruct (collect_rows [] ps). Qed.

End tables.

(** C6: [RenderTable] on a collection of [n] resources hands the
    renderer the header row [ID, Enabled, Config, Created, Updated] once,
    followed by the [n] rows of the members in the order of the
    collection; a page of two resources from the backend is rendered as
    the header row and two data rows. *)
Theorem C6_collection_table :
  (forall (F : Float64) (T : TimeOps) (ps : cmd.SolanaChainPresenters)
          (rows : list (list string)) (w : cmd.Writer),
      Forall2 (fun p row => cmd.ToRow p = Some row) ps rows ->
      cmd.writes_left w = None ->
      cmd.RenderTables ps {| cmd.rt_Writer := w |}
      = (cmd.Returned None,
         {| cmd.rows_written :=
              cmd.rows_written w
              ++ ["ID"; "Enabled"; "Config"; "Created"; "Updated"] :: rows;
            cmd.writes_left := None |})
      /\ length rows = length ps)
  /\ (let run :=
        cmd.IndexSolanaChains backend.client
          {| cmd.String_id := ""; cmd.Int_page := 2; cmd.Args := [] |}
          (backend.start backend.two_chains) in
      fst run = cmd.Returned None
      /\ exists row1 row2,
          cmd.ToRow {| cmd.resource := backend.devnet |} = Some row1
          /\ cmd.ToRow {| cmd.resource := backend.testnet |} = Some row2
          /\ cmd.rows_written (cmd.sink (snd run))
             = [["ID"; "Enabled"; "Config"; "Created"; "Updated"]; row1; row2]).
Proof.
  split.
  - intros F T ps rows w H Hw. by apply RenderTables_rows.
  - vm_compute. split; [reflexivity|]. do 2 eexists. repeat split; reflexivity.
Qed.

Lemma C6_witness :
  cmd.RenderTables
    [{| cmd.resource := backend.devnet |}; {| cmd.resource := backend.testnet |}]
    {| cmd.rt_Writer := backend.empty_sink |}
  = (cmd.Returned None,
     {| cmd.rows_written :=
          cmd.rows_written backend.empty_sink
          ++ ["ID"; "Enabled"; "Config"; "Created"; "Updated"]
             :: [default [] (cmd.ToRow {| cmd.resource := backend.devnet |});
                 default [] (cmd.ToRow {| cmd.resource := backend.testnet |})];
        cmd.writes_left := None |})
  /\ length [default [] (cmd.ToRow {| cmd.resource := backend.devnet |});
            default [] (cmd.ToRow {| cmd.resource := backend.testnet |})]
     = length [{| cmd.resource := backend.devnet |};
               {| cmd.resource := backend.testnet |}].
Proof.
  apply (proj1 C6_collection_table go_float64 text_time).
  - repeat constructor; vm_compute; reflexivity.
  - reflexivity.
Defined.

(** C10: whatever the sink does, neither [RenderTable] returns an
    error: when no [ToRow] panics the result is [nil], also on a sink
    whose every write fails. *)
Theorem C10_RenderTable_returns_nil (F : Float64) (T : TimeOps)
  (p : cmd.SolanaChainPresenter) (ps : cmd.SolanaChainPresenters)
  (rt : cmd.RendererTable) :
  (forall e, fst (cmd.RenderTable p rt) <> cmd.Returned (Some e))
  /\ (forall e, fst (cmd.RenderTables ps rt) <> cmd.Returned (Some e))
  /\ (is_Some (cmd.ToRow p) -> fst (cmd.RenderTable p rt) = cmd.Returned None)
  /\ (Forall (fun q => is_Some (cmd.ToRow q)) ps ->
      fst (cmd.RenderTables ps rt) = cmd.Returned None)
  /\ (cmd.writes_left (cmd.rt_Writer rt) = Some O ->
      (forall row, snd (cmd.Write (cmd.rt_Writer rt) row) <> None)
      /\ (is_Some (cmd.ToRow p) ->
          cmd.RenderTable p rt = (cmd.Returned None, cmd.rt_Writer rt))).
Proof.
  rewrite RenderTable_result, RenderTables_result.
  split; [by destruct (cmd.ToRow p)|].
  split; [by destruct (cmd.collect_rows [] ps)|].
  split; [by intros [row ->]|].
  split.
  - intros H. by destruct (collect_rows_total ps [] H) as [rows ->].
  - intros Hw. split.
    + intros row. unfold cmd.Write. by rewrite Hw.
    + intros [row Hrow]. unfold cmd.RenderTable. rewrite Hrow.
      by rewrite renderList_exhausted.
Qed.

Lemma C10_witness :
  let p := {| cmd.resource := backend.devnet |} in
  let rt := {| cmd.rt_Writer :=
                 {| cmd.rows_written := []; cmd.writes_left := Some O |} |} in
  fst (cmd.RenderTable p rt) = cmd.Returned None
  /\ fst (cmd.RenderTables [p; p] rt) = cmd.Returned None
  /\ cmd.RenderTable p rt = (cmd.Returned None, cmd.rt_Writer rt).
Proof.
  intros p rt.
  pose proof (C10_RenderTable_returns_nil go_float64 text_time p [p; p] rt)
    as (_ & _ & H1 & H2 & H3).
  assert (Hp : is_Some (cmd.ToRow p)) by (vm_compute; eauto).
  split; [exact (H1 Hp)|].
  split; [apply H2; repeat constructor; exact Hp|].
  exact (proj2 (H3 eq_refl) Hp).
Defined.

Lemma decoded_devnet :
  props.decoded (cmd.Config backend.devnet).
Proof.
  exists (backend.json_text "{'url':'http://a','timeout':5}").
  reflexivity.
Defined.

Lemma C9_witness :
  let p := {| cmd.resource := backend.devnet |} in
  let rt := {| cmd.rt_Writer := backend.empty_sink |} in
  is_Some (json.MarshalIndent (json.Object (cmd.Config (cmd.resource p)))
             "" "    ")
  /\ is_Some (cmd.ToRow p)
  /\ fst (cmd.RenderTable p rt) <> cmd.Panicked
  /\ fst (cmd.RenderTables [p] rt) <> cmd.Panicked.
Proof.
  intros p rt.
  apply (C9_rendering_never_panics (Float64Laws0 := go_float64_laws)).
  - exact decoded_devnet.
  - repeat constructor. exact decoded_devnet.
Defined.

(** ** Strings *)

Lemma sapp_cons x (a b : string) : String x a +:+ b = String x (a +:+ b).
Proof. reflexivity. Qed.

Lemma sapp_nil_l (a : string) : EmptyString +:+ a = a.
Proof. reflexivity. Qed.

Lemma sapp_assoc (a b c : string) : (a +:+ b) +:+ c = a +:+ (b +:+ c).
Proof.
  induction a as [|x a IH]; [done|]. by rewrite !sapp_cons, IH.
Qed.

Lemma sapp_nil_r (a : string) : a +:+ EmptyString = a.
Proof. induction a as [|x a IH]; [done|]. by rewrite sapp_cons, IH. Qed.

Lemma slength_app (a b : string) :
  String.length (a +:+ b) = (String.length a + String.length b)%nat.
Proof.
  induction a as [|x a IH]; [done|]. rewrite sapp_cons. simpl. by rewrite IH.
Qed.

Section contains_facts.
Import props.

Lemma contains_refl s : contains s s.
Proof. exists EmptyString, EmptyString. by rewrite sapp_nil_r. Qed.

Lemma contains_trans a b c : contains a b -> contains b c -> contains a c.
Proof.
  intros (p1 & q1 & ->) (p2 & q2 & ->).
  exists (p1 +:+ p2), (q2 +:+ q1). by rewrite !sapp_assoc.
Qed.

Lemma contains_app_l a b : contains (a +:+ b) a.
Proof. by exists EmptyString, b. Qed.

Lemma contains_app_r a b : contains (a +:+ b) b.
Proof. exists a, EmptyString. by rewrite sapp_nil_r. Qed.

Lemma concat_app sep (l1 l2 : list string) :
  exists mid, String.concat sep (l1 ++ l2)
              = String.concat sep l1 +:+ mid +:+ String.concat sep l2.
Proof.
  induction l1 as [|x l1 [mid IH]].
  - by exists EmptyString.
  - destruct l1 as [|y l1].
    + destruct l2 as [|z l2].
      * exists EmptyString. simpl. by rewrite sapp_nil_r.
      * by exists sep.
    + exists mid.
      change (String.concat sep ((x :: y :: l1) ++ l2))
        with (x +:+ sep +:+ String.concat sep ((y :: l1) ++ l2)).
      change (String.concat sep (x :: y :: l1))
        with (x +:+ sep +:+ String.concat sep (y :: l1)).
      rewrite IH. by rewrite !sapp_assoc.
Qed.

Lemma concat_app_contains sep (l1 l2 : list string) :
  contains (String.concat sep (l1 ++ l2)) (String.concat sep l1)
  /\ contains (String.concat sep (l1 ++ l2)) (String.concat sep l2).
Proof.
  destruct (concat_app sep l1 l2) as [mid ->]. split.
  - apply contains_app_l.
  - eapply contains_trans; apply contains_app_r.
Qed.

Lemma Error_flatten (e : errors.error) :
  errors.Error e = String.concat "; " (errors.Error <$> multierr.flatten e).
Proof. destruct e; simpl; [by rewrite ?sapp_nil_r|done]. Qed.

(** The message of an appended error holds the messages of both sides. *)
Lemma Append_contains (l r : errors.error) :
  exists E, multierr.Append (Some l) (Some r) = Some E
            /\ contains (errors.Error E) (errors.Error l)
            /\ contains (errors.Error E) (errors.Error r).
Proof.
  eexists. split; [reflexivity|].
  rewrite (Error_flatten l), (Error_flatten r).
  cbn [errors.Error]. change (map errors.Error) with (fmap (M:=list) errors.Error).
  rewrite fmap_app. apply concat_app_contains.
Qed.

Lemma foldl_Append_contains (e : errors.error) (cerrs : list (option errors.error)) :
  exists E, foldl multierr.Append (Some e) cerrs = Some E
            /\ contains (errors.Error E) (errors.Error e)
            /\ forall ce, Some ce ∈ cerrs ->
                          contains (errors.Error E) (errors.Error ce).
Proof.
  revert e. induction cerrs as [|c cerrs IH]; intros e; simpl.
  - exists e. split; [done|]. split; [apply contains_refl|].
    intros ce H. by apply elem_of_nil in H.
  - destruct c as [c|].
    + destruct (Append_contains e c) as (E1 & HE1 & Hl & Hr).
      simpl in HE1. rewrite HE1.
      destruct (IH E1) as (E & HE & HE1' & Hall).
      exists E. split; [done|]. split; [by eapply contains_trans|].
      intros ce Hce. apply elem_of_cons in Hce as [Hce|Hce].
      * simplify_eq. by eapply contains_trans.
      * by apply Hall.
    + destruct (IH e) as (E & HE & He & Hall).
      exists E. split; [done|]. split; [done|].
      intros ce Hce. apply elem_of_cons in Hce as [Hce|Hce]; [done|]. by apply Hall.
Qed.

End contains_facts.

(** ** Deferred closings *)

Section deferred_facts.
Context `{F : Float64} `{T : TimeOps} {W : Type} (cl : cmd.Client W).
Import props cmd errors.

Lemma call_spec {A} (f : W -> A * W) (ev : A -> event) (st : state) :
  call f ev st
  = (fst (f (world st)),
     {| world := snd (f (world st));
        trace := trace st ++ [ev (fst (f (world st)))];
        sink := sink st |}).
Proof. unfold call, log. by destruct (f (world st)). Qed.

Lemma run_deferred_nil n (l : locals) p (st : state (W:=W)) :
  resp l = None ->
  run_deferred cl n l p st
  = (match n with O => if p then Panicked else Returned (err l) | S _ => Panicked end, st).
Proof.
  intros Hl. destruct n as [|n]; [done|].
  cbn [run_deferred]. unfold bind, deferred_close. rewrite Hl. unfold ret.
  clear p. induction n as [|n IH]; [done|].
  cbn [run_deferred]. unfold bind, deferred_close. rewrite Hl. unfold ret. apply IH.
Qed.

Lemma run_deferred_closes n (l : locals) p r (st : state (W:=W)) :
  resp l = Some r ->
  exists cerrs st',
    run_deferred cl n l p st
    = (if p then Panicked else Returned (foldl multierr.Append (err l) cerrs), st')
    /\ length cerrs = n
    /\ trace st' = trace st ++ (BodyClose r <$> cerrs)
    /\ sink st' = sink st.
Proof.
  revert l st. induction n as [|n IH]; intros l st Hl.
  - exists [], st. simpl. by rewrite app_nil_r.
  - cbn [run_deferred]. unfold bind, deferred_close. rewrite Hl.
    unfold bind, Close. rewrite call_spec.
    set (res := Body_Close cl r (world st)).
    destruct (fst res) as [ce|] eqn:Hce; unfold ret; cbn beta iota.
    + edestruct (IH {| resp := Some r; err := multierr.Append (err l) (Some ce) |})
        as (cerrs & st' & Hrun & Hlen & Htr & Hsink); [done|].
      exists (Some ce :: cerrs), st'. rewrite Hrun. simpl in *.
      split; [done|]. split; [by rewrite Hlen|].
      split; [|done]. rewrite Htr. by rewrite <- app_assoc.
    + edestruct (IH l) as (cerrs & st' & Hrun & Hlen & Htr & Hsink); [done|].
      exists (None :: cerrs), st'. rewrite Hrun. simpl in *.
      split; [by destruct (err l)|]. split; [by rewrite Hlen|].
      split; [|done]. rewrite Htr. by rewrite <- app_assoc.
Qed.

(** What [finish] adds to the trace are closings of bodies only. *)
Lemma finish_trace (fr : frame) (st : state (W:=W)) :
  exists evs, trace (snd (finish cl fr st)) = trace st ++ evs
              /\ Forall (fun ev => is_request ev = false) evs
              /\ sink (snd (finish cl fr st)) = sink st.
Proof.
  unfold finish. destruct (resp (vars fr)) as [r|] eqn:Hr.
  - destruct (run_deferred_closes (deferred fr) (vars fr) (panicking fr) r st Hr)
      as (cerrs & st' & -> & _ & Htr & Hs).
    exists (BodyClose r <$> cerrs). simpl. split; [done|]. split; [|done].
    apply Forall_fmap. by apply Forall_true.
  - rewrite run_deferred_nil; [|done]. exists []. simpl.
    by rewrite app_nil_r.
Qed.

(** [finish] gives success only after a body that returned [nil]. *)
Lemma finish_success (fr : frame) (st st' : state (W:=W)) :
  finish cl fr st = (Returned None, st') ->
  panicking fr = false /\ err (vars fr) = None.
Proof.
  unfold finish. intros H. destruct (resp (vars fr)) as [r|] eqn:Hr.
  - destruct (run_deferred_closes (deferred fr) (vars fr) (panicking fr) r st Hr)
      as (cerrs & st'' & Hrun & _).
    rewrite Hrun in H. destruct (panicking fr); [done|]. split; [done|].
    destruct (err (vars fr)) as [e|] eqn:He; [|done].
    destruct (foldl_Append_contains e cerrs) as (E & HE & _).
    rewrite HE in H. done.
  - rewrite run_deferred_nil in H; [|done].
    destruct (deferred fr); [|done]. destruct (panicking fr); [done|].
    by simplify_eq.
Qed.

(** A body that ended in an error or a panic does not finish in success. *)
Lemma finish_failure (fr : frame) (st : state (W:=W)) :
  panicking fr = true \/ is_Some (err (vars fr)) ->
  fst (finish cl fr st) <> Returned None.
Proof.
  intros H Hs. destruct (finish cl fr st) as [o st'] eqn:Hf. simpl in Hs. subst.
  apply finish_success in Hf as [Hp He]. destruct H as [H|[e H]]; congruence.
Qed.

(** After a body that returned the error [e], a closing that reports
    [cerr] leaves an error whose message holds the messages of both. *)
Lemma finish_keeps_both (fr : frame) (st st' : state (W:=W)) o e r cerr :
  panicking fr = false -> err (vars fr) = Some e ->
  finish cl fr st = (o, st') ->
  BodyClose r (Some cerr) ∈ drop (length (trace st)) (trace st') ->
  exists E, o = Returned (Some E)
            /\ contains (Error E) (Error e)
            /\ contains (Error E) (Error cerr).
Proof.
  intros Hp He Hf Hin. unfold finish in Hf.
  destruct (resp (vars fr)) as [r'|] eqn:Hr.
  - destruct (run_deferred_closes (deferred fr) (vars fr) (panicking fr) r' st Hr)
      as (cerrs & st'' & Hrun & _ & Htr & _).
    rewrite Hrun, Hp, He in Hf. simplify_eq.
    rewrite Htr, drop_app_length in Hin.
    apply list_elem_of_fmap in Hin as (c & Hc & Hin). simplify_eq.
    destruct (foldl_Append_contains e cerrs) as (E & HE & H1 & H2).
    exists E. rewrite HE. split; [done|]. split; [done|]. by apply H2.
  - rewrite run_deferred_nil in Hf; [|done]. simplify_eq.
    rewrite drop_all in Hin. by apply elem_of_nil in Hin.
Qed.

End deferred_facts.

(** ** Configuring a chain *)

Section configure_facts.
Context `{F : Float64} `{T : TimeOps} {W : Type} (cl : cmd.Client W).
Import props cmd errors.

Lemma parse_override_None arg :
  strings.Cut arg "=" = None <-> parse_override arg = None.
Proof.
  unfold parse_override, strings.SplitN2.
  destruct (strings.Cut arg "=") as [[k raw]|]; split; done.
Qed.

Lemma parse_overrides_unsplit args params bad :
  first_unsplit args = Some bad -> parse_overrides args params = inl bad.
Proof.
  revert params. induction args as [|a args IH]; intros params H; [done|].
  simpl in *. unfold parse_override, strings.SplitN2.
  destruct (strings.Cut a "=") as [[k raw]|]; [|by simplify_eq].
  by apply IH.
Qed.

Lemma first_unsplit_elem args arg :
  arg ∈ args -> strings.Cut arg "=" = None -> is_Some (first_unsplit args).
Proof.
  induction 1 as [a args|a b args _ IH]; intros H; simpl.
  - rewrite H. eauto.
  - destruct (strings.Cut b "="); eauto.
Qed.

(** The body of [ConfigureSolanaChain] when some argument has no [=]:
    it ends in an error or a panic, after no request at all or after
    the GET alone. *)
Lemma Configure_body_unsplit (c : Context) (st : state (W:=W)) bad :
  first_unsplit (Args c) = Some bad ->
  let fr := fst (ConfigureSolanaChain_body cl c st) in
  let st1 := snd (ConfigureSolanaChain_body cl c st) in
  (panicking fr = true \/ is_Some (err (vars fr)))
  /\ sink st1 = sink st
  /\ (String_id c = EmptyString /\ trace st1 = trace st
      \/ String_id c <> EmptyString
         /\ exists rest, trace st1 = trace st ++ Request "GET" (get_path c) None :: rest
                         /\ Forall (fun ev => is_request ev = false) rest).
Proof.
  intros Hbad. unfold ConfigureSolanaChain_body.
  destruct (String.eqb_spec (String_id c) EmptyString) as [Hid|Hid].
  { simpl. split; [right; eauto|]. split; [done|]. by left. }
  destruct (Args c) as [|a args] eqn:Hargs; [done|]. rewrite <- Hargs in *.
  cbn [Present negb]. replace (Present (Args c)) with true by by rewrite Hargs.
  cbn [negb]. unfold bind, Get, deserializeAPIResponse. rewrite call_spec.
  fold (get_path c).
  destruct (HTTP_Get cl (get_path c) (world st)) as [[r e] w1] eqn:Hget.
  cbn [fst snd]. destruct e as [e|].
  { simpl. split; [right; eauto|]. split; [done|]. right. split; [done|].
    exists []. split; [done|]. constructor. }
  rewrite call_spec. cbn [world trace sink].
  destruct (decode_resource cl r w1) as [d w2] eqn:Hdec. cbn [fst snd].
  rewrite (parse_overrides_unsplit _ _ _ Hbad).
  destruct d as [chain|e|]; simpl.
  - split; [right; eauto|]. split; [done|]. right. split; [done|].
    exists [Decode r]. rewrite <- app_assoc. split; [done|]. by repeat constructor.
  - split; [right; eauto|]. split; [done|]. right. split; [done|].
    exists [Decode r]. rewrite <- app_assoc. split; [done|]. by repeat constructor.
  - split; [by left|]. split; [done|]. right. split; [done|].
    exists [Decode r]. rewrite <- app_assoc. split; [done|]. by repeat constructor.
Qed.


Lemma Configure_body_invalid (c : Context) (st : state (W:=W)) bad r w1 chain w2 :
  first_unsplit (Args c) = Some bad ->
  String_id c <> EmptyString ->
  HTTP_Get cl (get_path c) (world st) = ((Some r, None), w1) ->
  decode_resource cl (Some r) w1 = (Val chain, w2) ->
  ConfigureSolanaChain_body cl c st
  = (returning (Some r) (Some (New ("invalid parameter: " +:+ bad))) 1,
     {| world := w2;
        trace := (trace st ++ [Request "GET" (get_path c) None])
                 ++ [Decode (Some r)];
        sink := sink st |}).
Proof.
  intros Hbad Hid Hget Hdec. unfold ConfigureSolanaChain_body.
  destruct (String.eqb_spec (String_id c) EmptyString) as [|_]; [done|].
  destruct (Args c) as [|a args] eqn:Hargs; [done|]. rewrite <- Hargs in *.
  replace (Present (Args c)) with true by by rewrite Hargs.
  cbn [negb]. unfold bind, Get, deserializeAPIResponse. rewrite call_spec.
  fold (get_path c). rewrite Hget. cbn [fst snd].
  rewrite call_spec. cbn [world trace sink]. rewrite Hdec. cbn [fst snd].
  by rewrite (parse_overrides_unsplit _ _ _ Hbad).
Qed.

End configure_facts.

(** C2 (amended): when some argument of [ConfigureSolanaChain] has no
    [=], the command does not succeed and sends no PATCH; with a
    non-empty id it first sends the GET of the chain, and when that GET
    and its decoding succeed the returned error carries the message
    [invalid parameter: ] followed by the first such argument. *)
Theorem C2_unsplit_argument_after_GET (F : Float64) (T : TimeOps) (W : Type)
  (cl : cmd.Client W) (c : cmd.Context) (st : cmd.state (W:=W)) (arg : string) :
  arg ∈ cmd.Args c ->
  strings.Cut arg "=" = None ->
  let run := cmd.ConfigureSolanaChain cl c st in
  let new := drop (length (cmd.trace st)) (cmd.trace (snd run)) in
  fst run <> cmd.Returned None
  /\ (forall path body, cmd.Request "PATCH" path body ∉ new)
  /\ (cmd.String_id c <> EmptyString ->
      exists rest, new = cmd.Request "GET" (props.get_path c) None :: rest)
  /\ (forall r w1 chain w2,
        cmd.String_id c <> EmptyString ->
        cmd.HTTP_Get cl (props.get_path c) (cmd.world st) = ((Some r, None), w1) ->
        cmd.decode_resource cl (Some r) w1 = (cmd.Val chain, w2) ->
        exists bad E,
          props.first_unsplit (cmd.Args c) = Some bad
          /\ fst run = cmd.Returned (Some E)
          /\ props.contains (errors.Error E) ("invalid parameter: " +:+ bad)).
Proof.
  intros Hin Hcut run new.
  destruct (first_unsplit_elem _ _ Hin Hcut) as [bad Hbad].
  pose proof (Configure_body_unsplit cl c st bad Hbad) as (Hfail & _ & Htr).
  assert (Hrun : run = cmd.finish cl (fst (cmd.ConfigureSolanaChain_body cl c st))
                         (snd (cmd.ConfigureSolanaChain_body cl c st))).
  { unfold run, cmd.ConfigureSolanaChain, cmd.bind.
    by destruct (cmd.ConfigureSolanaChain_body cl c st). }
  destruct (finish_trace cl (fst (cmd.ConfigureSolanaChain_body cl c st))
              (snd (cmd.ConfigureSolanaChain_body cl c st)))
    as (evs & Hevs & Hnoreq & _).
  rewrite <- Hrun in Hevs.
  split; [rewrite Hrun; by apply finish_failure|].
  split; [|split].
  - intros path body Hp. unfold new in Hp. rewrite Hevs in Hp.
    destruct Htr as [[_ Ht]|[_ (rest & Ht & Hrest)]]; rewrite Ht in Hp.
    + rewrite drop_app_length in Hp.
      rewrite Forall_forall in Hnoreq. by specialize (Hnoreq _ Hp).
    + rewrite <- app_assoc, drop_app_length in Hp.
      apply elem_of_cons in Hp as [Hp|Hp]; [done|].
      apply elem_of_app in Hp as [Hp|Hp].
      * rewrite Forall_forall in Hrest. by specialize (Hrest _ Hp).
      * rewrite Forall_forall in Hnoreq. by specialize (Hnoreq _ Hp).
  - intros Hid. unfold new. rewrite Hevs.
    destruct Htr as [[? _]|[_ (rest & Ht & _)]]; [done|].
    rewrite Ht, <- app_assoc, drop_app_length. by eexists.
  - intros r w1 chain w2 Hid Hget Hdec.
    exists bad.
    pose proof (Configure_body_invalid cl c st bad r w1 chain w2 Hbad Hid Hget Hdec)
      as Hbody.
    rewrite Hbody in Hrun. cbn [fst snd] in Hrun. unfold cmd.finish in Hrun.
    cbn [cmd.deferred cmd.vars cmd.panicking cmd.returning] in Hrun.
    edestruct (run_deferred_closes cl 1
                 {| cmd.resp := Some r;
                    cmd.err := Some (errors.New ("invalid parameter: " +:+ bad)) |}
                 false r) as (cerrs & st' & Hd & _); [done|].
    rewrite Hd in Hrun. cbn [cmd.err] in Hrun.
    destruct (foldl_Append_contains
                (errors.New ("invalid parameter: " +:+ bad)) cerrs)
      as (E & HE & Hc & _).
    exists E. split; [done|]. rewrite Hrun, HE. split; [done|]. exact Hc.
Qed.

Lemma C2_counterexample :
  let c := {| cmd.String_id := "devnet"; cmd.Int_page := 0;
              cmd.Args := ["url"] |} in
  let run := cmd.ConfigureSolanaChain backend.client c
               (backend.start (backend.healthy backend.devnet)) in
  strings.Cut "url" "=" = None
  /\ fst run = cmd.Returned (Some (errors.New "invalid parameter: url"))
  /\ cmd.trace (snd run)
     = [cmd.Request "GET" "/v2/chains/solana/devnet" None;
        cmd.Decode (Some {| cmd.Body := 1 |});
        cmd.BodyClose {| cmd.Body := 1 |} None].
Proof. vm_compute. repeat split; reflexivity. Qed.

Lemma C2_witness :
  let c := {| cmd.String_id := "devnet"; cmd.Int_page := 0;
              cmd.Args := ["timeout=5"; "url"] |} in
  let run := cmd.ConfigureSolanaChain backend.client c
               (backend.start (backend.healthy backend.devnet)) in
  fst run <> cmd.Returned None
  /\ (forall path body,
        cmd.Request "PATCH" path body
        ∉ drop 0 (cmd.trace (snd run))).
Proof.
  intros c run.
  pose proof (C2_unsplit_argument_after_GET go_float64 text_time _
                backend.client c
                (backend.start (backend.healthy backend.devnet)) "url")
    as H.
  destruct H as (H1 & H2 & _).
  - apply elem_of_cons. right. apply elem_of_cons. left. reflexivity.
  - reflexivity.
  - split; [exact H1|exact H2].
Defined.

(** ** The body of the PATCH *)

Section patch_facts.
Context `{F : Float64}.
Import props cmd errors.

Lemma patch_params_list en (cfg : gmap string (json.value F)) :
  map_to_list (patch_params en cfg)
  = [("config", json.Object cfg); ("enabled", json.Bool en)]
  \/ map_to_list (patch_params en cfg)
     = [("enabled", json.Bool en); ("config", json.Object cfg)].
Proof. first [left; reflexivity | right; reflexivity]. Qed.

Lemma sort_two_members (a b : string) :
  json.sort_members [("config", a); ("enabled", b)]
  = [("config", a); ("enabled", b)]
  /\ json.sort_members [("enabled", b); ("config", a)]
     = [("config", a); ("enabled", b)].
Proof. split; reflexivity. Qed.

(** The text of the PATCH body: the object with the members [config]
    and [enabled], in this order. *)
Lemma Marshal_patch_params en (cfg : gmap string (json.value F)) :
  json.Marshal (json.Object (patch_params en cfg))
  = match json.Marshal (json.Object cfg) with
    | Some t =>
      Some ("{" +:+ jsontext.quote "config" +:+ ":" +:+ t +:+ ","
            +:+ jsontext.quote "enabled" +:+ ":" +:+ strconv.FormatBool en
            +:+ "}")
    | None => None
    end.
Proof.
  change (json.Marshal (json.Object (patch_params en cfg))) with
    (match map_fold (fun k x acc => json.collect (pair k <$> json.Marshal x) acc)
             (Some []) (patch_params en cfg) with
     | Some items =>
       Some ("{" +:+ json.join ","
               ((fun kv => jsontext.quote kv.1 +:+ ":" +:+ kv.2)
                  <$> json.sort_members items) +:+ "}")
     | None => None
     end).
  rewrite (map_fold_foldr _ _ (patch_params en cfg)).
  destruct (patch_params_list en cfg) as [-> | ->];
    cbn [foldr uncurry];
    destruct (json.Marshal (json.Object cfg)) as [t|]; try reflexivity;
    cbn [json.Marshal json.collect fmap option_fmap option_map];
    rewrite ?(proj1 (sort_two_members _ _)), ?(proj2 (sort_two_members _ _));
    unfold json.join; cbn [fmap list_fmap String.concat fst snd];
    by rewrite !sapp_assoc.
Qed.
End patch_facts.

(** ** Creating a chain *)

Section create_facts.
Context `{F : Float64} `{T : TimeOps} {W : Type} (cl : cmd.Client W).
Import props cmd errors.

Lemma new_events_app (st st' : state (W:=W)) evs :
  trace st' = trace st ++ evs -> new_events st st' = evs.
Proof. intros H. unfold new_events. by rewrite H, drop_app_length. Qed.

Lemma new_events_refl (st : state (W:=W)) : new_events st st = [].
Proof. unfold new_events. by rewrite drop_all. Qed.

Lemma requests_app (a b : list event) :
  requests (a ++ b) = requests a ++ requests b.
Proof. apply filter_app. Qed.

Lemma requests_cons (ev : event) (evs : list event) :
  requests (ev :: evs)
  = if is_request ev then ev :: requests evs else requests evs.
Proof.
  unfold requests. rewrite filter_cons.
  destruct (is_request ev); by destruct (decide _).
Qed.

Lemma requests_none (evs : list event) :
  Forall (fun ev => is_request ev = false) evs -> requests evs = [].
Proof.
  induction 1 as [|ev evs Hev _ IH]; [done|].
  unfold requests in *. rewrite filter_cons, IH. rewrite Hev.
  by destruct (decide (false = true)).
Qed.

(** One deferred closing of a response that is there. *)
Lemma finish_one (r : Response) (e : option error) (st : state (W:=W)) :
  finish cl (returning (Some r) e 1) st
  = (Returned (multierr.Append e (fst (Body_Close cl r (world st)))),
     {| world := snd (Body_Close cl r (world st));
        trace := trace st ++ [BodyClose r (fst (Body_Close cl r (world st)))];
        sink := sink st |}).
Proof.
  unfold finish, returning. cbn [deferred vars panicking run_deferred].
  unfold bind, deferred_close. cbn [resp err]. unfold bind, Close.
  rewrite call_spec. destruct (Body_Close cl r (world st)) as [[ce|] w]; cbn.
  - reflexivity.
  - by destruct e.
Qed.

Lemma finish_one_crashing (r : Response) (e : option error) (st : state (W:=W)) :
  finish cl (crashing (Some r) e 1) st
  = (Panicked,
     {| world := snd (Body_Close cl r (world st));
        trace := trace st ++ [BodyClose r (fst (Body_Close cl r (world st)))];
        sink := sink st |}).
Proof.
  unfold finish, crashing. cbn [deferred vars panicking run_deferred].
  unfold bind, deferred_close. cbn [resp err]. unfold bind, Close.
  rewrite call_spec. by destruct (Body_Close cl r (world st)) as [[ce|] w].
Qed.

Lemma finish_none (r : option Response) (e : option error) (st : state (W:=W)) :
  finish cl (returning r e 0) st = (Returned e, st).
Proof. reflexivity. Qed.

Lemma finish_nil n p (e : option error) (st : state (W:=W)) :
  finish cl {| panicking := p; vars := {| resp := None; err := e |};
               deferred := S n |} st
  = (Panicked, st).
Proof. unfold finish. cbn [deferred vars panicking]. by rewrite run_deferred_nil. Qed.

(** [renderAPIResponse] sends nothing: it adds the decoding to the
    trace and may write to the sink. *)
Lemma renderAPIResponse_trace (r : option Response) (st : state (W:=W)) :
  trace (snd (renderAPIResponse cl r st)) = trace st ++ [Decode r].
Proof.
  unfold renderAPIResponse, bind, deserializeAPIResponse. rewrite call_spec.
  destruct (decode_resource cl r (world st)) as [[chain|e|] w]; cbn; try done.
  unfold Render, bind, ret. cbn.
  by destruct (RenderTable _ _).
Qed.


Lemma Create_reaches_POST (c : Context) (st : state (W:=W)) buf w1 body r e w2 :
  Args c <> [] -> String_id c <> EmptyString ->
  read_config cl (First (Args c)) (world st) = (inl buf, w1) ->
  Marshal_create (String_id c) buf = Some body ->
  HTTP_Post cl "/v2/chains/solana" body w1 = ((r, e), w2) ->
  CreateSolanaChain cl c st
  = match e with
    | Some _ => (Returned (errorOut e), after_post st (First (Args c)) body w2)
    | None =>
      let st2 := after_post st (First (Args c)) body w2 in
      let '(o, st3) := renderAPIResponse cl r st2 in
      finish cl (match o with
                 | Returned e' => returning r e' 1
                 | Panicked => crashing r None 1
                 end) st3
    end.
Proof.
  intros Hargs Hid Hread Hm Hpost.
  unfold CreateSolanaChain, CreateSolanaChain_body.
  destruct (Args c) as [|a args] eqn:Ha; [done|]. rewrite <- Ha in *.
  replace (Present (Args c)) with true by by rewrite Ha.
  cbn [negb]. destruct (String.eqb_spec (String_id c) EmptyString) as [|_]; [done|].
  unfold bind at 1 2. rewrite call_spec, Hread. cbn [fst snd].
  rewrite Hm. unfold bind at 1, Post. rewrite call_spec. cbn [world trace sink].
  rewrite Hpost. cbn [fst snd]. fold (after_post st (First (Args c)) body w2).
  destruct e as [e|]; [reflexivity|].
  unfold bind. destruct (renderAPIResponse cl r _) as [o st3].
  by destruct o.
Qed.

(** X1: [CreateSolanaChain] checks its input before it touches anything:
    without arguments, and then without an id, it returns its usage
    error and leaves the world, the trace and the sink as they were. *)
Theorem Create_checks_input_first (c : Context) (st : state (W:=W)) :
  (Args c = [] ->
   CreateSolanaChain cl c st
   = (Returned (Some (New
        "must pass in the chain's parameters [-id string] [JSON blob | JSON filepath]")),
      st))
  /\ (Args c <> [] -> String_id c = EmptyString ->
      CreateSolanaChain cl c st
      = (Returned (Some (New "missing chain ID [-id string]")), st)).
Proof.
  unfold CreateSolanaChain, CreateSolanaChain_body. split.
  - intros ->. reflexivity.
  - intros Hargs ->. destruct (Args c); [done|]. reflexivity.
Qed.

(** X2: [CreateSolanaChain] sends at most one request: a POST to
    [/v2/chains/solana], sent only when the configuration argument was
    read and is valid JSON, with the id and the compacted configuration
    as its body. *)
Theorem Create_sends_one_POST (c : Context) (st : state (W:=W)) :
  let new := new_events st (snd (CreateSolanaChain cl c st)) in
  requests new = []
  \/ exists buf w1 raw,
      Args c <> [] /\ String_id c <> EmptyString
      /\ read_config cl (First (Args c)) (world st) = (inl buf, w1)
      /\ jsonraw.checkValid buf = true
      /\ raw = jsonraw.compact_chars false false 0 buf
      /\ requests new
         = [Request "POST" "/v2/chains/solana"
              (Some ("{" +:+ jsontext.quote "chainID" +:+ ":"
                     +:+ jsontext.quote (String_id c) +:+ ","
                     +:+ jsontext.quote "config" +:+ ":" +:+ raw +:+ "}"))].
Proof.
  intros new. subst new.
  destruct (Args c) as [|a args] eqn:Ha.
  { left. unfold CreateSolanaChain, CreateSolanaChain_body. rewrite Ha. cbn.
    by rewrite new_events_refl. }
  destruct (String.eqb_spec (String_id c) EmptyString) as [Hid|Hid].
  { left. unfold CreateSolanaChain, CreateSolanaChain_body. rewrite Ha. cbn.
    destruct (String.eqb_spec (String_id c) EmptyString) as [|]; [|done]. cbn.
    by rewrite new_events_refl. }
  destruct (read_config cl (First (Args c)) (world st)) as [[buf|e] w1] eqn:Hread.
  2:{ left. unfold CreateSolanaChain, CreateSolanaChain_body. rewrite Ha. cbn [Present negb].
      destruct (String.eqb_spec (String_id c) EmptyString) as [|_]; [done|].
      unfold bind at 1 2. rewrite call_spec. rewrite <- Ha, Hread. cbn.
      erewrite new_events_app; [|reflexivity]. done. }
  destruct (Marshal_create (String_id c) buf) as [body|] eqn:Hm.
  2:{ left. unfold CreateSolanaChain, CreateSolanaChain_body. rewrite Ha. cbn [Present negb].
      destruct (String.eqb_spec (String_id c) EmptyString) as [|_]; [done|].
      unfold bind at 1 2. rewrite call_spec. rewrite <- Ha, Hread. cbn [fst snd].
      rewrite Hm. cbn. erewrite new_events_app; [|reflexivity]. done. }
  destruct (HTTP_Post cl "/v2/chains/solana" body w1) as [[r e] w2] eqn:Hpost.
  right. exists buf, w1, (jsonraw.compact_chars false false 0 buf).
  assert (Hne : Args c <> []) by by rewrite Ha.
  rewrite <- Ha in *.
  pose proof Hm as Hm'.
  unfold Marshal_create, jsonraw.Marshal_RawMessage in Hm.
  destruct (jsonraw.checkValid buf) eqn:Hv; [|done]. simplify_eq.
  do 5 (split; [done|]).
  rewrite (Create_reaches_POST c st _ _ _ _ _ _ Hne Hid Hread Hm' Hpost).
  destruct e as [e|].
  - cbn [snd]. erewrite new_events_app; [|unfold after_post; cbn; by rewrite <- app_assoc].
    cbn [app]. by rewrite !requests_cons.
  - cbn zeta.
    match goal with |- context [renderAPIResponse cl r ?s] =>
      pose proof (renderAPIResponse_trace r s) as Htr end.
    destruct (renderAPIResponse cl r _) as [o st3]. cbn [snd] in Htr.
    match goal with |- context [finish cl ?fr st3] =>
      destruct (finish_trace cl fr st3) as (evs & Hevs & Hnr & _) end.
    erewrite new_events_app;
      [|rewrite Hevs, Htr; unfold after_post; cbn [trace];
        rewrite <- !app_assoc; reflexivity].
    cbn [app].
    rewrite !requests_cons. cbn [is_request].
    by rewrite (requests_none evs Hnr).
Qed.


(** X3: what [CreateSolanaChain] does with the response of its POST.  A
    failed POST is returned as the command's error, and nothing is
    decoded or closed.  After a POST that succeeded with a response,
    the response is rendered and then its body is closed, once; the
    result is the result of the rendering with a failure of the closing
    appended, so a closing that fails alone makes the command fail with
    just that error.  A POST that returns neither a response nor an
    error ends in a panic. *)
Theorem Create_after_POST (c : Context) (st : state (W:=W)) buf w1 body r e w2 :
  Args c <> [] -> String_id c <> EmptyString ->
  read_config cl (First (Args c)) (world st) = (inl buf, w1) ->
  Marshal_create (String_id c) buf = Some body ->
  HTTP_Post cl "/v2/chains/solana" body w1 = ((r, e), w2) ->
  let st2 := after_post st (First (Args c)) body w2 in
  let run := CreateSolanaChain cl c st in
  (forall e0, e = Some e0 -> run = (Returned (Some (New (Error e0))), st2))
  /\ (forall resp, e = None -> r = Some resp ->
      let rendered := renderAPIResponse cl (Some resp) st2 in
      let closed := Body_Close cl resp (world (snd rendered)) in
      run = (match fst rendered with
             | Returned e' => Returned (multierr.Append e' (fst closed))
             | Panicked => Panicked
             end,
             {| world := snd closed;
                trace := trace (snd rendered) ++ [BodyClose resp (fst closed)];
                sink := sink (snd rendered) |})
      /\ (fst rendered = Returned None ->
          fst run = Returned (fst closed)))
  /\ (e = None -> r = None ->
      fst run = Panicked /\ closings (new_events st (snd run)) = []).
Proof.
  intros Hargs Hid Hread Hm Hpost st2 run. subst run.
  rewrite (Create_reaches_POST c st _ _ _ _ _ _ Hargs Hid Hread Hm Hpost).
  fold st2. split; [|split].
  - intros e0 ->. reflexivity.
  - intros resp -> ->. cbn zeta.
    destruct (renderAPIResponse cl (Some resp) st2) as [o st3]. cbn [fst snd].
    destruct o as [e'|].
    + rewrite finish_one. split; [done|]. by intros [= ->].
    + rewrite finish_one_crashing. split; [done|]. done.
  - intros -> ->.
    cbn zeta.
    destruct (renderAPIResponse cl None st2) as [o st3] eqn:Hrender.
    pose proof (renderAPIResponse_trace None st2) as Htr.
    rewrite Hrender in Htr. cbn [snd] in Htr.
    assert (Hf : forall fr, deferred fr = 1%nat -> resp (vars fr) = None ->
                 finish cl fr st3 = (Panicked, st3)).
    { intros [p [r' e'] n] Hn Hr. cbn in *. subst. apply finish_nil. }
    rewrite Hf; [|by destruct o..].
    split; [done|]. cbn [snd].
    erewrite new_events_app;
      [|rewrite Htr; unfold st2, after_post; cbn [trace];
        rewrite <- !app_assoc; reflexivity].
    reflexivity.
Qed.

End create_facts.

(** ** Removing a chain *)

Section remove_facts.
Context `{F : Float64} `{T : TimeOps} {W : Type} (cl : cmd.Client W).
Import props cmd errors.

Lemma Remove_cases (c : Context) (st : state (W:=W)) id rest :
  Args c = id :: rest ->
  RemoveSolanaChain cl c st
  = let path := "/v2/chains/solana/" +:+ id in
    let deleted := HTTP_Delete cl path (world st) in
    let st1 := {| world := snd deleted;
                  trace := trace st ++ [Request "DELETE" path None];
                  sink := sink st |} in
    match snd (fst deleted) with
    | Some e => (Returned (Some (New (Error e))), st1)
    | None =>
      let decoded := decode_any cl (fst (fst deleted)) (snd deleted) in
      let st2 := {| world := snd decoded;
                    trace := trace st1 ++ [Decode (fst (fst deleted))];
                    sink := sink st |} in
      match fst decoded with
      | Val _ =>
        (Returned None,
         {| world := snd decoded;
            trace := trace st2
                     ++ [Print ("Chain " +:+ id +:+ " deleted"
                                +:+ String "010" EmptyString)];
            sink := sink st |})
      | Err e => (Returned (Some (New (Error e))), st2)
      | Crash => (Panicked, st2)
      end
    end.
Proof.
  intros Ha. unfold RemoveSolanaChain. rewrite Ha. cbn [Present negb First].
  cbn zeta. unfold bind at 1, Delete. rewrite call_spec.
  destruct (HTTP_Delete cl _ (world st)) as [[r e] w1]. cbn [fst snd].
  destruct e as [e|]; [reflexivity|].
  unfold bind at 1. rewrite call_spec. cbn [world trace sink].
  destruct (decode_any cl r w1) as [[[]|e|] w2]; reflexivity.
Qed.

(** X4: [RemoveSolanaChain] without arguments returns its usage error
    and does nothing else.  With arguments it sends one DELETE for the
    first of them and nothing more, and closes nothing; it succeeds
    exactly when the DELETE returns no error and its response decodes,
    and only then reports the deletion. *)
Theorem Remove_sends_one_DELETE (c : Context) (st : state (W:=W)) :
  (Args c = [] ->
   RemoveSolanaChain cl c st
   = (Returned (Some (New "must pass the id of the chain to be removed")), st))
  /\ (forall id rest, Args c = id :: rest ->
      let path := "/v2/chains/solana/" +:+ id in
      let run := RemoveSolanaChain cl c st in
      let deleted := HTTP_Delete cl path (world st) in
      let report := Print ("Chain " +:+ id +:+ " deleted"
                           +:+ String "010" EmptyString) in
      exists tail,
        new_events st (snd run) = Request "DELETE" path None :: tail
        /\ requests tail = []
        /\ closings tail = []
        /\ (fst run = Returned None
            <-> snd (fst deleted) = None
                /\ fst (decode_any cl (fst (fst deleted)) (snd deleted)) = Val tt)
        /\ (report ∈ tail <-> fst run = Returned None)).
Proof.
  split.
  - intros Ha. unfold RemoveSolanaChain. by rewrite Ha.
  - intros id rest Ha path run deleted report. subst run.
    rewrite (Remove_cases c st id rest Ha). cbn zeta. fold path. fold deleted.
    destruct (snd (fst deleted)) as [e|].
    { exists []. cbn [fst snd]. erewrite new_events_app; [|reflexivity].
      split; [done|]. split; [done|]. split; [done|].
      split; [split; [done|by intros [? _]]|].
      split; [by intros ?%elem_of_nil|done]. }
    destruct (fst (decode_any cl _ _)) as [[]|e|]; cbn [fst snd].
    + eexists. erewrite new_events_app; [|cbn [trace]; rewrite <- !app_assoc; reflexivity].
      cbn [app]. split; [reflexivity|]. split; [done|]. split; [done|].
      split; [done|]. split; [done|]. intros _. fold report. set_solver.
    + eexists. erewrite new_events_app; [|cbn [trace]; rewrite <- !app_assoc; reflexivity].
      cbn [app]. split; [reflexivity|]. split; [done|]. split; [done|].
      split; [split; [done|by intros [_ ?]]|].
      split; [|done]. intros Hin. apply list_elem_of_singleton in Hin. done.
    + eexists. erewrite new_events_app; [|cbn [trace]; rewrite <- !app_assoc; reflexivity].
      cbn [app]. split; [reflexivity|]. split; [done|]. split; [done|].
      split; [split; [done|by intros [_ ?]]|].
      split; [|done]. intros Hin. apply list_elem_of_singleton in Hin. done.
Qed.

End remove_facts.

Section configure_more.
Context `{F : Float64} `{T : TimeOps} {W : Type} (cl : cmd.Client W).
Import props cmd errors.

(** The two early returns of [ConfigureSolanaChain]. *)
Lemma Configure_refused (c : Context) (st : state (W:=W)) :
  (String_id c = EmptyString ->
   ConfigureSolanaChain cl c st
   = (Returned (Some (New ("missing chain ID " +:+ usage))), st))
  /\ (String_id c <> EmptyString -> Args c = [] ->
      ConfigureSolanaChain cl c st
      = (Returned (Some (New
           ("must pass in at least one chain configuration parameters "
            +:+ usage))), st)).
Proof.
  unfold ConfigureSolanaChain, ConfigureSolanaChain_body. split.
  - intros ->. reflexivity.
  - intros Hid ->.
    destruct (String.eqb_spec (String_id c) EmptyString) as [|_]; [done|].
    reflexivity.
Qed.

(** X5: [ConfigureSolanaChain] checks the id first and the presence of
    arguments second; either check failing, it returns its usage error
    and leaves the world, the trace and the sink as they were: nothing
    was requested, closed or written. *)
Theorem Configure_checks_input_first (c : Context) (st : state (W:=W)) :
  (String_id c = EmptyString ->
   ConfigureSolanaChain cl c st
   = (Returned (Some (New ("missing chain ID " +:+ usage))), st))
  /\ (String_id c <> EmptyString -> Args c = [] ->
      ConfigureSolanaChain cl c st
      = (Returned (Some (New
           ("must pass in at least one chain configuration parameters "
            +:+ usage))), st)).
Proof.
  unfold ConfigureSolanaChain, ConfigureSolanaChain_body. split.
  - intros ->. reflexivity.
  - intros Hid ->.
    destruct (String.eqb_spec (String_id c) EmptyString) as [|_]; [done|].
    reflexivity.
Qed.

(** The body of [ConfigureSolanaChain] once the GET returned without an
    error. *)
Lemma Configure_body_after_GET (c : Context) (st : state (W:=W)) r w1 :
  String_id c <> EmptyString -> Args c <> [] ->
  HTTP_Get cl (get_path c) (world st) = ((r, None), w1) ->
  ConfigureSolanaChain_body cl c st
  = let decoded := decode_resource cl r w1 in
    let st1 := after_get st (get_path c) r (snd decoded) in
    match fst decoded with
    | Crash => (crashing r None 1, st1)
    | Err e => (returning r (Some (New (Error e))) 1, st1)
    | Val chain =>
      match parse_overrides (Args c) ∅ with
      | inl arg => (returning r (Some (New ("invalid parameter: " +:+ arg))) 1, st1)
      | inr params =>
        match merge_config (Config chain) params with
        | None => (returning r (Some (New (Error json_error))) 1, st1)
        | Some config =>
          match json.Marshal (json.Object (patch_params (Enabled chain) config)) with
          | None => (returning r (Some (New (Error json_error))) 1, st1)
          | Some body =>
            let patched := HTTP_Patch cl (get_path c) body (snd decoded) in
            let st2 := after_patch st (get_path c) r body (snd patched) in
            let r2 := fst (fst patched) in
            match snd (fst patched) with
            | Some e => (returning r2 (Some (New (Error e))) 1, st2)
            | None =>
              let rendered := renderAPIResponse cl r2 st2 in
              (match fst rendered with
               | Returned e' => returning r2 e' 2
               | Panicked => crashing r2 None 2
               end, snd rendered)
            end
          end
        end
      end
    end.
Proof.
  intros Hid Hargs Hget. unfold ConfigureSolanaChain_body.
  destruct (String.eqb_spec (String_id c) EmptyString) as [|_]; [done|].
  destruct (Args c) as [|a args] eqn:Ha; [done|]. rewrite <- Ha in *.
  replace (Present (Args c)) with true by by rewrite Ha.
  cbn [negb]. unfold bind at 1, Get. rewrite call_spec.
  fold (get_path c). rewrite Hget. cbn [fst snd].
  unfold bind at 1, deserializeAPIResponse. rewrite call_spec.
  cbn [world trace sink].
  destruct (decode_resource cl r w1) as [[chain|e|] w2]; cbn [fst snd];
    try reflexivity.
  destruct (parse_overrides (Args c) ∅) as [arg|params]; [reflexivity|].
  unfold merge_config.
  destruct (json.Marshal (json.Object params)) as [rawUpdates|]; [|reflexivity].
  destruct (json.Unmarshal_map rawUpdates (Config chain)) as [config|];
    [|reflexivity].
  destruct (json.Marshal (json.Object (patch_params (Enabled chain) config)))
    as [body|]; [|reflexivity].
  unfold bind at 1, Patch. rewrite call_spec. cbn [world trace sink].
  destruct (HTTP_Patch cl (get_path c) body w2) as [[r2 e2] w3]. cbn [fst snd].
  destruct e2 as [e2|]; [reflexivity|].
  unfold bind, ret.
  change {| world := w3;
            trace := trace {| world := w2;
                              trace := trace {| world := w1;
                                                trace := trace st ++ [Request "GET" (get_path c) None];
                                                sink := sink st |} ++ [Decode r];
                              sink := sink st |}
                     ++ [Request "PATCH" (get_path c) (Some body)];
            sink := sink st |}
    with (after_patch st (get_path c) r body w3).
  destruct (renderAPIResponse cl r2 _) as [o st4]. cbn [fst snd].
  by destruct o.
Qed.


Lemma Configure_run (c : Context) (st : state (W:=W)) :
  ConfigureSolanaChain cl c st
  = finish cl (fst (ConfigureSolanaChain_body cl c st))
      (snd (ConfigureSolanaChain_body cl c st)).
Proof.
  unfold ConfigureSolanaChain, bind.
  by destruct (ConfigureSolanaChain_body cl c st).
Qed.

(** The requests of a run that finishes from the state [st1], reached
    by the events [evs]. *)
Lemma finish_requests (fr : frame) (st st1 : state (W:=W)) evs :
  trace st1 = trace st ++ evs ->
  requests (new_events st (snd (finish cl fr st1))) = requests evs.
Proof.
  intros Htr. destruct (finish_trace cl fr st1) as (evs' & Hevs & Hnr & _).
  erewrite new_events_app; [|by rewrite Hevs, Htr, <- app_assoc].
  by rewrite requests_app, (requests_none evs' Hnr), app_nil_r.
Qed.

(** X6: [ConfigureSolanaChain] sends at most two requests to one path:
    the GET of the chain and, after it, the PATCH.  The PATCH is sent
    only when the GET returned no error, its response decoded, every
    argument split and the merge succeeded; its body is the object with
    the whole merged configuration under [config] and, under [enabled],
    the flag of the chain as the GET returned it. *)
Theorem Configure_requests (c : Context) (st : state (W:=W)) :
  let new := new_events st (snd (ConfigureSolanaChain cl c st)) in
  let get := Request "GET" (get_path c) None in
  requests new = []
  \/ requests new = [get]
  \/ exists r w1 chain w2 params config t,
      HTTP_Get cl (get_path c) (world st) = ((r, None), w1)
      /\ decode_resource cl r w1 = (Val chain, w2)
      /\ parse_overrides (Args c) ∅ = inr params
      /\ merge_config (Config chain) params = Some config
      /\ json.Marshal (json.Object config) = Some t
      /\ requests new
         = [get;
            Request "PATCH" (get_path c)
              (Some ("{" +:+ jsontext.quote "config" +:+ ":" +:+ t +:+ ","
                     +:+ jsontext.quote "enabled" +:+ ":"
                     +:+ strconv.FormatBool (Enabled chain) +:+ "}"))].
Proof.
  intros new get. subst new.
  destruct (String.eqb_spec (String_id c) EmptyString) as [Hid|Hid].
  { left. rewrite (proj1 (Configure_refused c st) Hid).
    cbn [snd]. by rewrite new_events_refl. }
  destruct (Args c) as [|a args] eqn:Ha.
  { left. rewrite (proj2 (Configure_refused c st) Hid Ha).
    cbn [snd]. by rewrite new_events_refl. }
  assert (Hargs : Args c <> []) by by rewrite Ha.
  rewrite <- Ha in *. clear Ha a args.
  destruct (HTTP_Get cl (get_path c) (world st)) as [[r e] w1] eqn:Hget.
  destruct e as [e|].
  { right. left. rewrite Configure_run.
    assert (Hb : ConfigureSolanaChain_body cl c st
                 = (returning r (Some (New (Error e))) 0,
                    {| world := w1; trace := trace st ++ [get];
                       sink := sink st |})).
    { unfold ConfigureSolanaChain_body.
      destruct (String.eqb_spec (String_id c) EmptyString) as [|_]; [done|].
      destruct (Args c) as [|a args] eqn:Ha; [done|].
      cbn [Present negb]. unfold bind at 1, Get. rewrite call_spec.
      fold (get_path c). by rewrite Hget. }
    rewrite Hb. cbn [fst snd].
    erewrite finish_requests; [|reflexivity]. by rewrite requests_cons. }
  rewrite Configure_run, (Configure_body_after_GET c st r w1 Hid Hargs Hget).
  cbn zeta.
  destruct (decode_resource cl r w1) as [d w2] eqn:Hdec. cbn [fst snd].
  assert (Hone : forall fr,
             requests (new_events st
                         (snd (finish cl fr (after_get st (get_path c) r w2))))
             = [get]).
  { intros fr. erewrite finish_requests;
      [|unfold after_get; cbn [trace]; by rewrite <- app_assoc].
    cbn [app]. by rewrite !requests_cons. }
  destruct d as [chain|e|]; [|right; left; apply Hone..].
  destruct (parse_overrides (Args c) ∅) as [arg|params] eqn:Hp;
    [right; left; apply Hone|].
  destruct (merge_config (Config chain) params) as [config|] eqn:Hm;
    [|right; left; apply Hone].
  pose proof (Marshal_patch_params (Enabled chain) config) as Hbody.
  destruct (json.Marshal (json.Object (patch_params (Enabled chain) config)))
    as [body|] eqn:Hb; [|right; left; apply Hone].
  destruct (json.Marshal (json.Object config)) as [t|] eqn:Ht; [|done].
  injection Hbody as ->.
  right. right. exists r, w1, chain, w2, params, config, t.
  do 5 (split; [done|]).
  match goal with |- context [HTTP_Patch cl ?p ?b w2] =>
    destruct (HTTP_Patch cl p b w2) as [[r2 e2] w3] end.
  cbn [fst snd]. destruct e2 as [e2|]; cbn [fst snd].
  - erewrite finish_requests;
      [|unfold after_patch, after_get; cbn [trace]; by rewrite <- !app_assoc].
    cbn [app]. by rewrite !requests_cons.
  - match goal with |- context [renderAPIResponse cl r2 ?s] =>
      pose proof (renderAPIResponse_trace cl r2 s) as Htr end.
    erewrite finish_requests;
      [|rewrite Htr; unfold after_patch, after_get; cbn [trace];
        by rewrite <- !app_assoc].
    cbn [app]. by rewrite !requests_cons.
Qed.


Lemma closings_cons (ev : event) (evs : list event) :
  closings (ev :: evs)
  = if is_close ev then ev :: closings evs else closings evs.
Proof.
  unfold closings. rewrite filter_cons.
  destruct (is_close ev); by destruct (decide _).
Qed.

Lemma closings_app (a b : list event) :
  closings (a ++ b) = closings a ++ closings b.
Proof. apply filter_app. Qed.

Lemma closings_BodyClose r (cerrs : list (option error)) :
  closings (BodyClose r <$> cerrs) = BodyClose r <$> cerrs.
Proof.
  induction cerrs as [|ce cerrs IH]; [done|].
  rewrite fmap_cons, closings_cons. cbn [is_close]. by rewrite IH.
Qed.

(** The closings of a run that finishes from [st1], where the variable
    [resp] holds the response [r]. *)
Lemma finish_closings (fr : frame) (st st1 : state (W:=W)) evs r :
  trace st1 = trace st ++ evs -> closings evs = [] ->
  resp (vars fr) = Some r ->
  exists cerrs,
    fst (finish cl fr st1)
    = (if panicking fr then Panicked
       else Returned (foldl multierr.Append (err (vars fr)) cerrs))
    /\ length cerrs = deferred fr
    /\ new_events st (snd (finish cl fr st1)) = evs ++ (BodyClose r <$> cerrs)
    /\ closings (new_events st (snd (finish cl fr st1)))
       = BodyClose r <$> cerrs.
Proof.
  intros Htr Hevs Hr. unfold finish.
  destruct (run_deferred_closes cl (deferred fr) (vars fr) (panicking fr) r st1 Hr)
    as (cerrs & st' & -> & Hlen & Htr' & _).
  exists cerrs. cbn [fst snd]. split; [done|]. split; [done|].
  erewrite new_events_app; [|by rewrite Htr', Htr, <- app_assoc].
  split; [done|]. by rewrite closings_app, Hevs, closings_BodyClose.
Qed.

(** X7: the closures that [ConfigureSolanaChain] defers close the body
    of whatever the variable [resp] holds when they run.  Once the
    PATCH was sent, that is the response of the PATCH: when the PATCH
    returned no response the command panics and closes nothing; when it
    returned one, its body is closed once after a failed PATCH and twice
    after a successful one, and the body of the GET's response is not
    closed. *)
Theorem Configure_closes_what_resp_holds (c : Context) (st : state (W:=W))
  r1 w1 chain w2 params config body r2 e2 w3 :
  String_id c <> EmptyString -> Args c <> [] ->
  HTTP_Get cl (get_path c) (world st) = ((Some r1, None), w1) ->
  decode_resource cl (Some r1) w1 = (Val chain, w2) ->
  parse_overrides (Args c) ∅ = inr params ->
  merge_config (Config chain) params = Some config ->
  json.Marshal (json.Object (patch_params (Enabled chain) config)) = Some body ->
  HTTP_Patch cl (get_path c) body w2 = ((r2, e2), w3) ->
  let run := ConfigureSolanaChain cl c st in
  let new := new_events st (snd run) in
  (r2 = None -> fst run = Panicked /\ closings new = [])
  /\ (forall resp2, r2 = Some resp2 ->
      exists cerrs,
        closings new = BodyClose resp2 <$> cerrs
        /\ length cerrs = match e2 with Some _ => 1%nat | None => 2%nat end
        /\ (resp2 <> r1 -> forall cerr, BodyClose r1 cerr ∉ new)
        /\ (forall e, e2 = Some e ->
            fst run
            = Returned (foldl multierr.Append (Some (New (Error e))) cerrs))).
Proof.
  intros Hid Hargs Hget Hdec Hp Hm Hb Hpatch run new. subst run new.
  rewrite Configure_run,
    (Configure_body_after_GET c st (Some r1) w1 Hid Hargs Hget).
  cbn zeta. rewrite Hdec. cbn [fst snd]. rewrite Hp, Hm, Hb, Hpatch.
  cbn [fst snd].
  set (st2 := after_patch st (get_path c) (Some r1) body w3).
  assert (Htr2 : trace st2
                 = trace st ++ [Request "GET" (get_path c) None;
                                Decode (Some r1);
                                Request "PATCH" (get_path c) (Some body)]).
  { unfold st2, after_patch, after_get. cbn [trace]. by rewrite <- !app_assoc. }
  split.
  - intros ->. destruct e2 as [e2|]; cbn [fst snd].
    + unfold returning. rewrite finish_nil. cbn [fst snd].
      rewrite (new_events_app st st2 _ Htr2).
      split; [reflexivity|]. by rewrite !closings_cons.
    + pose proof (renderAPIResponse_trace cl None st2) as Htr.
      destruct (renderAPIResponse cl None st2) as [o st3]. cbn [fst snd] in *.
      assert (Hf : forall fr, deferred fr = 2%nat -> resp (vars fr) = None ->
                   finish cl fr st3 = (Panicked, st3)).
      { intros [p [r' e'] n] Hn Hr. cbn in *. subst. apply finish_nil. }
      rewrite Hf; [|by destruct o..]. cbn [fst snd].
      rewrite (new_events_app st st3
                 ([Request "GET" (get_path c) None; Decode (Some r1);
                   Request "PATCH" (get_path c) (Some body)]
                  ++ [Decode None]));
        [|by rewrite Htr, Htr2, <- app_assoc].
      split; [reflexivity|]. cbn [app]. by rewrite !closings_cons.
  - intros resp2 ->. destruct e2 as [e2|]; cbn [fst snd].
    + edestruct (finish_closings (returning (Some resp2) (Some (New (Error e2))) 1)
                   st st2) as (cerrs & Ho & Hlen & Hnew & Hcl);
        [exact Htr2|by rewrite !closings_cons|reflexivity|].
      exists cerrs. split; [done|]. split; [done|]. split.
      * intros Hne cerr Hin. rewrite Hnew in Hin.
        apply elem_of_app in Hin as [Hin|Hin].
        { repeat (apply elem_of_cons in Hin as [Hin|Hin]; [discriminate|]).
          by apply elem_of_nil in Hin. }
        apply list_elem_of_fmap in Hin as (? & [= ? _] & _). congruence.
      * intros e [= <-]. exact Ho.
    + pose proof (renderAPIResponse_trace cl (Some resp2) st2) as Htr.
      destruct (renderAPIResponse cl (Some resp2) st2) as [o st3].
      cbn [fst snd] in *.
      edestruct (finish_closings
                   (match o with
                    | Returned e' => returning (Some resp2) e' 2
                    | Panicked => crashing (Some resp2) None 2
                    end) st st3) as (cerrs & Ho & Hlen & Hnew & Hcl);
        [by rewrite Htr, Htr2, <- app_assoc
        |cbn [app]; by rewrite !closings_cons|by destruct o|].
      exists cerrs. split; [done|]. split; [by destruct o|]. split; [|done].
      intros Hne cerr Hin. rewrite Hnew in Hin.
      apply elem_of_app in Hin as [Hin|Hin].
      { cbn [app] in Hin.
        repeat (apply elem_of_cons in Hin as [Hin|Hin]; [discriminate|]).
        by apply elem_of_nil in Hin. }
      apply list_elem_of_fmap in Hin as (? & [= ? _] & _). congruence.
Qed.

End configure_more.

(** ** The overrides and the merge *)

Section override_facts.
Context `{F : Float64}.
Import props cmd errors.

Lemma Cut_Some s sep k raw :
  strings.Cut s sep = Some (k, raw)
  <-> s = k +:+ String sep raw /\ strings.Cut k sep = None.
Proof.
  revert k. induction s as [|c s IH]; intros k; simpl.
  - split; [done|]. intros [H _].
    apply (f_equal String.length) in H. rewrite slength_app in H.
    simpl in H. lia.
  - destruct (Ascii.eqb_spec c sep) as [->|Hc].
    + split.
      * intros [= <- <-]. done.
      * intros [H Hk]. destruct k as [|c' k].
        { rewrite sapp_nil_l in H. by simplify_eq. }
        rewrite sapp_cons in H. injection H as -> ->.
        simpl in Hk. by rewrite Ascii.eqb_refl in Hk.
    + destruct (strings.Cut s sep) as [[k' raw']|] eqn:Hs.
      * split.
        -- intros [= <- <-]. rewrite sapp_cons.
           destruct (proj1 (IH k') eq_refl) as [-> Hk']. split; [done|].
           simpl. destruct (Ascii.eqb_spec c sep); [done|]. by rewrite Hk'.
        -- intros [H Hk]. destruct k as [|c' k].
           { rewrite sapp_nil_l in H. by simplify_eq. }
           rewrite sapp_cons in H. injection H as <- ->.
           simpl in Hk. destruct (Ascii.eqb_spec c sep); [done|].
           destruct (strings.Cut k sep) as [[]|] eqn:Hk2; [done|].
           assert (Some (k', raw') = Some (k, raw)) as [= -> ->]; [|done].
           apply IH. done.
      * split; [done|]. intros [H Hk]. destruct k as [|c' k].
        { rewrite sapp_nil_l in H. by simplify_eq. }
        rewrite sapp_cons in H. injection H as <- ->.
        simpl in Hk. destruct (Ascii.eqb_spec c sep); [done|].
        destruct (strings.Cut k sep) as [[]|] eqn:Hk2; [done|].
        assert (None = Some (k, raw)) as [=]. apply IH. done.
Qed.

(** X9: an argument of [ConfigureSolanaChain] is split at its first [=]:
    the key is the text before it, the value everything after it,
    further [=] included; an argument without [=] is refused.  Neither
    the key nor the value need be non-empty. *)
Theorem parse_override_splits_at_first_separator (arg k : string)
  (v : json.value F) :
  parse_override arg = Some (k, v)
  <-> exists raw, arg = k +:+ String "="%char raw
                  /\ strings.Cut k "=" = None
                  /\ v = stored raw.
Proof.
  unfold parse_override, strings.SplitN2, stored.
  destruct (strings.Cut arg "=") as [[k' raw']|] eqn:Hc.
  - apply Cut_Some in Hc as [-> Hk']. split.
    + intros [= <- <-]. by exists raw'.
    + intros (raw & Heq & Hk & ->).
      assert (strings.Cut (k' +:+ String "=" raw') "=" = Some (k, raw)) as Hc
        by (apply Cut_Some; done).
      assert (strings.Cut (k' +:+ String "=" raw') "=" = Some (k', raw')) as Hc'
        by (apply Cut_Some; done).
      rewrite Hc in Hc'. by injection Hc' as -> ->.
  - split; [done|]. intros (raw & -> & Hk & _).
    assert (strings.Cut (k +:+ String "=" raw) "=" = Some (k, raw)) as Hc'
      by (apply Cut_Some; done).
    congruence.
Qed.

Lemma parse_override_stored (arg k : string) (v : json.value F) :
  parse_override arg = Some (k, v) -> exists raw, v = stored raw.
Proof.
  unfold parse_override, strings.SplitN2, stored.
  destruct (strings.Cut arg "=") as [[k' raw']|]; [|done].
  intros [= <- <-]. by exists raw'.
Qed.

(** The loop of [ConfigureSolanaChain] as one pass of assignments. *)
Lemma parse_overrides_assign args (m params : gmap string (json.value F)) :
  parse_overrides args m = inr params
  <-> exists kvs, Forall2 (fun a kv => parse_override a = Some kv) args kvs
                  /\ params = json.assign_all m kvs.
Proof.
  revert m. induction args as [|a args IH]; intros m; simpl.
  - split.
    + intros [= <-]. exists []. split; [constructor|done].
    + intros (kvs & H & ->). inversion H. done.
  - destruct (parse_override a) as [[k v]|] eqn:Ha.
    + rewrite IH. split.
      * intros (kvs & H & ->). exists ((k, v) :: kvs). split; [by constructor|done].
      * intros (kvs & H & ->). inversion H as [|? kv ? kvs' Hkv Hrest]; subst.
        rewrite Ha in Hkv. injection Hkv as <-. by exists kvs'.
    + split; [done|]. intros (kvs & H & _). inversion H; congruence.
Qed.

Lemma assign_all_lookup_last (m : gmap string (json.value F)) kvs1 k v kvs2 :
  Forall (fun kv => kv.1 <> k) kvs2 ->
  json.assign_all m (kvs1 ++ (k, v) :: kvs2) !! k = Some v.
Proof.
  intros H. unfold json.assign_all. rewrite foldl_app. simpl.
  generalize (foldl (fun acc kv => <[kv.1:=kv.2]> acc) m kvs1). intros m'.
  assert (Hm : <[k:=v]> m' !! k = Some v) by apply lookup_insert_eq.
  revert Hm. generalize (<[k:=v]> m'). clear m'.
  induction H as [|[k' v'] kvs2 Hk _ IH]; intros m' Hm; simpl; [done|].
  apply IH. simpl in Hk. by rewrite lookup_insert_ne.
Qed.

Lemma assign_all_lookup_other (m : gmap string (json.value F)) kvs k :
  Forall (fun kv => kv.1 <> k) kvs ->
  json.assign_all m kvs !! k = m !! k.
Proof.
  intros H. revert m. induction H as [|[k' v'] kvs Hk _ IH]; intros m; simpl; [done|].
  rewrite IH. simpl in Hk. by rewrite lookup_insert_ne.
Qed.

(** X10: the loop over the arguments keeps, for each key, the value of
    the last argument with that key, and holds no other key. *)
Theorem parse_overrides_last_wins args (params : gmap string (json.value F)) :
  parse_overrides args ∅ = inr params ->
  (forall pre a post k v,
      args = pre ++ a :: post ->
      parse_override a = Some (k, v) ->
      Forall (fun a' => forall v', parse_override a' <> Some (k, v')) post ->
      params !! k = Some v)
  /\ (forall k,
        Forall (fun a => forall v, parse_override a <> Some (k, v)) args ->
        params !! k = None).
Proof.
  intros H. apply parse_overrides_assign in H as (kvs & Hkvs & ->). split.
  - intros pre a post k v -> Ha Hpost.
    apply Forall2_app_inv_l in Hkvs as (kvs1 & kvs2' & H1 & H2 & ->).
    inversion H2 as [|? kv ? kvs2 Hkv H2']; subst.
    rewrite Ha in Hkv. injection Hkv as <-.
    apply assign_all_lookup_last.
    clear -Hpost H2'.
    induction H2' as [|a' [k' v'] post kvs2 Ha' _ IH]; [constructor|].
    apply Forall_cons in Hpost as [Hp Hpost]. constructor; [|by apply IH].
    simpl. intros ->. by apply (Hp v').
  - intros k Hall. rewrite assign_all_lookup_other; [done|].
    clear -Hall Hkvs.
    induction Hkvs as [|a' [k' v'] post kvs2 Ha' _ IH]; [constructor|].
    apply Forall_cons in Hall as [Hp Hall]. constructor; [|by apply IH].
    simpl. intros ->. by apply (Hp v').
Qed.

End override_facts.

Section merge_facts.
Context `{F : Float64}.
Import props cmd errors.

Lemma assign_all_snoc (m : gmap string (json.value F)) kvs k v :
  json.assign_all m (kvs ++ [(k, v)]) = <[k:=v]> (json.assign_all m kvs).
Proof. unfold json.assign_all. by rewrite foldl_app. Qed.

(** Assigning the entries of a map one after the other lays the map
    over the target. *)
Lemma assign_all_map_to_list (m o : gmap string (json.value F)) :
  json.assign_all m (map_to_list o) = o ∪ m.
Proof.
  apply map_eq. intros k.
  destruct (o !! k) as [v|] eqn:Hk.
  - rewrite (lookup_union_Some_l _ _ _ _ Hk).
    apply elem_of_map_to_list in Hk.
    apply list_elem_of_split in Hk as (l1 & l2 & Hl).
    rewrite Hl. apply assign_all_lookup_last.
    pose proof (NoDup_fst_map_to_list o) as Hnd. rewrite Hl in Hnd.
    rewrite fmap_app, fmap_cons in Hnd. apply NoDup_app in Hnd as (_ & _ & Hnd).
    apply NoDup_cons in Hnd as [Hnd _].
    apply Forall_forall. intros [k' v'] Hin Heq. simpl in Heq. subst.
    apply Hnd. apply list_elem_of_fmap. by exists (k, v').
  - rewrite lookup_union_r by done.
    apply assign_all_lookup_other.
    apply Forall_forall. intros [k' v'] Hin Heq. simpl in Heq. subst.
    apply elem_of_map_to_list in Hin. congruence.
Qed.

(** A text that starts with an opening brace decodes to an object. *)
Lemma parse_text_object (t : string) (v : json.value F) :
  json.parse_text (String "{" t) = Some v -> exists o, v = json.Object o.
Proof.
  unfold json.parse_text.
  change (jsontext.skip_space (String "{" t)) with (String "{" t).
  assert (exists n, json.fuel_for (String "{" t) = S n) as [n ->].
  { unfold json.fuel_for. exists (2 * String.length (String "{" t) + 1)%nat. lia. }
  cbn [json.parse_value]. change (Ascii.eqb "{" "{") with true. cbn match.
  intros H. repeat case_match; simplify_eq; eauto.
Qed.

Lemma Marshal_object_head (m : gmap string (json.value F)) t :
  json.Marshal (json.Object m) = Some t -> exists t', t = String "{" t'.
Proof.
  cbn [json.Marshal]. destruct (map_fold _ _ m); [|done].
  intros [= <-]. by eexists.
Qed.

Lemma merge_config_union (config params : gmap string (json.value F)) :
  merge_config config params = (fun o => o ∪ config) <$> decoded_updates params.
Proof.
  unfold merge_config, decoded_updates, json.Unmarshal_map, json.Unmarshal.
  destruct (json.Marshal (json.Object params)) as [t|] eqn:Ht; [|done].
  destruct (Marshal_object_head _ _ Ht) as [t' ->].
  destruct (json.parse_text (String "{" t')) as [v|] eqn:Hv; [|done].
  destruct (parse_text_object _ _ Hv) as [o ->]. cbn.
  by rewrite assign_all_map_to_list.
Qed.

(** X11: the merge of [ConfigureSolanaChain] lays the updates, as they
    come back from their JSON encoding, over the existing
    configuration, at the top level only; it fails exactly when the
    updates do not come back from their encoding. *)
Theorem merge_config_overlays (config params : gmap string (json.value F)) :
  merge_config config params = (fun o => o ∪ config) <$> decoded_updates params.
Proof.
  unfold merge_config, decoded_updates, json.Unmarshal_map, json.Unmarshal.
  destruct (json.Marshal (json.Object params)) as [t|] eqn:Ht; [|done].
  destruct (Marshal_object_head _ _ Ht) as [t' ->].
  destruct (json.parse_text (String "{" t')) as [v|] eqn:Hv; [|done].
  destruct (parse_text_object _ _ Hv) as [o ->]. cbn.
  by rewrite assign_all_map_to_list.
Qed.

(** X12: a merge that succeeds removes no field of the configuration:
    every key the configuration had is still there; a key of the
    decoded updates holds the value of the updates, whole, and every
    other key holds what it held before. *)
Theorem merge_config_keeps_fields (config params merged : gmap string (json.value F)) :
  merge_config config params = Some merged ->
  (forall k, is_Some (config !! k) -> is_Some (merged !! k))
  /\ (exists o, decoded_updates params = Some o
                /\ (forall k v, o !! k = Some v -> merged !! k = Some v)
                /\ (forall k, o !! k = None -> merged !! k = config !! k)).
Proof.
  rewrite merge_config_union.
  destruct (decoded_updates params) as [o|]; [|done]. intros [= <-]. split.
  - intros k [v Hk]. destruct (o !! k) as [v'|] eqn:Ho.
    + exists v'. by apply lookup_union_Some_l.
    + exists v. by rewrite lookup_union_r.
  - exists o. split; [done|]. split.
    + intros k v Hk. by apply lookup_union_Some_l.
    + intros k Hk. by rewrite lookup_union_r.
Qed.

(** X13: merging the same updates a second time changes nothing. *)
Theorem merge_config_idempotent (config params merged : gmap string (json.value F)) :
  merge_config config params = Some merged ->
  merge_config merged params = Some merged.
Proof.
  rewrite !merge_config_union.
  destruct (decoded_updates params) as [o|]; [|done]. intros [= <-]. cbn.
  by rewrite (assoc_L (∪)), (idemp_L (∪)).
Qed.

End merge_facts.

Section marshal_facts.
Context `{F : Float64} `{!Float64Laws F}.
Import props cmd errors.

Lemma stored_encodable (raw : string) : encodable (stored (F:=F) raw).
Proof.
  unfold stored. destruct (json.Unmarshal raw) as [v|] eqn:Hv; [|done].
  eapply built_encodable. by eapply Unmarshal_built.
Qed.

Lemma encodable_Object (m : gmap string (json.value F)) :
  encodable (json.Object m) <-> map_Forall (fun _ v => encodable v) m.
Proof.
  unfold encodable. rewrite all_values_Object. unfold map_Forall. naive_solver.
Qed.

(** X14: of the three JSON steps of [ConfigureSolanaChain], the two
    encodings cannot fail: the updates the loop built always encode, and
    so does the body of the PATCH when the configuration of the chain
    encodes (as one decoded from JSON does).  Only the decoding of the
    updates onto the configuration can fail. *)
Theorem Configure_encodings_cannot_fail (args : list string)
  (config params merged : gmap string (json.value F)) (enabled : bool) :
  parse_overrides args ∅ = inr params ->
  is_Some (json.Marshal (json.Object params))
  /\ (encodable (json.Object config) ->
      merge_config config params = Some merged ->
      is_Some (json.Marshal (json.Object (patch_params enabled merged)))).
Proof.
  intros Hp. split.
  - apply parse_overrides_assign in Hp as (kvs & Hkvs & ->).
    rewrite Marshal_encodable; [eauto|].
    apply encodable_Object, assign_all_Forall; [apply map_Forall_empty|].
    clear -Hkvs Float64Laws0.
    induction Hkvs as [|a [k v] args kvs Ha _ IH]; constructor; [|done].
    apply parse_override_stored in Ha as (raw & ->).
    apply stored_encodable.
  - intros Hc Hm. rewrite Marshal_patch_params.
    rewrite merge_config_union in Hm.
    unfold decoded_updates in Hm.
    destruct (json.Marshal (json.Object params)) as [t|]; [|done].
    destruct (json.Unmarshal t) as [[| | | | |o]|] eqn:Ho; try done.
    cbn in Hm. injection Hm as <-.
    rewrite Marshal_encodable; [eauto|].
    apply encodable_Object. apply encodable_Object in Hc.
    apply Unmarshal_built, built_encodable, encodable_Object in Ho.
    intros k v Hk. apply lookup_union_Some_raw in Hk as [Hk|[_ Hk]].
    + by apply (Ho k).
    + by apply (Hc k).
Qed.

End marshal_facts.

(** ** Edge cases of the tables, and errors of the deferred closings *)

Section table_edges.
Context `{F : Float64} `{T : TimeOps}.
Import props cmd errors.

Lemma collect_rows_None (ps : SolanaChainPresenters) acc p :
  p ∈ ps -> ToRow p = None -> collect_rows acc ps = None.
Proof.
  intros Hin Hp. revert acc.
  induction ps as [|q ps IH]; intros acc; [by apply elem_of_nil in Hin|].
  cbn [collect_rows].
  apply elem_of_cons in Hin as [->|Hin]; [by rewrite Hp|].
  destruct (ToRow q); [by apply IH|done].
Qed.

(** X15: rendering a collection is all or nothing: when the
    configuration of one member does not encode, [RenderTable] panics
    before anything is written, and the sink is left as it was, without
    the header and without the rows of the members before it. *)
Theorem RenderTables_writes_nothing_on_panic (ps : SolanaChainPresenters)
  (p : SolanaChainPresenter) (rt : RendererTable) :
  p ∈ ps -> ToRow p = None ->
  RenderTables ps rt = (Panicked, rt_Writer rt).
Proof.
  intros Hin Hp. unfold RenderTables. by rewrite (collect_rows_None ps [] p).
Qed.

(** X16: rendering one presenter is rendering the collection that holds
    just it; the empty collection is rendered as the header row alone. *)
Theorem RenderTable_is_RenderTables_of_one (p : SolanaChainPresenter)
  (rt : RendererTable) :
  RenderTable p rt = RenderTables [p] rt
  /\ RenderTables [] rt
     = (Returned None, fst (Write (rt_Writer rt) headers)).
Proof.
  split; [|reflexivity].
  unfold RenderTable, RenderTables. simpl. by destruct (ToRow p).
Qed.

End table_edges.

Section aggregation.
Context `{F : Float64} `{T : TimeOps} {W : Type} (cl : cmd.Client W).
Import props cmd errors.

Lemma Create_run (c : Context) (st : state (W:=W)) :
  CreateSolanaChain cl c st
  = finish cl (fst (CreateSolanaChain_body cl c st))
      (snd (CreateSolanaChain_body cl c st)).
Proof.
  unfold CreateSolanaChain, bind. by destruct (CreateSolanaChain_body cl c st).
Qed.

(** X17: in [CreateSolanaChain] and [ConfigureSolanaChain], when the body
    of the command returned the error [e] and a deferred closing then
    reports the error [cerr], the command returns one error whose
    message holds the message of [e] and the message of [cerr]. *)
Theorem deferred_close_keeps_both_errors (c : Context) (st : state (W:=W))
  (create : bool) e r cerr :
  let body := if create then CreateSolanaChain_body cl c st
              else ConfigureSolanaChain_body cl c st in
  let run := if create then CreateSolanaChain cl c st
             else ConfigureSolanaChain cl c st in
  panicking (fst body) = false ->
  err (vars (fst body)) = Some e ->
  BodyClose r (Some cerr) ∈ new_events (snd body) (snd run) ->
  exists E, fst run = Returned (Some E)
            /\ contains (Error E) (Error e)
            /\ contains (Error E) (Error cerr).
Proof.
  intros body run Hp He Hin. subst body run.
  destruct create.
  - rewrite Create_run in *.
    destruct (finish cl _ _) as [o st'] eqn:Hf.
    destruct (finish_keeps_both cl _ _ _ _ _ _ _ Hp He Hf Hin) as (E & -> & ?).
    by exists E.
  - rewrite Configure_run in *.
    destruct (finish cl _ _) as [o st'] eqn:Hf.
    destruct (finish_keeps_both cl _ _ _ _ _ _ _ Hp He Hf Hin) as (E & -> & ?).
    by exists E.
Qed.

(** X8: when [ConfigureSolanaChain] got a response to its GET and then
    sends no PATCH, it closes the body of that response once, and it
    does not succeed.  What it returns is the error of the step that
    failed, with a failure of the closing appended: the error of the
    decoding; [invalid parameter: ] with the first argument without
    [=]; or the error of the JSON step (the merge, or the encoding of
    the PATCH body).  A decoding that panics makes the command panic. *)
Theorem Configure_without_PATCH_closes_the_GET (c : Context)
  (st : state (W:=W)) r1 w1 :
  String_id c <> EmptyString -> Args c <> [] ->
  HTTP_Get cl (get_path c) (world st) = ((Some r1, None), w1) ->
  let run := ConfigureSolanaChain cl c st in
  let new := new_events st (snd run) in
  requests new = [Request "GET" (get_path c) None] ->
  let decoded := decode_resource cl (Some r1) w1 in
  let cerr := fst (Body_Close cl r1 (snd decoded)) in
  closings new = [BodyClose r1 cerr]
  /\ ((fst decoded = Crash /\ fst run = Panicked)
      \/ (exists e, fst decoded = Err e
          /\ fst run = Returned (multierr.Append (Some (New (Error e))) cerr))
      \/ (exists chain bad,
            fst decoded = Val chain
            /\ parse_overrides (Args c) ∅ = inl bad
            /\ first_unsplit (Args c) = Some bad
            /\ fst run = Returned (multierr.Append
                           (Some (New ("invalid parameter: " +:+ bad))) cerr))
      \/ (exists chain params,
            fst decoded = Val chain
            /\ parse_overrides (Args c) ∅ = inr params
            /\ (merge_config (Config chain) params = None
                \/ exists config,
                     merge_config (Config chain) params = Some config
                     /\ json.Marshal
                          (json.Object (patch_params (Enabled chain) config))
                        = None)
            /\ fst run = Returned (multierr.Append
                           (Some (New (Error json_error))) cerr))).
Proof.
  intros Hid Hargs Hget run new. subst run new.
  rewrite Configure_run,
    (Configure_body_after_GET cl c st (Some r1) w1 Hid Hargs Hget).
  cbn zeta.
  destruct (decode_resource cl (Some r1) w1) as [d w2] eqn:Hdec. cbn [fst snd].
  assert (Hone : forall e,
             fst (finish cl (returning (Some r1) e 1)
                    (after_get st (get_path c) (Some r1) w2))
             = Returned (multierr.Append e (fst (Body_Close cl r1 w2)))
             /\ closings (new_events st (snd (finish cl (returning (Some r1) e 1)
                    (after_get st (get_path c) (Some r1) w2))))
                = [BodyClose r1 (fst (Body_Close cl r1 w2))]).
  { intros e. rewrite finish_one. cbn [fst snd world trace].
    split; [done|].
    erewrite new_events_app;
      [|unfold after_get; cbn [trace]; by rewrite <- !app_assoc].
    cbn [app]. by rewrite !closings_cons. }
  destruct d as [chain|e|].
  2:{ intros _. destruct (Hone (Some (New (Error e)))) as [H1 H2].
      split; [exact H2|]. right. left. exists e. split; [reflexivity|exact H1]. }
  2:{ intros _. cbn [fst snd]. rewrite finish_one_crashing.
      cbn [fst snd world trace].
      split; [|by left].
      erewrite new_events_app;
        [|unfold after_get; cbn [trace]; by rewrite <- !app_assoc].
      cbn [app]. by rewrite !closings_cons. }
  destruct (parse_overrides (Args c) ∅) as [bad|params] eqn:Hp.
  { intros _.
    destruct (Hone (Some (New ("invalid parameter: " +:+ bad)))) as [H1 H2].
    split; [exact H2|]. right. right. left. exists chain, bad.
    split; [reflexivity|]. split; [reflexivity|]. split; [|exact H1].
    clear -Hp. revert Hp. generalize (∅ : gmap string (json.value F)).
    induction (Args c) as [|a args IH]; intros m Hp; [done|].
    simpl in *. unfold parse_override, strings.SplitN2 in Hp.
    destruct (strings.Cut a "=") as [[k raw]|]; [by eapply IH|congruence]. }
  destruct (merge_config (Config chain) params) as [config|] eqn:Hm.
  2:{ intros _. destruct (Hone (Some (New (Error json_error)))) as [H1 H2].
      split; [exact H2|]. right. right. right. exists chain, params.
      split; [reflexivity|]. split; [reflexivity|].
      split; [left; exact Hm|exact H1]. }
  destruct (json.Marshal (json.Object (patch_params (Enabled chain) config)))
    as [body|] eqn:Hb.
  2:{ intros _. destruct (Hone (Some (New (Error json_error)))) as [H1 H2].
      split; [exact H2|]. right. right. right. exists chain, params.
      split; [reflexivity|]. split; [reflexivity|].
      split; [right; exists config; split; [exact Hm|exact Hb]|exact H1]. }
  destruct (HTTP_Patch cl (get_path c) body w2) as [[r2 e2] w3].
  cbn [fst snd]. destruct e2 as [e2|]; cbn [fst snd].
  - erewrite finish_requests;
      [|unfold after_patch, after_get; cbn [trace]; by rewrite <- !app_assoc].
    cbn [app]. rewrite !requests_cons. cbn [is_request]. discriminate.
  - match goal with |- context [renderAPIResponse cl r2 ?s] =>
      pose proof (renderAPIResponse_trace cl r2 s) as Htr end.
    erewrite finish_requests;
      [|rewrite Htr; unfold after_patch, after_get; cbn [trace];
        by rewrite <- !app_assoc].
    cbn [app]. rewrite !requests_cons. cbn [is_request]. discriminate.
Qed.

End aggregation.

(** ** Reading back what the encoder wrote *)

Opaque json.maxNestingDepth.

Section utf8_facts.
Import props.

Lemma byte_val_lt (c : ascii) : byte_val c < 256.
Proof. apply N_ascii_bounded. Qed.

Lemma byte_of_val (c : ascii) : byte_of (byte_val c) = c.
Proof. apply ascii_N_embedding. Qed.

Lemma byte_val_of (n : N) : n < 256 -> byte_val (byte_of n) = n.
Proof. apply N_ascii_embedding. Qed.

Lemma sdrop_nil n : sdrop n EmptyString = EmptyString.
Proof. by destruct n. Qed.

Lemma sdrop_app (a b : string) : sdrop (String.length a) (a +:+ b) = b.
Proof. induction a as [|c a IH]; [done|]. by rewrite sapp_cons. Qed.

Lemma sdrop_length n s :
  (n <= String.length s)%nat ->
  String.length (sdrop n s) = (String.length s - n)%nat.
Proof.
  revert s. induction n as [|n IH]; intros [|c s] H; simpl in *; try lia.
  apply IH. lia.
Qed.

Lemma Valid_go_sdrop k s : utf8.Valid_go k s = utf8.Valid_go 0 (sdrop k s).
Proof.
  revert s. induction k as [|k IH]; intros s; [done|].
  destruct s as [|c t]; [done|]. simpl. apply IH.
Qed.

Lemma encode_chars_sdrop k s :
  jsontext.encode_chars k s = jsontext.encode_chars 0 (sdrop k s).
Proof.
  revert s. induction k as [|k IH]; intros s; [done|].
  destruct s as [|c t]; [done|]. simpl. apply IH.
Qed.

Lemma unquote_chars_sdrop k s :
  jsontext.unquote_chars k s = jsontext.unquote_chars 0 (sdrop k s).
Proof.
  revert s. induction k as [|k IH]; intros s; [done|].
  destruct s as [|c t]; [done|]. simpl. apply IH.
Qed.

End utf8_facts.

Ltac ranges :=
  unfold in_range in *;
  repeat match goal with
  | H : _ && _ = true |- _ => apply andb_true_iff in H as [? ?]
  | H : (_ <=? _) = true |- _ => apply N.leb_le in H
  | H : (_ <=? _) = false |- _ => apply N.leb_gt in H
  | H : (_ <? _) = true |- _ => apply N.ltb_lt in H
  | H : (_ <? _) = false |- _ => apply N.ltb_ge in H
  | H : (_ =? _) = true |- _ => apply N.eqb_eq in H
  | H : (_ =? _) = false |- _ => apply N.eqb_neq in H
  end.

Ltac div_lia := zify; Z.to_euclidean_division_equations; lia.

(** Decides a comparison of the goal from the hypotheses. *)
Ltac decide_cmp :=
  repeat match goal with
  | |- context [?a <? ?b] =>
    first [ replace (a <? b) with true by (symmetry; apply N.ltb_lt; div_lia)
          | replace (a <? b) with false by (symmetry; apply N.ltb_ge; div_lia) ]
  | |- context [?a <=? ?b] =>
    first [ replace (a <=? b) with true by (symmetry; apply N.leb_le; div_lia)
          | replace (a <=? b) with false by (symmetry; apply N.leb_gt; div_lia) ]
  | |- context [?a =? ?b] =>
    first [ replace (a =? b) with true by (symmetry; apply N.eqb_eq; div_lia)
          | replace (a =? b) with false by (symmetry; apply N.eqb_neq; div_lia) ]
  end.

Section decode.
Import props.


Lemma seq_len_cases b0 b1 b2 b3 :
  match utf8.seq_len b0 b1 b2 b3 with
  | 0%nat => True
  | 1%nat => b0 < 0x80
  | 2%nat => wf2 b0 b1
  | 3%nat => wf3 b0 b1 b2
  | 4%nat => wf4 b0 b1 b2 b3
  | _ => False
  end.
Proof.
  unfold utf8.seq_len, wf2, wf3, wf4.
  repeat case_match; ranges; try done; try lia.
Qed.

Lemma seq_len_2 b0 b1 b2 b3 : wf2 b0 b1 -> utf8.seq_len b0 b1 b2 b3 = 2%nat.
Proof. unfold wf2, utf8.seq_len, in_range. intros. decide_cmp; reflexivity. Qed.

Lemma seq_len_3 b0 b1 b2 b3 : wf3 b0 b1 b2 -> utf8.seq_len b0 b1 b2 b3 = 3%nat.
Proof.
  unfold wf3, utf8.seq_len, in_range. intros (?&?&?&?&?).
  destruct (N.eqb_spec b0 0xE0); destruct (N.eqb_spec b0 0xED);
    try (exfalso; lia); decide_cmp; reflexivity.
Qed.

Lemma seq_len_4 b0 b1 b2 b3 : wf4 b0 b1 b2 b3 -> utf8.seq_len b0 b1 b2 b3 = 4%nat.
Proof.
  unfold wf4, utf8.seq_len, in_range. intros (?&?&?&?&?&?).
  destruct (N.eqb_spec b0 0xF0); destruct (N.eqb_spec b0 0xF4);
    try (exfalso; lia); decide_cmp; reflexivity.
Qed.

Lemma EncodeRune_2 b0 b1 :
  wf2 b0 b1 -> utf8.EncodeRune (utf8.seq_rune 2 b0 b1 0 0) = bytes [b0; b1].
Proof.
  unfold wf2, utf8.EncodeRune, utf8.seq_rune. intros.
  decide_cmp. cbn [bytes foldr]. repeat f_equal; div_lia.
Qed.

Lemma EncodeRune_3 b0 b1 b2 :
  wf3 b0 b1 b2 -> utf8.EncodeRune (utf8.seq_rune 3 b0 b1 b2 0) = bytes [b0; b1; b2].
Proof.
  unfold wf3, utf8.EncodeRune, utf8.seq_rune, utf8.is_surrogate, utf8.MaxRune, in_range.
  intros (?&?&?&?&?).
  assert (b0 = 0xE0 \/ 0xE0 < b0 < 0xED \/ b0 = 0xED \/ 0xED < b0)
    as [?|[?|[?|?]]] by lia;
    decide_cmp; cbn [orb andb bytes foldr]; repeat f_equal; div_lia.
Qed.

Lemma EncodeRune_4 b0 b1 b2 b3 :
  wf4 b0 b1 b2 b3 ->
  utf8.EncodeRune (utf8.seq_rune 4 b0 b1 b2 b3) = bytes [b0; b1; b2; b3].
Proof.
  unfold wf4, utf8.EncodeRune, utf8.seq_rune, utf8.is_surrogate, utf8.MaxRune, in_range.
  intros (?&?&?&?&?&?).
  destruct (N.eq_dec b0 0xF0); destruct (N.eq_dec b0 0xF4);
    try (exfalso; lia); decide_cmp; cbn [orb andb bytes foldr]; repeat f_equal; div_lia.
Qed.

End decode.

Section decode_rune.
Import props.

Lemma bytes_vals2 c0 c1 : bytes [byte_val c0; byte_val c1] = String c0 (String c1 EmptyString).
Proof. cbn. by rewrite !byte_of_val. Qed.
Lemma bytes_vals3 c0 c1 c2 :
  bytes [byte_val c0; byte_val c1; byte_val c2]
  = String c0 (String c1 (String c2 EmptyString)).
Proof. cbn. by rewrite !byte_of_val. Qed.
Lemma bytes_vals4 c0 c1 c2 c3 :
  bytes [byte_val c0; byte_val c1; byte_val c2; byte_val c3]
  = String c0 (String c1 (String c2 (String c3 EmptyString))).
Proof. cbn. by rewrite !byte_of_val. Qed.

(** A well-formed sequence of more than one byte at the head of a
    string: it is the encoding of the rune it decodes to, and it decodes
    the same whatever follows it. *)
Lemma DecodeRune_wide c t r n :
  utf8.DecodeRune (String c t) = (r, n) ->
  0x80 <= byte_val c ->
  ~ (n = 1%nat /\ r = utf8.RuneError) ->
  (2 <= n <= 4)%nat
  /\ String.length (utf8.EncodeRune r) = n
  /\ String c t = utf8.EncodeRune r +:+ sdrop n (String c t)
  /\ (forall x, utf8.DecodeRune (utf8.EncodeRune r +:+ x) = (r, n))
  /\ (exists e, utf8.EncodeRune r = String c e)
  /\ (forall i ch, String.get i (utf8.EncodeRune r) = Some ch ->
                   0x80 <= byte_val ch).
Proof.
  intros H Hc Hv. unfold utf8.DecodeRune in H.
  pose proof (seq_len_cases (byte_val c) (utf8.nth_byte (String c t) 1)
                (utf8.nth_byte (String c t) 2) (utf8.nth_byte (String c t) 3)) as Hw.
  destruct (utf8.seq_len _ _ _ _) as [|[|[|[|[|k]]]]] eqn:Hn;
    try (injection H as <- <-; try done; exfalso; lia).
  - destruct t as [|c1 t1]; [unfold wf2, utf8.nth_byte in Hw; simpl in Hw; lia|].
    change (utf8.nth_byte (String c (String c1 t1)) 1) with (byte_val c1) in *.
    assert (r = utf8.seq_rune 2 (byte_val c) (byte_val c1) 0 0 /\ n = 2%nat)
      as [-> ->] by (by injection H as <- <-).
    rewrite (EncodeRune_2 _ _ Hw), bytes_vals2.
    split; [lia|]. split; [done|]. split; [done|].
    split; [|split; [by eexists|]].
    2:{ intros i ch. unfold wf2, wf3, wf4 in Hw.
        destruct i as [|[|[|[|i]]]]; simpl; intros [= <-]; lia. }
    intros x. unfold utf8.DecodeRune. rewrite !sapp_cons.
    change (utf8.nth_byte (String c (String c1 ?y)) 1) with (byte_val c1).
    by rewrite (seq_len_2 _ _ _ _ Hw).
  - destruct t as [|c1 [|c2 t2]];
      [unfold wf3, utf8.nth_byte in Hw; simpl in Hw; lia..|].
    change (utf8.nth_byte (String c (String c1 (String c2 t2))) 1)
      with (byte_val c1) in *.
    change (utf8.nth_byte (String c (String c1 (String c2 t2))) 2)
      with (byte_val c2) in *.
    assert (r = utf8.seq_rune 3 (byte_val c) (byte_val c1) (byte_val c2) 0
            /\ n = 3%nat) as [-> ->] by (by injection H as <- <-).
    rewrite (EncodeRune_3 _ _ _ Hw), bytes_vals3.
    split; [lia|]. split; [done|]. split; [done|].
    split; [|split; [by eexists|]].
    2:{ intros i ch. unfold wf2, wf3, wf4 in Hw.
        destruct i as [|[|[|[|i]]]]; simpl; intros [= <-]; lia. }
    intros x. unfold utf8.DecodeRune. rewrite !sapp_cons.
    change (utf8.nth_byte (String c (String c1 (String c2 ?y))) 1) with (byte_val c1).
    change (utf8.nth_byte (String c (String c1 (String c2 ?y))) 2) with (byte_val c2).
    by rewrite (seq_len_3 _ _ _ _ Hw).
  - destruct t as [|c1 [|c2 [|c3 t3]]];
      [unfold wf4, utf8.nth_byte in Hw; simpl in Hw; lia..|].
    change (utf8.nth_byte (String c (String c1 (String c2 (String c3 t3)))) 1)
      with (byte_val c1) in *.
    change (utf8.nth_byte (String c (String c1 (String c2 (String c3 t3)))) 2)
      with (byte_val c2) in *.
    change (utf8.nth_byte (String c (String c1 (String c2 (String c3 t3)))) 3)
      with (byte_val c3) in *.
    assert (r = utf8.seq_rune 4 (byte_val c) (byte_val c1) (byte_val c2)
                  (byte_val c3)
            /\ n = 4%nat) as [-> ->] by (by injection H as <- <-).
    rewrite (EncodeRune_4 _ _ _ _ Hw), bytes_vals4.
    split; [lia|]. split; [done|]. split; [done|].
    split; [|split; [by eexists|]].
    2:{ intros i ch. unfold wf2, wf3, wf4 in Hw.
        destruct i as [|[|[|[|i]]]]; simpl; intros [= <-]; lia. }
    intros x. unfold utf8.DecodeRune. rewrite !sapp_cons.
    change (utf8.nth_byte (String c (String c1 (String c2 (String c3 ?y)))) 1)
      with (byte_val c1).
    change (utf8.nth_byte (String c (String c1 (String c2 (String c3 ?y)))) 2)
      with (byte_val c2).
    change (utf8.nth_byte (String c (String c1 (String c2 (String c3 ?y)))) 3)
      with (byte_val c3).
    by rewrite (seq_len_4 _ _ _ _ Hw).
Qed.

(** A byte below [RuneSelf] at the head decodes to itself. *)
Lemma DecodeRune_ascii c t :
  byte_val c < 0x80 -> utf8.DecodeRune (String c t) = (byte_val c, 1%nat).
Proof.
  intros H. unfold utf8.DecodeRune, utf8.seq_len.
  apply N.ltb_lt in H. by rewrite H.
Qed.

End decode_rune.

Section quote_facts.
Import props.

(** What the encoder writes for a byte below [RuneSelf] is read back as
    that byte. *)
Lemma unquote_ascii c x :
  byte_val c < 0x80 ->
  jsontext.unquote_chars 0
    ((if jsontext.htmlSafe (byte_val c) then String c EmptyString
      else jsontext.escape_byte c) +:+ x)
  = jsontext.prepend (String c EmptyString) (jsontext.unquote_chars 0 x).
Proof.
  intros H.
  destruct c as [[] [] [] [] [] [] [] []];
    try (exfalso; vm_compute in H; discriminate H); reflexivity.
Qed.

End quote_facts.

Section quote_round_trip.
Import props.

Lemma substring_app_l (a b : string) :
  String.substring 0 (String.length a) (a +:+ b) = a.
Proof.
  induction a as [|c a IH]; [by destruct b|].
  rewrite sapp_cons. simpl. by rewrite IH.
Qed.

Lemma wide_not_special c :
  0x80 <= byte_val c ->
  Ascii.eqb c "034" = false /\ Ascii.eqb c "\" = false
  /\ (byte_val c <? 0x20) = false /\ (byte_val c <? utf8.RuneSelf) = false.
Proof.
  intros H. repeat split.
  - destruct (Ascii.eqb_spec c "034") as [->|]; [|done]. vm_compute in H. by destruct H.
  - destruct (Ascii.eqb_spec c "\") as [->|]; [|done]. vm_compute in H. by destruct H.
  - apply N.ltb_ge. lia.
  - apply N.ltb_ge. unfold utf8.RuneSelf. lia.
Qed.

(** A well-formed sequence of more than one byte is read back as it is. *)
Lemma unquote_wide r n c e y :
  utf8.EncodeRune r = String c e -> 0x80 <= byte_val c ->
  String.length (utf8.EncodeRune r) = n ->
  (forall x, utf8.DecodeRune (utf8.EncodeRune r +:+ x) = (r, n)) ->
  jsontext.unquote_chars 0 (utf8.EncodeRune r +:+ y)
  = jsontext.prepend (utf8.EncodeRune r) (jsontext.unquote_chars 0 y).
Proof.
  intros He Hc Hlen Hdec.
  pose proof (Hdec y) as Hy. rewrite He in Hy |- *. rewrite sapp_cons in Hy |- *.
  destruct (wide_not_special c Hc) as (H1 & H2 & H3 & H4).
  cbn [jsontext.unquote_chars]. rewrite H1, H2, H3, H4, Hy.
  rewrite unquote_chars_sdrop.
  rewrite He in Hlen. simpl in Hlen. subst n.
  replace (S (String.length e) - 1)%nat with (String.length e) by lia.
  by rewrite sdrop_app, He.
Qed.

Lemma prepend_Some a x rest :
  jsontext.prepend a (Some (x, rest)) = Some (a +:+ x, rest).
Proof. done. Qed.

(** The string written by the encoder between the quotes is read back
    as the string it was written for, when that is well-formed UTF-8. *)
Lemma unquote_encode (s rest : string) :
  utf8.ValidString s = true ->
  jsontext.unquote_chars 0 (jsontext.encode_chars 0 s +:+ String "034" rest)
  = Some (s, rest).
Proof.
  unfold utf8.ValidString.
  remember (String.length s) as len eqn:Hlen. revert s Hlen.
  induction len as [len IH] using lt_wf_ind. intros s -> Hv.
  destruct s as [|c t]; [done|].
  destruct (N.ltb_spec (byte_val c) 0x80) as [Hlt|Hge].
  - cbn [utf8.Valid_go] in Hv. rewrite (DecodeRune_ascii c t Hlt) in Hv.
    cbn [fst snd] in Hv.
    replace (byte_val c =? utf8.RuneError) with false in Hv
      by (symmetry; apply N.eqb_neq; unfold utf8.RuneError; lia).
    cbn in Hv.
    cbn [jsontext.encode_chars]. unfold utf8.RuneSelf.
    replace (byte_val c <? 0x80) with true by (symmetry; by apply N.ltb_lt).
    rewrite sapp_assoc, unquote_ascii by done.
    rewrite (IH (String.length t)); [done|simpl; lia|done|done].
  - cbn [utf8.Valid_go] in Hv.
    destruct (utf8.DecodeRune (String c t)) as [r n] eqn:Hdec.
    cbn [fst snd] in Hv.
    assert (Hnot : ~ (n = 1%nat /\ r = utf8.RuneError)).
    { intros [-> ->]. by rewrite N.eqb_refl in Hv. }
    destruct (DecodeRune_wide c t r n Hdec Hge Hnot)
      as (Hn & Hlen & Hs & Hdec' & (e & He) & _).
    assert (Hv' : utf8.Valid_go 0 (sdrop n (String c t)) = true).
    { destruct n as [|[|n]]; [lia..|].
      cbn [Nat.sub] in Hv.
      replace (S n - 0)%nat with (S n) in Hv by lia.
      rewrite Valid_go_sdrop in Hv. destruct (r =? utf8.RuneError); exact Hv. }
    assert (Hshort : (String.length (sdrop n (String c t)) < String.length (String c t))%nat).
    { apply (f_equal String.length) in Hs. rewrite slength_app in Hs. lia. }
    specialize (IH _ Hshort (sdrop n (String c t)) eq_refl Hv').
    cbn [jsontext.encode_chars]. unfold utf8.RuneSelf.
    replace (byte_val c <? 0x80) with false by (symmetry; by apply N.ltb_ge).
    rewrite Hdec.
    replace ((r =? utf8.RuneError) && Nat.eqb n 1) with false
      by (destruct n as [|[|n]]; [lia| lia|by rewrite andb_false_r]).
    rewrite encode_chars_sdrop.
    replace (sdrop (n - 1) t) with (sdrop n (String c t))
      by (destruct n; [lia|]; simpl; f_equal; lia).
    destruct ((r =? 0x2028) || (r =? 0x2029)) eqn:Hls.
    + rewrite !sapp_assoc.
      assert (jsontext.unquote_chars 0
                ("\u202" +:+ jsontext.hex_digit (r mod 16)
                 +:+ jsontext.encode_chars 0 (sdrop n (String c t))
                 +:+ String "034" rest)
              = jsontext.prepend (utf8.EncodeRune r)
                  (jsontext.unquote_chars 0
                     (jsontext.encode_chars 0 (sdrop n (String c t))
                      +:+ String "034" rest))) as ->.
      { apply orb_true_iff in Hls as [Hr|Hr]; apply N.eqb_eq in Hr; subst r;
          reflexivity. }
      rewrite IH, prepend_Some. by rewrite <- Hs.
    + rewrite Hs at 1. rewrite <- Hlen at 1. rewrite substring_app_l.
      rewrite sapp_assoc.
      rewrite (unquote_wide r n c e); [|done..].
      rewrite IH, prepend_Some. by rewrite <- Hs.
Qed.

End quote_round_trip.

Section number_facts.
Import props.
Import jsontext.

Lemma span_digits_app s ds r rest :
  span_digits s = (ds, r) -> (r = EmptyString -> ends_digits rest) ->
  span_digits (s +:+ rest) = (ds, r +:+ rest).
Proof.
  revert ds r. induction s as [|c t IH]; intros ds r H Hr.
  - injection H as <- <-. rewrite sapp_nil_l.
    specialize (Hr eq_refl). destruct rest as [|c rest]; [done|].
    simpl in *. by rewrite Hr.
  - rewrite sapp_cons. simpl in *. destruct (is_digit c) eqn:Hc.
    + destruct (span_digits t) as [ds' r'] eqn:Ht. injection H as <- <-.
      by rewrite (IH ds' r' eq_refl Hr).
    + injection H as <- <-. by rewrite sapp_cons.
Qed.

Lemma span_digits_sound s ds r : span_digits s = (ds, r) -> s = ds +:+ r.
Proof.
  revert ds r. induction s as [|c t IH]; intros ds r H; simpl in H.
  - by injection H as <- <-.
  - destruct (is_digit c).
    + destruct (span_digits t) as [ds' r'] eqn:Ht. injection H as <- <-.
      by rewrite sapp_cons, <- (IH ds' r').
    + by injection H as <- <-.
Qed.

Lemma digits1_app s ds r rest :
  digits1 s = Some (ds, r) -> (r = EmptyString -> ends_digits rest) ->
  digits1 (s +:+ rest) = Some (ds, r +:+ rest).
Proof.
  unfold digits1. intros H Hr.
  destruct (span_digits s) as [ds' r'] eqn:Hs.
  destruct ds' as [|d ds']; [done|]. injection H as <- <-.
  by rewrite (span_digits_app _ _ _ _ Hs Hr).
Qed.

Lemma digits1_sound s ds r : digits1 s = Some (ds, r) -> s = ds +:+ r.
Proof.
  unfold digits1. destruct (span_digits s) as [ds' r'] eqn:Hs.
  destruct ds'; [done|]. intros [= <- <-]. by apply span_digits_sound.
Qed.

Lemma digits1_head s ds r :
  digits1 s = Some (ds, r) -> exists c t, s = String c t /\ is_digit c = true.
Proof.
  unfold digits1. destruct s as [|c t]; [done|]. simpl.
  destruct (is_digit c) eqn:Hc; [eauto|done].
Qed.

Lemma prepend_inv pre r x rest :
  prepend pre r = Some (x, rest) -> exists y, r = Some (y, rest) /\ x = pre +:+ y.
Proof. destruct r as [[y rest']|]; [|done]. intros [= <- <-]. eauto. Qed.

Lemma scan_int_app s i r rest :
  scan_int s = Some (i, r) -> (r = EmptyString -> ends_digits rest) ->
  scan_int (s +:+ rest) = Some (i, r +:+ rest).
Proof.
  intros H Hr. destruct s as [|c t]; [done|].
  rewrite sapp_cons. unfold scan_int in *.
  destruct (Ascii.eqb_spec c "0") as [->|Hc].
  - by injection H as <- <-.
  - assert (digits1 (String c t) = Some (i, r)) as H'.
    { destruct c as [[] [] [] [] [] [] [] []]; done. }
    assert (forall y, match String c y with
                      | String "0"%char t0 => Some ("0", t0)
                      | _ => digits1 (String c y)
                      end = digits1 (String c y)) as ->.
    { intros y. destruct c as [[] [] [] [] [] [] [] []]; done. }
    rewrite <- sapp_cons. by apply digits1_app.
Qed.

Lemma scan_int_sound s i r : scan_int s = Some (i, r) -> s = i +:+ r.
Proof.
  unfold scan_int. destruct s as [|c t]; [done|].
  destruct (Ascii.eqb_spec c "0") as [->|Hc].
  - by intros [= <- <-].
  - intros H. apply digits1_sound.
    destruct c as [[] [] [] [] [] [] [] []]; done.
Qed.

Lemma scan_int_head s i r :
  scan_int s = Some (i, r) -> exists c t, s = String c t /\ is_digit c = true.
Proof.
  unfold scan_int. destruct s as [|c t]; [done|].
  destruct (Ascii.eqb_spec c "0") as [->|Hc]; [by eauto|].
  intros H. apply (digits1_head _ i r).
  destruct c as [[] [] [] [] [] [] [] []]; done.
Qed.

Lemma ends_number_digits rest : ends_number rest -> ends_digits rest.
Proof. destruct rest; [done|]. by intros [? _]. Qed.

Lemma scan_frac_app s f r rest :
  scan_frac s = Some (f, r) -> (r = EmptyString -> ends_number rest) ->
  scan_frac (s +:+ rest) = Some (f, r +:+ rest).
Proof.
  intros H Hr. destruct s as [|c t].
  - injection H as <- <-. rewrite !sapp_nil_l. specialize (Hr eq_refl).
    destruct rest as [|c rest]; [done|]. destruct Hr as (_ & Hc & _).
    unfold scan_frac. destruct c as [[] [] [] [] [] [] [] []]; done.
  - rewrite sapp_cons. unfold scan_frac in *.
    destruct (Ascii.eqb_spec c ".") as [->|Hc].
    + apply prepend_inv in H as (y & Hy & ->).
      rewrite (digits1_app _ _ _ rest Hy); [done|].
      intros ?. by apply ends_number_digits, Hr.
    + assert (Some (EmptyString, String c t) = Some (f, r)) as [= <- <-].
      { destruct c as [[] [] [] [] [] [] [] []]; done. }
      rewrite sapp_cons.
      destruct c as [[] [] [] [] [] [] [] []]; done.
Qed.

Lemma scan_frac_sound s f r : scan_frac s = Some (f, r) -> s = f +:+ r.
Proof.
  unfold scan_frac. destruct s as [|c t]; [by intros [= <- <-]|].
  destruct (Ascii.eqb_spec c ".") as [->|Hc].
  - intros (y & Hy & ->)%prepend_inv. apply digits1_sound in Hy. by rewrite Hy.
  - intros H. assert (Some (EmptyString, String c t) = Some (f, r)) as [= <- <-]; [|done].
    destruct c as [[] [] [] [] [] [] [] []]; done.
Qed.

Lemma scan_exp_app s e r rest :
  scan_exp s = Some (e, r) -> (r = EmptyString -> ends_number rest) ->
  scan_exp (s +:+ rest) = Some (e, r +:+ rest).
Proof.
  intros H Hr. destruct s as [|c t].
  - injection H as <- <-. rewrite !sapp_nil_l. specialize (Hr eq_refl).
    destruct rest as [|c rest]; [done|]. destruct Hr as (_ & _ & Hc1 & Hc2).
    unfold scan_exp.
    destruct (Ascii.eqb_spec c "e"); [done|].
    destruct (Ascii.eqb_spec c "E"); done.
  - rewrite sapp_cons. unfold scan_exp in *.
    destruct (Ascii.eqb c "e" || Ascii.eqb c "E").
    + destruct t as [|sg t']; [done|]. rewrite sapp_cons.
      destruct (Ascii.eqb sg "+" || Ascii.eqb sg "-").
      * apply prepend_inv in H as (y & Hy & ->).
        rewrite (digits1_app _ _ _ rest Hy); [done|].
        intros ?. by apply ends_number_digits, Hr.
      * apply prepend_inv in H as (y & Hy & ->).
        rewrite <- sapp_cons.
        rewrite (digits1_app _ _ _ rest Hy); [done|].
        intros ?. by apply ends_number_digits, Hr.
    + injection H as <- <-. by rewrite sapp_cons.
Qed.

Lemma scan_exp_sound s e r : scan_exp s = Some (e, r) -> s = e +:+ r.
Proof.
  unfold scan_exp. destruct s as [|c t]; [by intros [= <- <-]|].
  destruct (Ascii.eqb c "e" || Ascii.eqb c "E"); [|by intros [= <- <-]].
  destruct t as [|sg t']; [done|].
  destruct (Ascii.eqb sg "+" || Ascii.eqb sg "-").
  - intros (y & Hy & ->)%prepend_inv. apply digits1_sound in Hy. by rewrite Hy.
  - intros (y & Hy & ->)%prepend_inv. apply digits1_sound in Hy.
    rewrite sapp_cons, sapp_nil_l. by rewrite Hy.
Qed.

Lemma scan_frac_nil f r : scan_frac EmptyString = Some (f, r) -> r = EmptyString.
Proof. by intros [= _ <-]. Qed.

Lemma scan_exp_nil e r : scan_exp EmptyString = Some (e, r) -> r = EmptyString.
Proof. by intros [= _ <-]. Qed.

Lemma scan_number_app s lit r rest :
  scan_number s = Some (lit, r) -> (r = EmptyString -> ends_number rest) ->
  scan_number (s +:+ rest) = Some (lit, r +:+ rest)
  /\ s = lit +:+ r
  /\ exists c t, s = String c t /\ (c = "-"%char \/ is_digit c = true).
Proof.
  intros H Hr. unfold scan_number in *.
  assert (exists sign s0,
             (match s with String "-"%char t => ("-", t) | _ => (EmptyString, s) end)
             = (sign, s0)
             /\ s = sign +:+ s0
             /\ (forall y, s0 <> EmptyString ->
                  (match s +:+ y with
                   | String "-"%char t => ("-", t)
                   | _ => (EmptyString, s +:+ y)
                   end) = (sign, s0 +:+ y))
             /\ (sign = EmptyString \/ sign = "-"))
    as (sign & s0 & Hsplit & Hs & Hy & Hsign).
  { destruct s as [|c t]; [exists EmptyString, EmptyString; by repeat split; auto|].
    destruct (Ascii.eqb_spec c "-") as [->|Hc].
    - exists "-", t. repeat split; auto.
    - exists EmptyString, (String c t). rewrite sapp_nil_l.
      split; [destruct c as [[] [] [] [] [] [] [] []]; done|]. split; [done|].
      split; [|by left]. intros y _. rewrite sapp_cons.
      destruct c as [[] [] [] [] [] [] [] []]; done. }
  rewrite Hsplit in H.
  destruct (scan_int s0) as [[i s1]|] eqn:Hi; [|done].
  destruct (scan_frac s1) as [[f s2]|] eqn:Hf; [|done].
  destruct (scan_exp s2) as [[e s3]|] eqn:He; [|done].
  injection H as <- <-.
  assert (Hs2 : s2 = EmptyString -> ends_number rest).
  { intros ->. apply Hr. by apply scan_exp_nil in He. }
  assert (Hs1 : s1 = EmptyString -> ends_number rest).
  { intros ->. apply Hs2. by apply scan_frac_nil in Hf. }
  destruct (scan_int_head _ _ _ Hi) as (c0 & t0 & Hs0 & Hd).
  split; [|split].
  - rewrite Hy by (by rewrite Hs0).
    rewrite (scan_int_app _ _ _ rest Hi)
      by (intros ?; by apply ends_number_digits, Hs1).
    rewrite (scan_frac_app _ _ _ rest Hf Hs2).
    by rewrite (scan_exp_app _ _ _ rest He Hr).
  - apply scan_int_sound in Hi. apply scan_frac_sound in Hf.
    apply scan_exp_sound in He. subst. by rewrite !sapp_assoc.
  - rewrite Hs, Hs0. destruct Hsign as [->| ->].
    + rewrite sapp_nil_l. eauto.
    + rewrite sapp_cons. eauto.
Qed.

(** A number literal is scanned as a whole when what follows cannot
    continue it. *)
Lemma scan_number_literal t rest :
  number_literal t = true -> ends_number rest ->
  scan_number (t +:+ rest) = Some (t, rest)
  /\ exists c t', t = String c t' /\ (c = "-"%char \/ is_digit c = true).
Proof.
  unfold number_literal. intros H Hr.
  destruct (scan_number t) as [[lit [|??]]|] eqn:Ht; try done.
  destruct (scan_number_app t lit EmptyString rest Ht (fun _ => Hr))
    as (H1 & H2 & H3).
  rewrite sapp_nil_r in H2. subst lit. by rewrite sapp_nil_l in H1.
Qed.

End number_facts.

Section layout.
Context `{F : Float64}.
Import props.


Lemma skip_space_blank ws x :
  blank ws = true -> jsontext.skip_space (ws +:+ x) = jsontext.skip_space x.
Proof.
  induction ws as [|c ws IH]; [done|]. intros H. simpl in H.
  apply andb_true_iff in H as [Hc Hws].
  rewrite sapp_cons. cbn [jsontext.skip_space]. rewrite Hc. by apply IH.
Qed.

Lemma skip_space_solid c x :
  jsontext.is_space c = false -> jsontext.skip_space (String c x) = String c x.
Proof. intros H. simpl. by rewrite H. Qed.

Lemma skip_space_opens ws t x :
  blank ws = true -> opens_value t ->
  jsontext.skip_space (ws +:+ t +:+ x) = t +:+ x.
Proof.
  intros Hws (c & t' & -> & Hc & _). rewrite skip_space_blank by done.
  rewrite sapp_cons. by apply skip_space_solid.
Qed.

Lemma ends_number_blank ws c x :
  blank ws = true -> c = "]"%char \/ c = "}"%char \/ c = ","%char ->
  ends_number (ws +:+ String c x).
Proof.
  intros Hws Hc. destruct ws as [|w ws].
  - rewrite sapp_nil_l. simpl. destruct Hc as [->|[->| ->]]; done.
  - rewrite sapp_cons. simpl in *. apply andb_true_iff in Hws as [Hw _].
    destruct w as [[] [] [] [] [] [] [] []]; done.
Qed.

Lemma join_cons sep t t' ts :
  json.join sep (t :: t' :: ts) = t +:+ sep +:+ json.join sep (t' :: ts).
Proof. done. Qed.

Lemma join_opens sep t ts x :
  opens_value t -> exists c y, json.join sep (t :: ts) +:+ x = String c y
                               /\ jsontext.is_space c = false
                               /\ c <> "]"%char /\ c <> "}"%char.
Proof.
  intros (c & t' & -> & Hc). destruct ts as [|t2 ts].
  - exists c, (t' +:+ x). by rewrite <- sapp_cons.
  - exists c, (t' +:+ sep +:+ json.join sep (t2 :: ts) +:+ x).
    by rewrite join_cons, !sapp_assoc, <- sapp_cons.
Qed.

Lemma weight_cons t ts :
  weight (t :: ts) = (2 * String.length t + 1 + weight ts)%nat.
Proof. done. Qed.

(** The elements of an array, from the first one to the closing
    bracket: commas between them, white space after each comma and
    before the bracket. *)
Lemma parse_elements_join d sws ews (vs : list (json.value F)) ts :
  blank sws = true -> blank ews = true ->
  Forall2 (reads_back d) vs ts -> vs <> [] ->
  forall fuel rest,
    (weight ts <= fuel)%nat ->
    json.parse_elements fuel d
      (json.join ("," +:+ sws) ts +:+ ews +:+ String "]" rest)
    = Some (vs, rest).
Proof.
  intros Hs He H. induction H as [|v t vs ts [Ho Hv] Hrest IH]; [done|].
  intros _ fuel rest Hf. rewrite weight_cons in Hf.
  destruct fuel as [|n]; [lia|].
  destruct Hrest as [|v2 t2 vs2 ts2 Hv2 Hrest2].
  - change (json.join ("," +:+ sws) [t]) with t.
    cbn [json.parse_elements].
    rewrite Hv; [|lia|by apply ends_number_blank; auto].
    rewrite skip_space_blank by done.
    rewrite skip_space_solid by done. reflexivity.
  - rewrite join_cons, !sapp_assoc, sapp_cons, sapp_nil_l.
    cbn [json.parse_elements].
    rewrite Hv; [|lia|done].
    rewrite skip_space_solid by done. cbn [json.expect].
    change (Ascii.eqb "," ",") with true. cbn match.
    destruct (join_opens ("," +:+ sws) t2 ts2 (ews +:+ String "]" rest) (proj1 Hv2))
      as (c & y & Hj & Hc & _).
    rewrite skip_space_blank by done.
    rewrite Hj, skip_space_solid by done. rewrite <- Hj.
    rewrite IH; [done|done|lia].
Qed.


Lemma member_opens cws it : opens_value (member cws it).
Proof.
  unfold member, jsontext.quote. rewrite sapp_cons. by eexists _, _.
Qed.


(** The members of an object, from the first key to the closing brace. *)
Lemma parse_members_join d sws ews cws (kvs : list (string * json.value F)) items :
  blank sws = true -> blank ews = true -> blank cws = true ->
  Forall2 (member_reads_back d) kvs items -> kvs <> [] ->
  forall fuel rest,
    (weight (snd <$> items) <= fuel)%nat ->
    json.parse_members fuel d
      (json.join ("," +:+ sws) (member cws <$> items)
       +:+ ews +:+ String "}" rest)
    = Some (kvs, rest).
Proof.
  intros Hs He Hc H.
  induction H as [|[k v] [k' t] kvs items (Hk & Hvalid & Ho & Hv) Hrest IH]; [done|].
  simpl in Hk, Hvalid, Ho, Hv. subst k'.
  intros _ fuel rest Hf. rewrite fmap_cons, weight_cons in Hf. simpl in Hf.
  destruct fuel as [|n]; [lia|].
  assert (Hhead : forall tail,
             ends_number tail ->
             json.parse_members (S n) d (member cws (k, t) +:+ tail)
             = match json.expect "," (jsontext.skip_space tail) with
               | Some r3 =>
                 match json.parse_members n d (jsontext.skip_space r3) with
                 | Some (kvs, r4) => Some ((k, v) :: kvs, r4)
                 | None => None
                 end
               | None =>
                 match json.expect "}" (jsontext.skip_space tail) with
                 | Some r3 => Some ([(k, v)], r3)
                 | None => None
                 end
               end).
  { intros tail Htail. unfold member, jsontext.quote. cbn [fst snd].
    rewrite !sapp_cons, !sapp_assoc, !sapp_cons, sapp_nil_l.
    cbn [json.parse_members json.expect].
    change (Ascii.eqb "034" "034") with true. cbn match.
    rewrite unquote_encode by done.
    rewrite skip_space_solid by done. cbn [json.expect].
    change (Ascii.eqb ":" ":") with true. cbn match.
    rewrite sapp_assoc, skip_space_opens by done.
    rewrite Hv; [done|lia|done]. }
  destruct Hrest as [|kv2 it2 kvs2 items2 Hkv2 Hrest2].
  - change (json.join ("," +:+ sws) (member cws <$> [(k, t)]))
      with (member cws (k, t)).
    rewrite Hhead by (apply ends_number_blank; auto).
    rewrite skip_space_blank by done.
    rewrite skip_space_solid by done. reflexivity.
  - rewrite !fmap_cons, join_cons, !sapp_assoc, sapp_cons, sapp_nil_l.
    rewrite Hhead by done.
    rewrite skip_space_solid by done. cbn [json.expect].
    change (Ascii.eqb "," ",") with true. cbn match.
    destruct (join_opens ("," +:+ sws) (member cws it2) (member cws <$> items2)
                (ews +:+ String "}" rest) (member_opens cws it2))
      as (c & y & Hj & Hc' & _).
    rewrite skip_space_blank by done.
    rewrite Hj, skip_space_solid by done. rewrite <- Hj.
    rewrite <- fmap_cons.
    rewrite IH; [done|done|lia].
Qed.

End layout.

Section leaves.
Context `{F : Float64} `{!Float64Laws F}.
Import props.

Lemma prefix_app (a b : string) : String.prefix a (a +:+ b) = true.
Proof.
  induction a as [|c a IH]; [by destruct b|].
  rewrite sapp_cons. simpl. by destruct (ascii_dec c c).
Qed.

Lemma substring_all (b : string) : String.substring 0 (String.length b) b = b.
Proof. induction b as [|c b IH]; [done|]. simpl. by rewrite IH. Qed.

Lemma substring_skip (a b : string) n :
  String.substring (String.length a) n (a +:+ b) = String.substring 0 n b.
Proof. induction a as [|c a IH]; [done|]. rewrite sapp_cons. simpl. apply IH. Qed.

Lemma literal_app lit (v : json.value F) rest :
  json.literal lit v (lit +:+ rest) = Some (v, rest).
Proof.
  unfold json.literal. rewrite prefix_app, substring_skip, slength_app.
  replace (String.length lit + String.length rest - String.length lit)%nat
    with (String.length rest) by lia.
  by rewrite substring_all.
Qed.

Lemma parse_null d : reads_back d (json.Null (F:=F)) "null".
Proof.
  split; [by eexists _, _|]. intros [|n] rest Hf _; [simpl in Hf; lia|].
  exact (literal_app "null" json.Null rest).
Qed.

Lemma parse_bool d b : reads_back d (json.Bool (F:=F) b) (strconv.FormatBool b).
Proof.
  split; [destruct b; by eexists _, _|].
  intros [|n] rest Hf _; [destruct b; simpl in Hf; lia|].
  destruct b.
  - exact (literal_app "true" (json.Bool true) rest).
  - exact (literal_app "false" (json.Bool false) rest).
Qed.

Lemma parse_string d s :
  utf8.ValidString s = true -> reads_back d (json.Str (F:=F) s) (jsontext.quote s).
Proof.
  intros Hs. unfold jsontext.quote.
  split; [by eexists _, _|]. intros [|n] rest Hf _; [simpl in Hf; lia|].
  rewrite sapp_cons, sapp_assoc, sapp_cons, sapp_nil_l.
  cbn [json.parse_value]. change (Ascii.eqb "034" "{") with false.
  change (Ascii.eqb "034" "[") with false.
  change (Ascii.eqb "034" "034") with true. cbn match.
  by rewrite unquote_encode.
Qed.

Lemma digit_not_opening c :
  c = "-"%char \/ jsontext.is_digit c = true ->
  Ascii.eqb c "{" = false /\ Ascii.eqb c "[" = false
  /\ Ascii.eqb c "034" = false /\ Ascii.eqb c "t" = false
  /\ Ascii.eqb c "f" = false /\ Ascii.eqb c "n" = false
  /\ jsontext.is_space c = false /\ c <> "]"%char /\ c <> "}"%char.
Proof.
  intros [->|H]; [done|].
  repeat split;
    try (match goal with |- Ascii.eqb c ?x = false =>
           destruct (Ascii.eqb_spec c x) as [->|]; [discriminate H|done] end).
  - destruct (jsontext.is_space c) eqn:Hs; [|done].
    destruct c as [[] [] [] [] [] [] [] []]; discriminate.
  - intros ->. discriminate H.
  - intros ->. discriminate H.
Qed.

Lemma parse_number d f t :
  parsed_number f -> FormatFloat f = Some t ->
  reads_back d (json.Number f) t.
Proof.
  intros [s Hs] Ht.
  destruct (format_parsed s f Hs) as (t' & Ht' & Hlit & Hback).
  assert (t' = t) as -> by congruence.
  destruct (scan_number_literal t EmptyString Hlit I) as (_ & c & t0 & -> & Hc).
  destruct (digit_not_opening c Hc) as (H1 & H2 & H3 & H4 & H5 & H6 & H7 & H8 & H9).
  split; [by eexists _, _|].
  intros [|n] rest Hf Hrest; [simpl in Hf; lia|].
  destruct (scan_number_literal _ rest Hlit Hrest) as (Hscan & _).
  rewrite sapp_cons in Hscan |- *.
  cbn [json.parse_value]. rewrite H1, H2, H3, H4, H5, H6, Hscan.
  by rewrite Hback.
Qed.

End leaves.

Section assembly.
Context `{F : Float64}.
Import props.

Lemma weight_join sep t ts :
  (weight (t :: ts) <= 2 * String.length (json.join (String "," sep) (t :: ts)) + 1)%nat.
Proof.
  revert t. induction ts as [|t2 ts IH]; intros t.
  - change (json.join _ [t]) with t. rewrite weight_cons.
    change (weight []) with 0%nat. lia.
  - rewrite join_cons, weight_cons, !slength_app. specialize (IH t2).
    change (String.length (String "," sep)) with (S (String.length sep)). lia.
Qed.

Lemma weight_members cws items :
  (weight (snd <$> items) <= weight (member cws <$> items))%nat.
Proof.
  induction items as [|[k t] items IH]; [done|].
  rewrite !fmap_cons, !weight_cons. unfold member at 1. simpl.
  rewrite !slength_app. lia.
Qed.

Lemma parse_array_nil d :
  (d < json.maxNestingDepth)%nat -> reads_back d (json.Array (F:=F) []) "[]".
Proof.
  intros Hd. split; [by eexists _, _|].
  intros [|n] rest Hf _; [simpl in Hf; lia|].
  apply Nat.ltb_lt in Hd.
  change ("[]" +:+ rest) with (String "[" (String "]" rest)).
  cbn [json.parse_value]. change (Ascii.eqb "[" "{") with false.
  change (Ascii.eqb "[" "[") with true. cbn match. by rewrite Hd.
Qed.

Lemma parse_object_nil d :
  (d < json.maxNestingDepth)%nat -> reads_back d (json.Object (F:=F) ∅) "{}".
Proof.
  intros Hd. split; [by eexists _, _|].
  intros [|n] rest Hf _; [simpl in Hf; lia|].
  apply Nat.ltb_lt in Hd.
  change ("{}" +:+ rest) with (String "{" (String "}" rest)).
  cbn [json.parse_value]. change (Ascii.eqb "{" "{") with true.
  cbn match. by rewrite Hd.
Qed.

(** An array with elements: white space [ws] after the bracket, [sws]
    after each comma and [ews] before the closing bracket. *)
Lemma parse_array d ws sws ews (vs : list (json.value F)) ts :
  blank ws = true -> blank sws = true -> blank ews = true ->
  (d < json.maxNestingDepth)%nat ->
  Forall2 (reads_back (S d)) vs ts -> vs <> [] ->
  reads_back d (json.Array vs)
    ("[" +:+ ws +:+ json.join ("," +:+ sws) ts +:+ ews +:+ "]").
Proof.
  intros Hw Hs He Hd H Hne. split; [by eexists _, _|].
  intros fuel rest Hf _.
  destruct H as [|v t vs ts Hv Hrest]; [done|].
  pose proof (weight_join sws t ts) as Hwt.
  change ("," +:+ sws) with (String "," sws) in *.
  rewrite sapp_cons, sapp_nil_l in Hf. cbn [String.length] in Hf.
  rewrite !slength_app in Hf. cbn [String.length] in Hf.
  destruct fuel as [|n]; [lia|].
  rewrite !sapp_cons, !sapp_assoc, sapp_cons, !sapp_nil_l.
  apply Nat.ltb_lt in Hd.
  cbn [json.parse_value]. change (Ascii.eqb "[" "{") with false.
  change (Ascii.eqb "[" "[") with true. cbn match. rewrite Hd.
  destruct (join_opens (String "," sws) t ts (ews +:+ String "]" rest) (proj1 Hv))
    as (c & y & Hj & Hc & Hc1 & Hc2).
  rewrite skip_space_blank by done.
  rewrite Hj, skip_space_solid by done.
  assert (json.expect "]" (String c y) = None) as ->.
  { simpl. by destruct (Ascii.eqb_spec c "]"). }
  rewrite <- Hj.
  rewrite (parse_elements_join (S d) sws ews (v :: vs) (t :: ts));
    [done|done|done|by constructor|done|lia].
Qed.

(** An object with members. *)
Lemma parse_object d ws sws ews cws (kvs : list (string * json.value F)) items :
  blank ws = true -> blank sws = true -> blank ews = true ->
  blank cws = true ->
  (d < json.maxNestingDepth)%nat ->
  Forall2 (member_reads_back (S d)) kvs items -> kvs <> [] ->
  reads_back d (json.Object (json.assign_all ∅ kvs))
    ("{" +:+ ws +:+ json.join ("," +:+ sws) (member cws <$> items)
     +:+ ews +:+ "}").
Proof.
  intros Hw Hs He Hc Hd H Hne. split; [by eexists _, _|].
  intros fuel rest Hf _.
  destruct H as [|kv it kvs items Hkv Hrest]; [done|].
  rewrite fmap_cons in Hf |- *.
  pose proof (weight_join sws (member cws it) (member cws <$> items)) as Hwt.
  pose proof (weight_members cws (it :: items)) as Hwm.
  rewrite fmap_cons in Hwm.
  change ("," +:+ sws) with (String "," sws) in *.
  rewrite sapp_cons, sapp_nil_l in Hf. cbn [String.length] in Hf.
  rewrite !slength_app in Hf. cbn [String.length] in Hf.
  destruct fuel as [|n]; [lia|].
  rewrite !sapp_cons, !sapp_assoc, sapp_cons, !sapp_nil_l.
  apply Nat.ltb_lt in Hd.
  cbn [json.parse_value]. change (Ascii.eqb "{" "{") with true.
  cbn match. rewrite Hd.
  destruct (join_opens (String "," sws) (member cws it) (member cws <$> items)
              (ews +:+ String "}" rest) (member_opens cws it))
    as (c & y & Hj & Hc0 & Hc1 & Hc2).
  rewrite skip_space_blank by done.
  rewrite Hj, skip_space_solid by done.
  assert (json.expect "}" (String c y) = None) as ->.
  { simpl. by destruct (Ascii.eqb_spec c "}"). }
  rewrite <- Hj, <- fmap_cons.
  rewrite (parse_members_join (S d) sws ews cws (kv :: kvs) (it :: items));
    [done|done|done|done|by constructor|done|].
  rewrite fmap_cons in *. lia.
Qed.

Lemma assign_all_lookup_NoDup (m : gmap string (json.value F)) kvs k v :
  NoDup kvs.*1 -> (k, v) ∈ kvs -> json.assign_all m kvs !! k = Some v.
Proof.
  intros Hnd Hin. apply list_elem_of_split in Hin as (l1 & l2 & ->).
  apply assign_all_lookup_last.
  rewrite fmap_app, fmap_cons in Hnd. apply NoDup_app in Hnd as (_ & _ & Hnd).
  apply NoDup_cons in Hnd as [Hnd _].
  apply Forall_forall. intros [k' v'] Hin Heq. simpl in Heq. subst.
  apply Hnd. apply list_elem_of_fmap. by exists (k, v').
Qed.

(** Assigning the entries of a map, in any order, builds the map. *)
Lemma assign_all_Permutation (m : gmap string (json.value F)) kvs :
  kvs ≡ₚ map_to_list m -> json.assign_all ∅ kvs = m.
Proof.
  intros Hp. apply map_eq. intros k.
  assert (Hnd : NoDup kvs.*1).
  { rewrite Hp. apply NoDup_fst_map_to_list. }
  destruct (m !! k) as [v|] eqn:Hk.
  - apply assign_all_lookup_NoDup; [done|].
    rewrite Hp. by apply elem_of_map_to_list.
  - rewrite assign_all_lookup_other; [done|].
    apply Forall_forall. intros [k' v'] Hin Heq. simpl in Heq. subst.
    rewrite Hp in Hin. apply elem_of_map_to_list in Hin. congruence.
Qed.

(** The sorted members are the entries of the map in some order. *)
Lemma sort_members_entries (g : json.value F -> string)
  (m : gmap string (json.value F)) :
  exists kvs, json.sort_members (member_text g <$> map_to_list m)
              = member_text g <$> kvs
              /\ kvs ≡ₚ map_to_list m.
Proof.
  pose proof (merge_sort_Permutation json.key_le
                (member_text g <$> map_to_list m)) as Hp.
  change (member_text g <$> map_to_list m)
    with (map (member_text g) (map_to_list m)) in Hp at 2.
  apply Permutation_map_inv in Hp as (kvs & Hk & Hp).
  exists kvs. split; [exact Hk|]. by symmetry.
Qed.

End assembly.

Section round_trip.
Context `{F : Float64} `{!Float64Laws F}.
Import props.

Lemma clean_encodable (v : json.value F) : clean v -> encodable v.
Proof.
  apply all_values_impl; [|done].
  intros f [s Hs]. destruct (format_parsed s f Hs) as (t & -> & _). by eexists.
Qed.

Lemma clean_Array (vs : list (json.value F)) :
  clean (json.Array vs) <-> Forall clean vs.
Proof. apply all_values_Array. Qed.

Lemma clean_Object (m : gmap string (json.value F)) :
  clean (json.Object m)
  <-> map_Forall (fun k x => utf8.ValidString k = true /\ clean x) m.
Proof. apply all_values_Object. Qed.

Lemma nesting_elements (vs : list (json.value F)) d :
  (json.nesting (json.Array vs) + d <= json.maxNestingDepth)%nat ->
  (d < json.maxNestingDepth)%nat
  /\ Forall (fun x => (json.nesting x + S d <= json.maxNestingDepth)%nat) vs.
Proof.
  intros H. split; [simpl in H; lia|].
  assert (json.nesting (json.Array vs) <= S (json.maxNestingDepth - S d))%nat
    as Hn by (simpl in *; lia).
  apply nesting_Array in Hn. eapply Forall_impl; [exact Hn|].
  simpl. intros x Hx. simpl in H. lia.
Qed.

Lemma nesting_members (m : gmap string (json.value F)) d :
  (json.nesting (json.Object m) + d <= json.maxNestingDepth)%nat ->
  (d < json.maxNestingDepth)%nat
  /\ map_Forall (fun _ x => (json.nesting x + S d <= json.maxNestingDepth)%nat) m.
Proof.
  intros H. split; [simpl in H; lia|].
  assert (json.nesting (json.Object m) <= S (json.maxNestingDepth - S d))%nat
    as Hn by (simpl in *; lia).
  apply nesting_Object in Hn. intros k x Hk. specialize (Hn k x Hk).
  simpl in Hn, H. lia.
Qed.

(** Every clean value is read back from the text the encoder writes
    for it. *)
Lemma Marshal_reads_back (v : json.value F) :
  clean v ->
  forall d, (json.nesting v + d <= json.maxNestingDepth)%nat ->
  reads_back d v (text_of v).
Proof.
  induction v as [|b|f|s|vs IH|m IH] using value_ind'; intros Hc d Hd.
  - apply parse_null.
  - apply parse_bool.
  - destruct Hc as [s Hs]. destruct (format_parsed s f Hs) as (t & Ht & _).
    unfold text_of. simpl. rewrite Ht. apply parse_number; [by exists s|done].
  - apply parse_string. exact Hc.
  - pose proof (clean_encodable _ Hc) as He.
    apply clean_Array in Hc. apply nesting_elements in Hd as [Hd Hn].
    unfold text_of.
    rewrite (Marshal_Array vs text_of).
    2:{ rewrite Forall_forall in *. intros x Hx.
        apply Marshal_encodable, clean_encodable, Hc, Hx. }
    cbn [default].
    destruct vs as [|v vs]; [by apply parse_array_nil|].
    apply (parse_array d EmptyString EmptyString EmptyString
             (v :: vs) (text_of <$> v :: vs)); try done.
    apply Forall2_fmap_r, Forall_Forall2_diag.
    rewrite Forall_forall in *. intros x Hx. apply IH; auto.
  - pose proof (clean_encodable _ Hc) as He.
    apply clean_Object in Hc. apply nesting_members in Hd as [Hd Hn].
    unfold text_of.
    rewrite (Marshal_Object m text_of).
    2:{ intros k x Hk. apply Marshal_encodable, clean_encodable.
        by destruct (Hc k x Hk). }
    cbn [default].
    destruct (sort_members_entries text_of m) as (kvs & -> & Hp).
    rewrite <- (assign_all_Permutation m kvs Hp).
    destruct kvs as [|kv kvs]; [by apply parse_object_nil|].
    apply (parse_object d EmptyString EmptyString EmptyString EmptyString
             (kv :: kvs) (member_text text_of <$> kv :: kvs)); try done.
    apply Forall2_fmap_r, Forall_Forall2_diag.
    apply Forall_forall. intros [k x] Hin.
    rewrite Hp in Hin. apply elem_of_map_to_list in Hin.
    destruct (Hc k x Hin) as [Hk Hx].
    split; [done|]. split; [done|]. simpl. apply (IH k x Hin Hx). apply (Hn k x Hin).
Qed.

End round_trip.

Section indent_round_trip.
Context `{F : Float64} `{!Float64Laws F}.
Import props.

Lemma blank_app a b : blank a = true -> blank b = true -> blank (a +:+ b) = true.
Proof.
  intros Ha Hb. induction a as [|c a IH]; [done|].
  rewrite sapp_cons. simpl in *. apply andb_true_iff in Ha as [-> Ha]. by apply IH.
Qed.

Lemma blank_repeat n s : blank s = true -> blank (json.repeat_string n s) = true.
Proof. intros Hs. induction n as [|n IH]; [done|]. simpl. by apply blank_app. Qed.

Lemma blank_newline pfx ind depth :
  blank pfx = true -> blank ind = true ->
  blank (json.newline pfx ind depth) = true.
Proof.
  intros Hp Hi. unfold json.newline. rewrite sapp_cons, sapp_nil_l.
  simpl. apply blank_app; [done|]. by apply blank_repeat.
Qed.

Lemma indent_of_Some pfx ind depth (v : json.value F) :
  encodable v ->
  json.encode_indent pfx ind depth v = Some (indent_of pfx ind depth v).
Proof.
  intros He. destruct (encode_indent_encodable pfx ind v He depth) as [t Ht].
  unfold indent_of. by rewrite Ht.
Qed.

(** Every clean value is read back from the indented text, when the
    prefix and the indentation are white space. *)
Lemma indent_reads_back pfx ind (v : json.value F) :
  blank pfx = true -> blank ind = true -> clean v ->
  forall depth d, (json.nesting v + d <= json.maxNestingDepth)%nat ->
  reads_back d v (indent_of pfx ind depth v).
Proof.
  intros Hpfx Hind.
  induction v as [|b|f|s|vs IH|m IH] using value_ind'; intros Hc depth d Hd.
  - apply parse_null.
  - apply parse_bool.
  - destruct Hc as [s Hs]. destruct (format_parsed s f Hs) as (t & Ht & _).
    unfold indent_of. simpl. rewrite Ht. apply parse_number; [by exists s|done].
  - apply parse_string. exact Hc.
  - apply clean_Array in Hc. apply nesting_elements in Hd as [Hd Hn].
    unfold indent_of.
    destruct vs as [|v vs]; [by apply parse_array_nil|].
    cbn [json.encode_indent].
    rewrite (foldr_collect _ (indent_of pfx ind (S depth))).
    2:{ rewrite Forall_forall in *. intros x Hx.
        apply indent_of_Some, clean_encodable, Hc, Hx. }
    cbn [default].
    apply (parse_array d (json.newline pfx ind (S depth))
             (json.newline pfx ind (S depth)) (json.newline pfx ind depth)
             (v :: vs) (indent_of pfx ind (S depth) <$> v :: vs));
      try (by apply blank_newline); try done.
    apply Forall2_fmap_r, Forall_Forall2_diag.
    rewrite Forall_forall in *. intros x Hx. apply IH; auto.
  - apply clean_Object in Hc. apply nesting_members in Hd as [Hd Hn].
    unfold indent_of. cbn [json.encode_indent].
    rewrite (map_fold_collect _ (indent_of pfx ind (S depth))).
    2:{ intros k x Hk. apply indent_of_Some, clean_encodable.
        by destruct (Hc k x Hk). }
    destruct (map_to_list m) as [|p l] eqn:Hl.
    { apply map_to_list_empty_iff in Hl as ->. by apply parse_object_nil. }
    rewrite fmap_cons. cbn [default]. rewrite <- fmap_cons, <- Hl.
    destruct (sort_members_entries (indent_of pfx ind (S depth)) m)
      as (kvs & -> & Hp).
    rewrite <- (assign_all_Permutation m kvs Hp).
    destruct kvs as [|kv kvs].
    { apply Permutation_nil in Hp. by rewrite Hl in Hp. }
    apply (parse_object d (json.newline pfx ind (S depth))
             (json.newline pfx ind (S depth)) (json.newline pfx ind depth) " "
             (kv :: kvs) (member_text (indent_of pfx ind (S depth)) <$> kv :: kvs));
      try (by apply blank_newline); try done.
    apply Forall2_fmap_r, Forall_Forall2_diag.
    apply Forall_forall. intros [k x] Hin.
    rewrite Hp in Hin. apply elem_of_map_to_list in Hin.
    destruct (Hc k x Hin) as [Hk Hx].
    split; [done|]. split; [done|]. simpl. apply (IH k x Hin Hx). apply (Hn k x Hin).
Qed.

(** A text that reads back as [v] is what [json.Unmarshal] decodes to
    [v]. *)
Lemma reads_back_Unmarshal (v : json.value F) t :
  reads_back 0 v t -> json.Unmarshal t = Some v.
Proof.
  intros [(c & t' & -> & Hc & _) H].
  unfold json.Unmarshal, json.parse_text.
  rewrite skip_space_solid by done.
  rewrite <- (sapp_nil_r (String c t')) at 2.
  rewrite H; [done|unfold json.fuel_for; lia|done].
Qed.

(** [json.Unmarshal] undoes [json.Marshal] on clean values within the
    nesting limit. *)
Lemma Unmarshal_Marshal (v : json.value F) :
  clean v -> (json.nesting v <= json.maxNestingDepth)%nat ->
  exists t, json.Marshal v = Some t /\ json.Unmarshal t = Some v.
Proof.
  intros Hc Hn. exists (text_of v).
  split; [by apply Marshal_encodable, clean_encodable|].
  apply reads_back_Unmarshal, Marshal_reads_back; [done|lia].
Qed.

Lemma Unmarshal_MarshalIndent (v : json.value F) pfx ind :
  blank pfx = true -> blank ind = true ->
  clean v -> (json.nesting v <= json.maxNestingDepth)%nat ->
  exists t, json.MarshalIndent v pfx ind = Some t /\ json.Unmarshal t = Some v.
Proof.
  intros Hp Hi Hc Hn. exists (indent_of pfx ind 0 v). split.
  - unfold json.MarshalIndent.
    rewrite (Marshal_encodable v) by by apply clean_encodable.
    apply Nat.leb_le in Hn. rewrite Hn.
    by apply indent_of_Some, clean_encodable.
  - apply reads_back_Unmarshal, indent_reads_back; [done|done|done|lia].
Qed.

End indent_round_trip.

Section valid_output.
Import props.

Lemma Valid_ascii c y :
  byte_val c < 0x80 -> utf8.Valid_go 0 (String c y) = utf8.Valid_go 0 y.
Proof.
  intros H. cbn [utf8.Valid_go]. rewrite (DecodeRune_ascii c y H). cbn [fst snd].
  replace (byte_val c =? utf8.RuneError) with false
    by (symmetry; apply N.eqb_neq; unfold utf8.RuneError; lia).
  done.
Qed.

Lemma Valid_wide2 b0 b1 y :
  wf2 b0 b1 -> utf8.Valid_go 0 (bytes [b0; b1] +:+ y) = utf8.Valid_go 0 y.
Proof.
  intros Hw. cbn [bytes foldr]. rewrite !sapp_cons, sapp_nil_l.
  cbn [utf8.Valid_go]. unfold utf8.DecodeRune.
  change (utf8.nth_byte (String ?c0 (String ?c1 ?t)) 1) with (byte_val c1).
  assert (b0 < 256 /\ b1 < 256) as [H0 H1] by (unfold wf2 in Hw; lia).
  rewrite !byte_val_of by done.
  by rewrite (seq_len_2 _ _ _ _ Hw).
Qed.

Lemma Valid_wide3 b0 b1 b2 y :
  wf3 b0 b1 b2 -> utf8.Valid_go 0 (bytes [b0; b1; b2] +:+ y) = utf8.Valid_go 0 y.
Proof.
  intros Hw. cbn [bytes foldr]. rewrite !sapp_cons, sapp_nil_l.
  cbn [utf8.Valid_go]. unfold utf8.DecodeRune.
  change (utf8.nth_byte (String ?c0 (String ?c1 ?t)) 1) with (byte_val c1).
  change (utf8.nth_byte (String ?c0 (String ?c1 (String ?c2 ?t))) 2)
    with (byte_val c2).
  assert (b0 < 256 /\ b1 < 256 /\ b2 < 256) as (H0 & H1 & H2)
    by (unfold wf3 in Hw; lia).
  rewrite !byte_val_of by done.
  by rewrite (seq_len_3 _ _ _ _ Hw).
Qed.

Lemma Valid_wide4 b0 b1 b2 b3 y :
  wf4 b0 b1 b2 b3 ->
  utf8.Valid_go 0 (bytes [b0; b1; b2; b3] +:+ y) = utf8.Valid_go 0 y.
Proof.
  intros Hw. cbn [bytes foldr]. rewrite !sapp_cons, sapp_nil_l.
  cbn [utf8.Valid_go]. unfold utf8.DecodeRune.
  change (utf8.nth_byte (String ?c0 (String ?c1 ?t)) 1) with (byte_val c1).
  change (utf8.nth_byte (String ?c0 (String ?c1 (String ?c2 ?t))) 2)
    with (byte_val c2).
  change (utf8.nth_byte (String ?c0 (String ?c1 (String ?c2 (String ?c3 ?t)))) 3)
    with (byte_val c3).
  assert (b0 < 256 /\ b1 < 256 /\ b2 < 256 /\ b3 < 256) as (H0 & H1 & H2 & H3)
    by (unfold wf4 in Hw; lia).
  rewrite !byte_val_of by done.
  by rewrite (seq_len_4 _ _ _ _ Hw).
Qed.

(** What [EncodeRune] writes is well-formed, for every rune. *)
Lemma Valid_EncodeRune r y :
  utf8.Valid_go 0 (utf8.EncodeRune r +:+ y) = utf8.Valid_go 0 y.
Proof.
  unfold utf8.EncodeRune, utf8.is_surrogate, utf8.MaxRune, in_range.
  destruct (N.ltb_spec r 0x80).
  { cbn [bytes foldr]. rewrite sapp_cons, sapp_nil_l. apply Valid_ascii.
    rewrite byte_val_of; lia. }
  destruct (N.ltb_spec r 0x800).
  { apply Valid_wide2. unfold wf2. div_lia. }
  destruct (N.ltb_spec 0x10FFFF r).
  { apply Valid_wide3. unfold wf3. lia. }
  destruct (N.leb_spec 0xD800 r); destruct (N.leb_spec r 0xDFFF); cbn [orb andb];
    try (apply Valid_wide3; unfold wf3; lia).
  all: destruct (N.ltb_spec r 0x10000);
    [apply Valid_wide3; unfold wf3; div_lia
    |apply Valid_wide4; unfold wf4; div_lia].
Qed.

Lemma simple_escape_ascii e x :
  jsontext.simple_escape e = Some x -> byte_val x < 0x80.
Proof.
  unfold jsontext.simple_escape. intros H.
  repeat case_match; simplify_eq; done.
Qed.

Lemma Valid_prepend_rune r res x rest :
  jsontext.prepend (utf8.EncodeRune r) res = Some (x, rest) ->
  (forall y, res = Some (y, rest) -> utf8.ValidString y = true) ->
  utf8.ValidString x = true.
Proof.
  intros (y & -> & ->)%prepend_inv Hy. unfold utf8.ValidString.
  rewrite Valid_EncodeRune. by apply Hy.
Qed.

Lemma Valid_prepend_ascii c res x rest :
  byte_val c < 0x80 ->
  jsontext.prepend (String c EmptyString) res = Some (x, rest) ->
  (forall y, res = Some (y, rest) -> utf8.ValidString y = true) ->
  utf8.ValidString x = true.
Proof.
  intros Hc (y & -> & ->)%prepend_inv Hy. unfold utf8.ValidString.
  rewrite sapp_cons, sapp_nil_l, Valid_ascii by done. by apply Hy.
Qed.

(** The decoder only builds well-formed UTF-8: what is ill-formed in
    its input was replaced. *)
Lemma unquote_valid s : forall k x rest,
  jsontext.unquote_chars k s = Some (x, rest) -> utf8.ValidString x = true.
Proof.
  remember (String.length s) as len eqn:Hlen. revert s Hlen.
  induction len as [len IH] using lt_wf_ind. intros s -> k x rest H.
  destruct s as [|c t]; [by destruct k|].
  assert (IHt : forall k y, jsontext.unquote_chars k t = Some (y, rest) ->
                            utf8.ValidString y = true).
  { intros k' y Hy. eapply (IH (String.length t)); [simpl; lia|done|exact Hy]. }
  destruct k as [|k]; [|by eapply IHt].
  cbn [jsontext.unquote_chars] in H.
  destruct (Ascii.eqb c "034"); [by injection H as <- _|].
  destruct (Ascii.eqb c "\").
  { destruct t as [|e t']; [done|].
    destruct (jsontext.simple_escape e) as [x0|] eqn:He.
    { eapply Valid_prepend_ascii; [by eapply simple_escape_ascii|exact H|].
      intros y Hy. by eapply IHt. }
    destruct (Ascii.eqb e "u"); [|done].
    destruct (jsontext.hex4 t') as [rr|]; [|done].
    destruct (utf8.is_surrogate rr).
    - destruct (jsontext.getu4 _) as [rr1|].
      + destruct (_ =? _);
          (eapply Valid_prepend_rune; [exact H|]; intros y Hy; by eapply IHt).
      + eapply Valid_prepend_rune; [exact H|]. intros y Hy. by eapply IHt.
    - eapply Valid_prepend_rune; [exact H|]. intros y Hy. by eapply IHt. }
  destruct (byte_val c <? 0x20); [done|].
  destruct (N.ltb_spec (byte_val c) utf8.RuneSelf) as [Hc|Hc].
  { eapply Valid_prepend_ascii; [exact Hc|exact H|].
    intros y Hy. by eapply IHt. }
  destruct (utf8.DecodeRune (String c t)) as [r size].
  eapply Valid_prepend_rune; [exact H|]. intros y Hy. by eapply IHt.
Qed.

End valid_output.

Section built_clean.
Context `{F : Float64}.
Import props.

Lemma built_clean d (v : json.value F) : built d v -> clean v.
Proof.
  intros [H _]. revert H. apply all_values_impl; [done|].
  intros x (s & r & Hx). by eapply unquote_valid.
Qed.

Lemma decoded_clean (cfg : gmap string (json.value F)) :
  decoded cfg ->
  clean (json.Object cfg)
  /\ (json.nesting (json.Object cfg) <= json.maxNestingDepth)%nat.
Proof.
  intros [data Hd]. apply Unmarshal_built in Hd.
  split; [by eapply built_clean|]. destruct Hd as [_ Hn]. lia.
Qed.

Lemma stored_clean (raw : string) :
  utf8.ValidString raw = true \/ is_Some (json.Unmarshal (F:=F) raw) ->
  clean (stored (F:=F) raw)
  /\ (json.nesting (stored (F:=F) raw) <= json.maxNestingDepth)%nat.
Proof.
  unfold stored. intros H.
  destruct (json.Unmarshal raw) as [v|] eqn:Hv.
  - apply Unmarshal_built in Hv. split; [by eapply built_clean|].
    destruct Hv as [_ Hn]. lia.
  - destruct H as [H|[? ?]]; [|done]. split; [exact H|simpl; lia].
Qed.

End built_clean.

Section valid_split.
Import props.

Lemma get_app_l (a b : string) i :
  (i < String.length a)%nat -> String.get i (a +:+ b) = String.get i a.
Proof.
  revert i. induction a as [|c a IH]; intros i Hi; [simpl in Hi; lia|].
  rewrite sapp_cons. destruct i as [|i]; [done|]. simpl. apply IH. simpl in Hi. lia.
Qed.

Lemma get_app_r (a b : string) c :
  String.get (String.length a) (a +:+ String c b) = Some c.
Proof. induction a as [|c' a IH]; [done|]. rewrite sapp_cons. exact IH. Qed.

Lemma get_Some_lt (a : string) i :
  (i < String.length a)%nat -> is_Some (String.get i a).
Proof.
  revert i. induction a as [|c a IH]; intros i Hi; [simpl in Hi; lia|].
  destruct i as [|i]; [by eexists|]. simpl. apply IH. simpl in Hi. lia.
Qed.

Lemma app_prefix (a b a' b' : string) :
  a +:+ b = a' +:+ b' -> (String.length a' <= String.length a)%nat ->
  exists a2, a = a' +:+ a2 /\ b' = a2 +:+ b.
Proof.
  revert a. induction a' as [|c a' IH]; intros a H Hlen.
  - exists a. by rewrite !sapp_nil_l in *.
  - destruct a as [|c0 a]; [simpl in Hlen; lia|].
    rewrite !sapp_cons in H. injection H as -> H.
    destruct (IH a H) as (a2 & -> & ->); [simpl in Hlen; lia|].
    exists a2. by rewrite sapp_cons.
Qed.

(** A well-formed string that is cut at a byte below [RuneSelf] is
    well-formed on both sides of the cut. *)
Lemma Valid_cut (k raw : string) c :
  byte_val c < 0x80 ->
  utf8.ValidString (k +:+ String c raw) = true ->
  utf8.ValidString k = true /\ utf8.ValidString raw = true.
Proof.
  unfold utf8.ValidString. intros Hc.
  remember (String.length k) as len eqn:Hlen. revert k Hlen.
  induction len as [len IH] using lt_wf_ind. intros k -> Hv.
  destruct k as [|c0 k'].
  - rewrite sapp_nil_l, Valid_ascii in Hv by done. done.
  - destruct (N.ltb_spec (byte_val c0) 0x80) as [H0|H0].
    + rewrite sapp_cons, Valid_ascii in Hv by done.
      rewrite Valid_ascii by done.
      apply (IH (String.length k')); [simpl; lia|done|done].
    + rewrite sapp_cons in Hv.
      destruct (utf8.DecodeRune (String c0 (k' +:+ String c raw))) as [r n] eqn:Hdec.
      assert (Hnot : ~ (n = 1%nat /\ r = utf8.RuneError)).
      { intros [-> ->]. cbn [utf8.Valid_go] in Hv. rewrite Hdec in Hv.
        cbn [fst snd] in Hv. by rewrite N.eqb_refl in Hv. }
      destruct (DecodeRune_wide _ _ r n Hdec H0 Hnot)
        as (Hn & Hl & Hs & Hd & (e & He) & Hbytes).
      assert (Hv' : utf8.Valid_go 0 (sdrop n (String c0 (k' +:+ String c raw))) = true).
      { cbn [utf8.Valid_go] in Hv. rewrite Hdec in Hv. cbn [fst snd] in Hv.
        destruct n as [|[|n]]; [lia..|].
        replace (S (S n) - 1)%nat with (S n) in Hv by lia.
        rewrite Valid_go_sdrop in Hv. destruct (r =? utf8.RuneError); exact Hv. }
      rewrite <- sapp_cons in Hs, Hv'.
      destruct (le_lt_dec (String.length (utf8.EncodeRune r))
                  (String.length (String c0 k'))) as [Hle|Hgt].
      * destruct (app_prefix _ _ _ _ Hs Hle) as (k2 & Hk & Hrest).
        rewrite Hrest in Hv'. rewrite Hk, Valid_EncodeRune.
        apply (IH (String.length k2)); [|done|done].
        apply (f_equal String.length) in Hk. rewrite slength_app in Hk. lia.
      * exfalso.
        pose proof (get_app_r (String c0 k') raw c) as Hg.
        rewrite Hs, get_app_l in Hg by done.
        apply Hbytes in Hg. lia.
Qed.

End valid_split.

Section merge_round_trip.
Context `{F : Float64} `{!Float64Laws F} `{T : TimeOps}.
Import props cmd.

Lemma parse_override_shape (arg k : string) (v : json.value F) :
  parse_override arg = Some (k, v) ->
  exists raw, arg = k +:+ String "="%char raw /\ v = stored raw.
Proof.
  unfold parse_override, strings.SplitN2, stored.
  destruct (strings.Cut arg "=") as [[k' raw']|] eqn:Hc; [|done].
  apply Cut_Some in Hc as [-> _]. intros [= <- <-]. by exists raw'.
Qed.

Lemma decoded_updates_clean (params : gmap string (json.value F)) :
  clean (json.Object params) ->
  (json.nesting (json.Object params) <= json.maxNestingDepth)%nat ->
  decoded_updates params = Some params.
Proof.
  intros Hc Hn. unfold decoded_updates.
  destruct (Unmarshal_Marshal _ Hc Hn) as (t & -> & ->). done.
Qed.

(** The updates built from well-formed arguments are clean. *)
Lemma parse_overrides_clean args (params : gmap string (json.value F)) :
  parse_overrides args ∅ = inr params ->
  Forall (fun a => utf8.ValidString a = true) args ->
  clean (json.Object params).
Proof.
  intros Hp Hargs. apply parse_overrides_assign in Hp as (kvs & Hkvs & ->).
  apply clean_Object, assign_all_Forall; [apply map_Forall_empty|].
  induction Hkvs as [|a [k v] args kvs Ha _ IH]; [constructor|].
  apply Forall_cons in Hargs as [Hv Hargs]. constructor; [|by apply IH].
  apply parse_override_shape in Ha as (raw & -> & ->).
  apply Valid_cut in Hv as [Hk Hraw]; [|done]. simpl.
  split; [done|]. apply stored_clean. by left.
Qed.

(** X18: for arguments that are well-formed UTF-8, the merge of
    [ConfigureSolanaChain] succeeds and gives exactly the updates laid
    over the existing configuration, provided the updates nest within
    the limit of the decoder: each key of an argument holds the value
    of its last argument, every other key of the configuration is
    unchanged. *)
Theorem Configure_merge_is_overlay (args : list string)
  (config params : gmap string (json.value F)) :
  parse_overrides args ∅ = inr params ->
  Forall (fun a => utf8.ValidString a = true) args ->
  (json.nesting (json.Object params) <= json.maxNestingDepth)%nat ->
  merge_config config params = Some (params ∪ config).
Proof.
  intros Hp Hargs Hn. rewrite merge_config_union.
  rewrite decoded_updates_clean; [done| |done].
  by eapply parse_overrides_clean.
Qed.

(** X19: the configuration column of [ToRow] can be read back: for a
    configuration that was decoded from JSON, the third string of the
    row is a JSON text that decodes to that configuration. *)
Theorem ToRow_config_reads_back (p : SolanaChainPresenter) :
  decoded (Config (resource p)) ->
  exists row text,
    ToRow p = Some row
    /\ row !! 2%nat = Some text
    /\ json.Unmarshal text = Some (json.Object (Config (resource p))).
Proof.
  intros Hd. apply decoded_clean in Hd as [Hc Hn].
  destruct (Unmarshal_MarshalIndent (json.Object (Config (resource p)))
              EmptyString "    " eq_refl eq_refl Hc Hn) as (text & Ht & Hback).
  unfold ToRow. rewrite Ht. by eexists _, text.
Qed.

(** X20: the body of the PATCH carries the merged configuration
    faithfully: when the configuration is clean and nests below the
    limit, the body is a JSON text that decodes to the object with the
    merged configuration under [config] and the flag under [enabled],
    and nothing else. *)
Theorem PATCH_body_decodes (enabled : bool)
  (merged : gmap string (json.value F)) :
  clean (json.Object merged) ->
  (json.nesting (json.Object merged) < json.maxNestingDepth)%nat ->
  exists body,
    json.Marshal (json.Object (patch_params enabled merged)) = Some body
    /\ json.Unmarshal body = Some (json.Object (patch_params enabled merged))
    /\ patch_params enabled merged !! "config" = Some (json.Object merged)
    /\ patch_params enabled merged !! "enabled" = Some (json.Bool enabled)
    /\ (forall k, k <> "config" -> k <> "enabled" ->
         patch_params enabled merged !! k = None).
Proof.
  intros Hc Hn.
  destruct (Unmarshal_Marshal (json.Object (patch_params enabled merged)))
    as (body & Hm & Hu).
  - apply (proj2 (clean_Object (patch_params enabled merged))).
    unfold patch_params.
    apply map_Forall_insert_2; [done|].
    apply map_Forall_insert_2; [done|]. apply map_Forall_empty.
  - assert (json.nesting (json.Object (patch_params enabled merged))
            <= S (json.maxNestingDepth - 1))%nat; [|lia].
    apply (proj2 (nesting_Object (patch_params enabled merged) _)).
    unfold patch_params.
    apply map_Forall_insert_2; [simpl; lia|].
    apply map_Forall_insert_2; [lia|]. apply map_Forall_empty.
  - exists body. split; [done|]. split; [done|]. unfold patch_params.
    split; [by rewrite lookup_insert_ne, lookup_insert_eq|].
    split; [by rewrite lookup_insert_eq|].
    intros k H1 H2. by rewrite !lookup_insert_ne.
Qed.

End merge_round_trip.

(** ** An argument without its separator *)

Section unsplit_facts.
Context `{F : Float64} `{T : TimeOps} {W : Type} (cl : cmd.Client W).
Import props cmd errors.

(** X21: an argument of [ConfigureSolanaChain] without [=] is found
    only after the chain was fetched.  When the GET and the decoding of
    its response succeed, the command then does exactly this: it sends
    the GET, decodes the response, closes its body, and returns the
    error [invalid parameter: ] with the first such argument (a failure
    of the closing appended); nothing is written to the sink and no
    PATCH is sent, also not for the well-formed arguments. *)
Theorem Configure_reports_first_unsplit (c : Context) (st : state (W:=W))
  bad r w1 chain w2 :
  first_unsplit (Args c) = Some bad ->
  String_id c <> EmptyString ->
  HTTP_Get cl (get_path c) (world st) = ((Some r, None), w1) ->
  decode_resource cl (Some r) w1 = (Val chain, w2) ->
  let run := ConfigureSolanaChain cl c st in
  let closed := Body_Close cl r w2 in
  fst run
  = Returned (multierr.Append (Some (New ("invalid parameter: " +:+ bad)))
                              (fst closed))
  /\ new_events st (snd run)
     = [Request "GET" (get_path c) None; Decode (Some r);
        BodyClose r (fst closed)]
  /\ sink (snd run) = sink st.
Proof.
  intros Hbad Hid Hget Hdec run closed. subst run closed.
  rewrite Configure_run,
    (Configure_body_invalid cl c st bad r w1 chain w2 Hbad Hid Hget Hdec).
  cbn [fst snd]. rewrite finish_one. cbn [fst snd world trace sink].
  split; [done|]. split; [|done].
  erewrite new_events_app; [done|]. cbn [trace]. by rewrite <- !app_assoc.
Qed.

End unsplit_facts.

(** ** The row of a resource *)

Section row_facts.
Context `{F : Float64} `{!Float64Laws F} `{T : TimeOps}.
Import props cmd.

#[local] Instance key_le_total : Total json.key_le.
Proof. intros a b. unfold json.key_le. apply String.le_total. Qed.

Lemma Sorted_member_text (g : json.value F -> string) kvs :
  Sorted json.key_le (member_text g <$> kvs) ->
  Sorted (fun a b : string * json.value F => String.le a.1 b.1) kvs.
Proof.
  induction kvs as [|kv kvs IH]; [constructor|].
  rewrite fmap_cons. intros H. apply Sorted_inv in H as [H Hd].
  constructor; [by apply IH|].
  destruct kvs as [|kv2 kvs]; [constructor|].
  rewrite fmap_cons in Hd. apply HdRel_inv in Hd. by constructor.
Qed.

Lemma pretty_object d (m : gmap string (json.value F)) :
  encodable (json.Object m) -> object_layout d m (pretty d (json.Object m)).
Proof.
  intros He. apply encodable_Object in He.
  unfold pretty, indent_of at 1. cbn [json.encode_indent].
  rewrite (map_fold_collect _ (indent_of "" "    " (S d))).
  2:{ intros k x Hk.
      destruct (encode_indent_encodable "" "    " x (He k x Hk) (S d)) as [t Ht].
      unfold indent_of. by rewrite Ht. }
  destruct (map_to_list m) as [|p l] eqn:Hl.
  { exists []. by rewrite Hl. }
  rewrite fmap_cons. cbn [default]. rewrite <- fmap_cons, <- Hl.
  destruct (sort_members_entries (indent_of "" "    " (S d)) m) as (kvs & Hs & Hp).
  exists kvs. split; [done|]. split.
  - apply (Sorted_member_text (indent_of "" "    " (S d))). rewrite <- Hs.
    apply Sorted_merge_sort, _.
  - rewrite Hs. destruct kvs as [|kv kvs].
    { apply Permutation_nil in Hp. by rewrite Hl in Hp. }
    rewrite <- list_fmap_compose. reflexivity.
Qed.

Lemma pretty_array d (vs : list (json.value F)) :
  encodable (json.Array vs) -> array_layout d vs (pretty d (json.Array vs)).
Proof.
  intros He. apply all_values_Array in He.
  unfold array_layout, pretty, indent_of at 1.
  destruct vs as [|v vs]; [done|]. cbn [json.encode_indent].
  rewrite (foldr_collect _ (indent_of "" "    " (S d))); [done|].
  rewrite Forall_forall in *. intros x Hx.
  destruct (encode_indent_encodable "" "    " x (He x Hx) (S d)) as [t Ht].
  unfold indent_of. by rewrite Ht.
Qed.

Lemma pretty_layout_holds : pretty_layout (F:=F).
Proof.
  split; [exact pretty_object|]. split; [exact pretty_array|].
  repeat split; try done.
  intros d f t Ht. unfold pretty, indent_of. simpl. by rewrite Ht.
Qed.

(** C5: for a resource whose configuration was decoded, [ToRow] returns
    five strings in this order: the identifier, the enabled flag as
    ["true"] or ["false"], the configuration as pretty-printed JSON
    text, the creation time, the update time.  The configuration column
    is the text [json.MarshalIndent] gives the document; it decodes back
    to exactly that document, and it is laid out with one member per
    line, in the order of the keys, indented by four spaces, the values
    inside it laid out in the same way one level deeper. *)
Theorem C5_ToRow_columns (p : SolanaChainPresenter) :
  decoded (Config p) ->
  exists config row,
    json.MarshalIndent (json.Object (Config p)) "" "    " = Some config
    /\ ToRow p = Some row
    /\ row = [ID p; (if Enabled p then "true" else "false"); config;
              Time_String (CreatedAt p); Time_String (UpdatedAt p)]
    /\ length row = 5%nat
    /\ json.Unmarshal config = Some (json.Object (Config p))
    /\ config = pretty 0 (json.Object (Config p))
    /\ object_layout 0 (Config p) config
    /\ pretty_layout (F:=F).
Proof.
  intros Hd. apply decoded_clean in Hd as [Hc Hn].
  destruct (Unmarshal_MarshalIndent (json.Object (Config p))
              EmptyString "    " eq_refl eq_refl Hc Hn) as (config & Hm & Hback).
  assert (config = pretty 0 (json.Object (Config p))) as Heq.
  { pose proof Hm as Hm'. unfold json.MarshalIndent in Hm'.
    destruct (json.Marshal (json.Object (Config p))); [|done].
    destruct (_ <=? _)%nat; [|done].
    rewrite (indent_of_Some "" "    " 0 _ (clean_encodable _ Hc)) in Hm'.
    by injection Hm' as <-. }
  exists config. eexists. split; [exact Hm|].
  unfold ToRow. rewrite Hm. split; [reflexivity|].
  split; [unfold GetID, strconv.FormatBool; by destruct (Enabled p)|].
  split; [reflexivity|]. split; [exact Hback|]. split; [exact Heq|].
  split; [|exact pretty_layout_holds].
  rewrite Heq. by apply pretty_object, clean_encodable.
Qed.

End row_facts.

(** ** The theorems at work on the backend *)

(** Closes [l = r] by running [l]; [r] is the result, or is still to be
    determined. *)
Ltac evaluated :=
  lazymatch goal with
  | |- ?l = ?r =>
    tryif has_evar r
    then (let v := eval vm_compute in l in unify r v; reflexivity)
    else reflexivity
  end.

(** Closes [l <> r] by running [l]. *)
Ltac evaluated_differs :=
  lazymatch goal with
  | |- ?l <> ?r =>
    let v := eval vm_compute in l in
    let E := fresh in
    assert (E : l = v) by reflexivity; rewrite E; discriminate
  end.

Lemma Create_checks_input_first_witness :
  let c := {| cmd.String_id := ""; cmd.Int_page := 0; cmd.Args := ["{}"] |} in
  let st := backend.start (backend.healthy backend.devnet) in
  cmd.CreateSolanaChain backend.client c st
  = (cmd.Returned (Some (errors.New "missing chain ID [-id string]")), st).
Proof.
  intros c st.
  apply (proj2 (Create_checks_input_first backend.client c st));
    [discriminate|reflexivity].
Defined.

Lemma Create_sends_one_POST_witness :
  let c := {| cmd.String_id := "devnet"; cmd.Int_page := 0;
              cmd.Args := [backend.json_text "{ 'url' : 'http://a' }"] |} in
  let st := backend.start (backend.healthy backend.devnet) in
  let new := props.new_events st (snd (cmd.CreateSolanaChain backend.client c st)) in
  props.requests new
  = [cmd.Request "POST" "/v2/chains/solana"
       (Some (backend.json_text
                "{'chainID':'devnet','config':{'url':'http://a'}}"))].
Proof.
  intros c st new.
  destruct (Create_sends_one_POST backend.client c st)
    as [H|(buf & w1 & raw & _ & _ & Hread & _ & -> & H)].
  - exfalso. revert H. vm_compute. discriminate.
  - injection Hread as <- _. exact H.
Defined.

Lemma Create_after_POST_witness :
  let c := {| cmd.String_id := "devnet"; cmd.Int_page := 0;
              cmd.Args := [backend.json_text "{'url': 'http://a'}"] |} in
  let st := backend.start (backend.healthy backend.devnet) in
  fst (cmd.CreateSolanaChain backend.client c st) = cmd.Returned None.
Proof.
  intros c st.
  edestruct (Create_after_POST backend.client c st) as (_ & H & _);
    [discriminate|discriminate|evaluated|evaluated|evaluated|].
  destruct (H _ eq_refl eq_refl) as [_ H']. exact (H' eq_refl).
Defined.

Lemma Remove_sends_one_DELETE_witness :
  let c := {| cmd.String_id := ""; cmd.Int_page := 0;
              cmd.Args := ["devnet"; "testnet"] |} in
  let st := backend.start (backend.healthy backend.devnet) in
  let run := cmd.RemoveSolanaChain backend.client c st in
  exists tail,
    props.new_events st (snd run)
    = cmd.Request "DELETE" "/v2/chains/solana/devnet" None :: tail
    /\ props.requests tail = []
    /\ props.closings tail = [].
Proof.
  intros c st run.
  destruct (proj2 (Remove_sends_one_DELETE backend.client c st)
              "devnet" ["testnet"] eq_refl) as (tail & H1 & H2 & H3 & _).
  exists tail. split; [exact H1|]. split; [exact H2|exact H3].
Defined.

Lemma Configure_checks_input_first_witness :
  let c := {| cmd.String_id := "devnet"; cmd.Int_page := 0; cmd.Args := [] |} in
  let st := backend.start (backend.healthy backend.devnet) in
  cmd.ConfigureSolanaChain backend.client c st
  = (cmd.Returned (Some (errors.New
       ("must pass in at least one chain configuration parameters "
        +:+ cmd.usage))), st).
Proof.
  intros c st.
  apply (proj2 (Configure_checks_input_first backend.client c st));
    [discriminate|reflexivity].
Defined.

Lemma Configure_closes_what_resp_holds_witness :
  let c := {| cmd.String_id := "devnet"; cmd.Int_page := 0;
              cmd.Args := ["url=http://b"] |} in
  let st := backend.start (backend.healthy backend.devnet) in
  let run := cmd.ConfigureSolanaChain backend.client c st in
  let new := props.new_events st (snd run) in
  exists cerrs,
    props.closings new = cmd.BodyClose {| cmd.Body := 2 |} <$> cerrs
    /\ length cerrs = 2%nat
    /\ cmd.BodyClose {| cmd.Body := 1 |} None ∉ new.
Proof.
  intros c st run new.
  edestruct (Configure_closes_what_resp_holds backend.client c st) as [_ H];
    [discriminate|discriminate|evaluated..|].
  destruct (H _ eq_refl) as (cerrs & H1 & H2 & H3 & _).
  exists cerrs. split; [exact H1|]. split; [exact H2|].
  apply H3. discriminate.
Defined.

Lemma Configure_without_PATCH_closes_the_GET_witness :
  let c := {| cmd.String_id := "devnet"; cmd.Int_page := 0;
              cmd.Args := ["url=http://b"] |} in
  let st := backend.start backend.failing in
  let run := cmd.ConfigureSolanaChain backend.client c st in
  props.closings (props.new_events st (snd run))
  = [cmd.BodyClose {| cmd.Body := 1 |}
       (Some (errors.New "close of body 1 failed"))]
  /\ fst run
     = cmd.Returned (multierr.Append
         (Some (errors.New "unexpected response shape"))
         (Some (errors.New "close of body 1 failed"))).
Proof.
  intros c st run.
  destruct (Configure_without_PATCH_closes_the_GET backend.client c st
              {| cmd.Body := 1 |}
              {| backend.chain := backend.devnet; backend.page := [];
                 backend.get_fails := false; backend.patch_fails := false;
                 backend.post_fails := false; backend.decode_fails := true;
                 backend.close_fails := fun _ => true; backend.handles := 2 |})
    as [Hcl Hres]; [discriminate|discriminate|reflexivity|vm_compute; reflexivity|].
  split; [exact Hcl|].
  destruct Hres as [[Hd _]|[(e & Hd & Hr)|[(ch & bad & Hd & _)|(ch & ps & Hd & _)]]];
    try discriminate Hd.
  injection Hd as <-. exact Hr.
Defined.

Lemma parse_override_splits_witness :
  cmd.parse_override (F:=go_float64) "memo=a=b"
  = Some ("memo", json.Str "a=b").
Proof.
  apply (proj2 (parse_override_splits_at_first_separator "memo=a=b" "memo"
                  (json.Str "a=b"))).
  exists "a=b". split; [reflexivity|]. split; [reflexivity|].
  symmetry. evaluated.
Defined.

Lemma parse_overrides_last_wins_witness :
  exists params,
    cmd.parse_overrides (F:=go_float64) ["a=x"; "b=true"; "a=y"] ∅ = inr params
    /\ params !! "a" = Some (json.Str "y")
    /\ params !! "c" = None.
Proof.
  assert (exists params,
            cmd.parse_overrides (F:=go_float64) ["a=x"; "b=true"; "a=y"] ∅
            = inr params) as [params Hp] by (eexists; evaluated).
  exists params. split; [exact Hp|].
  destruct (parse_overrides_last_wins _ _ Hp) as [H1 H2]. split.
  - apply (H1 ["a=x"; "b=true"] "a=y" []); [reflexivity|evaluated|constructor].
  - apply H2. repeat constructor; intros v; evaluated_differs.
Defined.

Lemma merge_config_keeps_fields_witness :
  exists merged,
    cmd.merge_config (cmd.Config backend.devnet)
      {[ "url" := json.Str "http://b" ]} = Some merged
    /\ is_Some (merged !! "timeout").
Proof.
  assert (exists merged,
            cmd.merge_config (cmd.Config backend.devnet)
              {[ "url" := json.Str "http://b" ]} = Some merged)
    as [merged Hm] by (eexists; evaluated).
  exists merged. split; [exact Hm|].
  apply (proj1 (merge_config_keeps_fields _ _ _ Hm)).
  assert (E : cmd.Config backend.devnet !! "timeout" = Some (props.stored "5"))
    by evaluated.
  rewrite E. by eexists.
Defined.

Lemma merge_config_idempotent_witness :
  exists merged,
    cmd.merge_config (cmd.Config backend.devnet)
      {[ "url" := json.Str "http://b" ]} = Some merged
    /\ cmd.merge_config merged {[ "url" := json.Str "http://b" ]} = Some merged.
Proof.
  assert (exists merged,
            cmd.merge_config (cmd.Config backend.devnet)
              {[ "url" := json.Str "http://b" ]} = Some merged)
    as [merged Hm] by (eexists; evaluated).
  exists merged. split; [exact Hm|].
  exact (merge_config_idempotent _ _ _ Hm).
Defined.

Lemma Configure_encodings_cannot_fail_witness :
  exists params,
    cmd.parse_overrides (F:=go_float64) ["timeout=1e400"; "url=http://b"] ∅
    = inr params
    /\ is_Some (json.Marshal (json.Object params)).
Proof.
  assert (exists params,
            cmd.parse_overrides (F:=go_float64)
              ["timeout=1e400"; "url=http://b"] ∅ = inr params)
    as [params Hp] by (eexists; evaluated).
  exists params. split; [exact Hp|].
  exact (proj1 (Configure_encodings_cannot_fail
                  (Float64Laws0 := go_float64_laws) _ ∅ params ∅ true Hp)).
Defined.

Lemma RenderTables_writes_nothing_on_panic_witness :
  let good := {| cmd.resource := backend.devnet |} in
  let bad := {| cmd.resource := backend.unencodable |} in
  cmd.RenderTables [good; bad] {| cmd.rt_Writer := backend.empty_sink |}
  = (cmd.Panicked, backend.empty_sink).
Proof.
  intros good bad.
  apply (RenderTables_writes_nothing_on_panic [good; bad] bad
           {| cmd.rt_Writer := backend.empty_sink |}).
  - apply elem_of_cons. right. apply elem_of_cons. by left.
  - evaluated.
Defined.

Lemma deferred_close_keeps_both_errors_witness :
  let c := {| cmd.String_id := "devnet"; cmd.Int_page := 0;
              cmd.Args := ["url=http://b"] |} in
  let st := backend.start backend.failing in
  exists E,
    fst (cmd.ConfigureSolanaChain backend.client c st) = cmd.Returned (Some E)
    /\ props.contains (errors.Error E) "unexpected response shape"
    /\ props.contains (errors.Error E) "close of body 1 failed".
Proof.
  intros c st.
  apply (deferred_close_keeps_both_errors backend.client c st false
           backend.decode_error {| cmd.Body := 1 |} (backend.close_error 1)).
  - reflexivity.
  - reflexivity.
  - vm_compute. apply elem_of_cons. by left.
Defined.

Lemma Configure_merge_is_overlay_witness :
  exists params,
    cmd.parse_overrides (F:=go_float64) ["url=http://b"; "retries=3"] ∅
    = inr params
    /\ cmd.merge_config (cmd.Config backend.devnet) params
       = Some (params ∪ cmd.Config backend.devnet).
Proof.
  assert (exists params,
            cmd.parse_overrides (F:=go_float64) ["url=http://b"; "retries=3"] ∅
            = inr params
            /\ json.nesting (json.Object params) = 1%nat)
    as (params & Hp & Hn) by (eexists; split; evaluated).
  exists params. split; [exact Hp|].
  apply (Configure_merge_is_overlay (Float64Laws0 := go_float64_laws)
           ["url=http://b"; "retries=3"]); [exact Hp| |].
  - repeat constructor.
  - rewrite Hn. pose proof maxNestingDepth_ge. lia.
Defined.

Lemma ToRow_config_reads_back_witness :
  exists row text,
    cmd.ToRow {| cmd.resource := backend.devnet |} = Some row
    /\ row !! 2%nat = Some text
    /\ json.Unmarshal text = Some (json.Object (cmd.Config backend.devnet)).
Proof.
  exact (ToRow_config_reads_back (Float64Laws0 := go_float64_laws)
           {| cmd.resource := backend.devnet |} decoded_devnet).
Defined.

Lemma PATCH_body_decodes_witness :
  exists body,
    json.Marshal (json.Object (cmd.patch_params true (cmd.Config backend.devnet)))
    = Some body
    /\ json.Unmarshal body
       = Some (json.Object (cmd.patch_params true (cmd.Config backend.devnet))).
Proof.
  destruct (decoded_clean _ decoded_devnet) as [Hc _].
  destruct (PATCH_body_decodes (Float64Laws0 := go_float64_laws) true
              (cmd.Config backend.devnet) Hc) as (body & H1 & H2 & _).
  - assert (json.nesting (json.Object (cmd.Config backend.devnet)) = 1%nat)
      as -> by reflexivity.
    pose proof maxNestingDepth_ge. lia.
  - exists body. split; [exact H1|exact H2].
Defined.

Lemma Configure_reports_first_unsplit_witness :
  let c := {| cmd.String_id := "devnet"; cmd.Int_page := 0;
              cmd.Args := ["timeout=7"; "url"; "rpc"] |} in
  let run := cmd.ConfigureSolanaChain backend.client c
               (backend.start (backend.healthy backend.devnet)) in
  fst run = cmd.Returned (Some (errors.New "invalid parameter: url"))
  /\ props.new_events (backend.start (backend.healthy backend.devnet)) (snd run)
     = [cmd.Request "GET" "/v2/chains/solana/devnet" None;
        cmd.Decode (Some {| cmd.Body := 1 |});
        cmd.BodyClose {| cmd.Body := 1 |} None].
Proof.
  intros c run.
  edestruct (Configure_reports_first_unsplit backend.client c
               (backend.start (backend.healthy backend.devnet)) "url")
    as (H1 & H2 & _); [reflexivity|discriminate|evaluated|evaluated|].
  split; [exact H1|exact H2].
Defined.

Lemma decoded_localnet : props.decoded (cmd.Config backend.localnet).
Proof.
  exists (backend.json_text
            "{'ws': null, 'rpc': {'urls': ['a', 'b'], 'retries': 3}}").
  reflexivity.
Defined.

Lemma C5_witness :
  let text := backend.json_text "{
    'rpc': {
        'retries': 3,
        'urls': [
            'a',
            'b'
        ]
    },
    'ws': null
}" in
  cmd.ToRow {| cmd.resource := backend.localnet |}
  = Some ["localnet"; "false"; text;
          "2022-03-09 12:00:00 +0000 UTC"; "2022-03-09 12:00:00 +0000 UTC"]
  /\ json.Unmarshal text = Some (json.Object (cmd.Config backend.localnet))
  /\ props.object_layout 0 (cmd.Config backend.localnet) text.
Proof.
  intros text.
  destruct (C5_ToRow_columns (Float64Laws0 := go_float64_laws)
              {| cmd.resource := backend.localnet |} decoded_localnet)
    as (config & row & Hm & Hrow & -> & _ & Hback & _ & Hlay & _).
  assert (json.MarshalIndent (json.Object (cmd.Config backend.localnet)) "" "    "
          = Some text) as Ht by (subst text; evaluated).
  cbn [cmd.resource cmd.Config] in Hm. rewrite Ht in Hm. injection Hm as <-.
  split; [exact Hrow|]. split; [exact Hback|exact Hlay].
Defined.
